(** * ZIP archive support of VICEVita (src/arch/psvita/zip_support.cpp)

    A shallow embedding of the archive layer: the extension matcher, the
    entry catalogue, the handle life cycle with its process-wide registry,
    the extractor, the scratch-file writer and the C wrappers.

    Target: PS Vita (ARM, ILP32).  [int], [long] are 32-bit signed; [size_t],
    [unsigned long] are 32-bit unsigned; plain [char] is unsigned.

    A [const char*] argument is modelled by the [string] of the characters
    before its terminator ([option string] where the code tests the pointer
    against NULL); such a string holds no NUL character ([is_cstring]). *)

From Stdlib Require Import ZArith NArith Ascii String.
From Stdlib Require Import Strings.Byte.
From stdpp Require Import base numbers option list strings gmap pretty.

Local Open Scope Z_scope.

(* ================================================================== *)
(** * C characters and strings *)
(* ================================================================== *)

Module CStr.

(** Value of a [char] in an integer expression. *)
Definition char_val (c : ascii) : Z := Z.of_N (N_of_ascii c).

(** Conversion of an [int] back to [char] (8 bits, modulo). *)
Definition char_of_int (z : Z) : ascii := ascii_of_N (Z.to_N (z mod 256)).

Definition NUL : ascii := "000"%char.

(** [*s]: the character under the pointer; the terminator at the end. *)
Definition deref (s : string) : ascii :=
  match s with
  | EmptyString => NUL
  | String c _ => c
  end.

Fixpoint is_cstring (s : string) : bool :=
  match s with
  | EmptyString => true
  | String c r => negb (Ascii.eqb c NUL) && is_cstring r
  end.

(** [strrchr(s, c)] for [c] other than NUL: the suffix of [s] that starts
    at the last occurrence of [c], NULL when there is none. *)
Fixpoint strrchr (s : string) (c : ascii) : option string :=
  match s with
  | EmptyString => None
  | String a r =>
      match strrchr r c with
      | Some t => Some t
      | None => if Ascii.eqb a c then Some s else None
      end
  end.

(** The ASCII fold of lines 19-20: ['A'..'Z'] moved up by 32. *)
Definition fold_char (c : ascii) : ascii :=
  if (char_val "A" <=? char_val c) && (char_val c <=? char_val "Z")
  then char_of_int (char_val c + 32)
  else c.

(** Lines 17-25. *)
Fixpoint strcasecmp_custom (s1 s2 : string) : Z :=
  match s1, s2 with
  | String a1 r1, String a2 r2 =>
      let c1 := fold_char a1 in
      let c2 := fold_char a2 in
      if negb (Ascii.eqb c1 c2) then char_val c1 - char_val c2
      else strcasecmp_custom r1 r2
  | _, _ => char_val (deref s1) - char_val (deref s2)
  end.

(** Case-insensitive equality as the specification words it: the two
    strings are equal once every letter is folded to lower case. *)
Fixpoint lower (s : string) : string :=
  match s with
  | EmptyString => EmptyString
  | String c r => String (fold_char c) (lower r)
  end.

Definition eq_nocase (s t : string) : Prop := lower s = lower t.

(** [s] ends in [suffix], letter case ignored. *)
Definition ends_with_nocase (s suffix : string) : Prop :=
  ∃ front back, s = front +:+ back ∧ eq_nocase back suffix.

(** Does [c] occur in [s]? *)
Fixpoint has_char (c : ascii) (s : string) : bool :=
  match s with
  | EmptyString => false
  | String a r => Ascii.eqb a c || has_char c r
  end.

(** [s] has a ['.']-delimited suffix [ext] (the dot included). *)
Definition dot_suffix (s ext : string) : Prop := strrchr s "." = Some ext.

End CStr.
Import CStr.

Definition MAX_FILENAME_LENGTH : nat := 512.
Definition TEMP_DIR : string := "ux0:temp/vicevita_zip/".

(** Lines 84-91. *)
Definition zip_is_archive (filename : option string) : Z :=
  match filename with
  | None => 0
  | Some name =>
      match strrchr name "." with
      | None => 0
      | Some ext => if strcasecmp_custom ext ".zip" =? 0 then 1 else 0
      end
  end.

(* ================================================================== *)
(** * Machine integers and outcomes *)
(* ================================================================== *)

Definition INT_MAX : Z := 2 ^ 31 - 1.

(** Conversion of an integer to the 32-bit signed [int] / [long]. *)
Definition to_long (z : Z) : Z := (z + 2 ^ 31) mod 2 ^ 32 - 2 ^ 31.

(** Conversion of an integer to the 32-bit unsigned [size_t]. *)
Definition to_size_t (z : Z) : Z := z mod 2 ^ 32.

(** Executions the C++ standard leaves undefined, or that leave the
    function by an exception, are kept apart from the returned values. *)
Inductive fault : Set :=
  | UseAfterFree        (* access through a pointer to a deleted handle *)
  | OutOfBounds         (* access outside an array *)
  | BadArrayNewLength   (* [new char[n]] with a negative [n] *)
  | SignedOverflow      (* [int] increment past [INT_MAX] *)
  | NullPointer         (* a C string function applied to NULL *)
  | Diverges.           (* a loop of the codec cursor that never ends *)

Inductive outcome (A : Type) : Type :=
  | Done (a : A)
  | Crash (f : fault).
Arguments Done {A} a.
Arguments Crash {A} f.

(* ================================================================== *)
(** * External collaborators: the minizip codec and the Vita file I/O *)
(* ================================================================== *)

Module unz.
Definition UNZ_OK : Z := 0.
Definition UNZ_END_OF_LIST_OF_FILE : Z := -100.
Definition UNZ_PARAMERROR : Z := -102.

(** The two fields of [unz_file_info] the code reads (both [uLong]). *)
Record unz_file_info : Set := mk_info {
  uncompressed_size : Z;
  compressed_size : Z
}.
End unz.
Import (notations) unz.

(** minizip/unzip.h.  A session ([unzFile]) is a value that each call
    takes and returns.  [unzGetCurrentFileInfo uf n] gives the return code,
    the file information and the content of the caller's [n]-byte name
    buffer after the call; [unzReadCurrentFile uf len] gives the return
    code and the bytes stored at the front of the caller's buffer. *)
Class Minizip (unzFile : Type) : Type := {
  unzOpen : string → option unzFile;
  unzClose : unzFile → Z;
  unzGoToFirstFile : unzFile → Z * unzFile;
  unzGoToNextFile : unzFile → Z * unzFile;
  unzGetCurrentFileInfo : unzFile → nat → Z * unz.unz_file_info * string;
  unzLocateFile : unzFile → string → Z → Z * unzFile;
  unzOpenCurrentFile : unzFile → Z * unzFile;
  unzReadCurrentFile : unzFile → Z → Z * list byte * unzFile;
  unzCloseCurrentFile : unzFile → Z * unzFile;
  (** an archive has finitely many entries after the cursor *)
  entries_left : unzFile → nat;
  unzGoToNextFile_left uf uf' :
    unzGoToNextFile uf = (unz.UNZ_OK, uf') → (entries_left uf' < entries_left uf)%nat;
  (** the name buffer keeps its size *)
  unzGetCurrentFileInfo_buffer uf n rc info buf :
    unzGetCurrentFileInfo uf n = (rc, info, buf) → String.length buf = n;
  (** the sizes are [uLong] values *)
  unzGetCurrentFileInfo_range uf n rc info buf :
    unzGetCurrentFileInfo uf n = (rc, info, buf) →
    0 ≤ unz.uncompressed_size info < 2 ^ 32;
  (** a non-negative return of a read is the number of bytes stored, and
      no more than [len] bytes are stored *)
  unzReadCurrentFile_count uf len rc bytes uf' :
    unzReadCurrentFile uf len = (rc, bytes, uf') →
    Z.of_nat (length bytes) ≤ Z.max 0 len ∧ (0 ≤ rc → Z.of_nat (length bytes) = rc)
}.

Module sce.
(** psp2/io/fcntl.h *)
Definition SCE_O_WRONLY : Z := 0x0002.
Definition SCE_O_CREAT : Z := 0x0200.
Definition SCE_O_TRUNC : Z := 0x0400.
(** the access mode [0777] *)
Definition mode_0777 : Z := 511.
End sce.

(** psp2/io: the file system is a value that each call takes and returns. *)
Class SceIo (FS : Type) : Type := {
  sceIoMkdir : FS → string → Z → Z * FS;
  sceIoOpen : FS → string → Z → Z → Z * FS;
  sceIoWrite : FS → Z → list byte → Z → Z * FS;
  sceIoClose : FS → Z → Z * FS
}.

(* ================================================================== *)
(** * Data model (lines 30-48) *)
(* ================================================================== *)

Record ZipEntry : Set := mk_entry {
  filename : string;
  uncompressed_size : Z;
  compressed_size : Z;
  is_directory : bool;
  path : string
}.

(** A [ZipArchiveHandle*]: an address, 0 for [nullptr]. *)
Definition ptr : Set := N.
Definition nullptr : ptr := 0%N.

(** A [std::vector<T>] seen at the level of its storage: the slots of the
    allocation and the number of them in use.  Iterators are positions in
    the storage; slots at [vsize] and later keep the value last stored
    there. *)
Module vector.
Record t (A : Type) : Type := mk { storage : list A; vsize : nat }.
Arguments mk {A} storage vsize.
Arguments storage {A} _.
Arguments vsize {A} _.

Definition empty {A} : t A := mk [] 0.

Definition elements {A} (v : t A) : list A := take (vsize v) (storage v).

Definition push_back {A} (x : A) (v : t A) : t A :=
  mk (elements v ++ x :: drop (S (vsize v)) (storage v)) (S (vsize v)).

(** [std::find(begin, end, x) - begin], [None] for [end]. *)
Fixpoint index_of `{EqDecision A} (x : A) (l : list A) : option nat :=
  match l with
  | [] => None
  | y :: l' => if decide (y = x) then Some 0%nat else S <$> index_of x l'
  end.

Definition find `{EqDecision A} (x : A) (v : t A) : option nat :=
  index_of x (elements v).

(** [erase(begin + k)]: the elements after [k] move one slot down, the
    size drops by one, the last used slot keeps its value. *)
Definition erase {A} (k : nat) (v : t A) : t A :=
  mk (take k (storage v) ++ drop (S k) (elements v)
        ++ drop (vsize v - 1) (storage v))
     (vsize v - 1).

Definition clear {A} (v : t A) : t A := mk (storage v) 0.
End vector.

Section Program.

Context {unzFile FS : Type} `{!Minizip unzFile} `{!SceIo FS}.

(** What a read of [archive->is_open] through a pointer to a deleted
    handle does: [false] makes it a fault; [true] lets it read the value
    the freed object still holds, which is [false], the flag having been
    cleared at line 125 before the [delete] of line 133. *)
Variable stale_reads : bool.

Record ZipArchiveHandle : Type := mk_handle {
  handle : option unzFile;
  archive_path : string;
  is_open : bool;
  entries : list ZipEntry
}.

(** The process: the live handle objects, the allocator, the registry
    (line 48), the function-local static of line 192, and the storage. *)
Record state : Type := mk_state {
  heap : gmap N ZipArchiveHandle;
  next_addr : N;
  g_open_archives : vector.t ptr;
  temp_counter : Z;
  fs : FS
}.

Inductive res (A : Type) : Type :=
  | Ret (a : A) (s : state)
  | Fault (f : fault) (s : state).
Arguments Ret {A} a s.
Arguments Fault {A} f s.

Definition zipM (A : Type) : Type := state → res A.

Definition ret {A} (a : A) : zipM A := λ s, Ret a s.
Definition bind {A B} (m : zipM A) (k : A → zipM B) : zipM B :=
  λ s, match m s with
       | Ret a s' => k a s'
       | Fault f s' => Fault f s'
       end.
Definition raise {A} (f : fault) : zipM A := λ s, Fault f s.
Definition get_state : zipM state := λ s, Ret s s.
Definition lift {A} (o : outcome A) : zipM A :=
  λ s, match o with Done a => Ret a s | Crash f => Fault f s end.

Notation "'let*' x := m 'in' k" := (bind m (λ x, k))
  (at level 10, x pattern, m at level 200, k at level 200,
   format "'[v' 'let*'  x  :=  m  'in' '/' k ']'").

Definition set_heap (h : gmap N ZipArchiveHandle) (s : state) : state :=
  mk_state h (next_addr s) (g_open_archives s) (temp_counter s) (fs s).
Definition set_registry (v : vector.t ptr) (s : state) : state :=
  mk_state (heap s) (next_addr s) v (temp_counter s) (fs s).
Definition set_counter (c : Z) (s : state) : state :=
  mk_state (heap s) (next_addr s) (g_open_archives s) c (fs s).
Definition set_fs (f : FS) (s : state) : state :=
  mk_state (heap s) (next_addr s) (g_open_archives s) (temp_counter s) f.

(** [archive->is_open] *)
Definition load_is_open (archive : ptr) : zipM bool :=
  λ s, match heap s !! archive with
       | Some h => Ret (is_open h) s
       | None => if stale_reads then Ret false s else Fault UseAfterFree s
       end.

(** [*archive], for the other members. *)
Definition load (archive : ptr) : zipM ZipArchiveHandle :=
  λ s, match heap s !! archive with
       | Some h => Ret h s
       | None => Fault UseAfterFree s
       end.

Definition store (archive : ptr) (h : ZipArchiveHandle) : zipM unit :=
  λ s, match heap s !! archive with
       | Some _ => Ret tt (set_heap (<[archive := h]> (heap s)) s)
       | None => Fault UseAfterFree s
       end.

(** [new ZipArchiveHandle()] *)
Definition new_handle (h : ZipArchiveHandle) : zipM ptr :=
  λ s, Ret (next_addr s)
           (mk_state (<[next_addr s := h]> (heap s)) (next_addr s + 1)%N
                     (g_open_archives s) (temp_counter s) (fs s)).

(** [delete archive] *)
Definition delete_handle (archive : ptr) : zipM unit :=
  λ s, Ret tt (set_heap (delete archive (heap s)) s).

(** A codec call on [archive->handle]; the session it leaves is stored
    back.  On a null session minizip answers [UNZ_PARAMERROR], which is
    what [null_answer] carries. *)
Definition on_session {A} (archive : ptr) (null_answer : A)
    (call : unzFile → A * unzFile) : zipM A :=
  let* h := load archive in
  match handle h with
  | None => ret null_answer
  | Some uf =>
      let '(a, uf') := call uf in
      let* _ := store archive
                  (mk_handle (Some uf') (archive_path h) (is_open h) (entries h)) in
      ret a
  end.

(* -------------------------------------------------------------- *)
(** ** Entry catalogue (lines 51-82) *)
(* -------------------------------------------------------------- *)

(** [char filename[MAX_FILENAME_LENGTH]] after the codec filled it:
    [strlen] finds the first NUL of the array, and runs off the array
    when there is none. *)
Fixpoint buffer_strlen (buf : string) : option nat :=
  match buf with
  | EmptyString => None
  | String c r => if Ascii.eqb c NUL then Some 0%nat else S <$> buffer_strlen r
  end.

(** [filename[i]] for an index of type [size_t]. *)
Definition buffer_get (buf : string) (i : Z) : option ascii :=
  if (0 <=? i) && (i <? Z.of_nat MAX_FILENAME_LENGTH)
  then String.get (Z.to_nat i) buf
  else None.

(** The index of line 75, [strlen(filename) - 1] in [size_t]. *)
Definition last_char_index (len : nat) : Z := to_size_t (Z.of_nat len - 1).

(** Lines 70-75: the entry built from the information and the name
    buffer the codec left. *)
Definition make_entry (info : unz.unz_file_info) (buf : string) : outcome ZipEntry :=
  match buffer_strlen buf with
  | None => Crash OutOfBounds
  | Some len =>
      let name := String.substring 0 len buf in
      match buffer_get buf (last_char_index len) with
      | None => Crash OutOfBounds
      | Some c =>
          Done (mk_entry name (unz.uncompressed_size info)
                         (unz.compressed_size info) (Ascii.eqb c "/") name)
      end
  end.

(** One pass of the body of the [do] loop (lines 62-77): [continue] on a
    failed metadata read leaves [entries] as it is. *)
Definition list_body (uf : unzFile) (entries : list ZipEntry) : outcome (list ZipEntry) :=
  let '(rc, info, buf) := unzGetCurrentFileInfo uf MAX_FILENAME_LENGTH in
  if rc =? unz.UNZ_OK then
    match make_entry info buf with
    | Done e => Done (entries ++ [e])
    | Crash f => Crash f
    end
  else Done entries.

(** The [do ... while (unzGoToNextFile(uf) == UNZ_OK)] loop; [continue]
    jumps to the condition, so the cursor moves on after a skipped entry
    too. *)
Fixpoint list_loop (fuel : nat) (uf : unzFile) (entries : list ZipEntry)
  : outcome (list ZipEntry * unzFile) :=
  match fuel with
  | O => Crash Diverges
  | S fuel' =>
      match list_body uf entries with
      | Crash f => Crash f
      | Done entries' =>
          let '(rc, uf') := unzGoToNextFile uf in
          if rc =? unz.UNZ_OK then list_loop fuel' uf' entries'
          else Done (entries', uf')
      end
  end.

(** Lines 51-82.  The only call (line 109) passes [archive->entries] for
    [entries], so the vector written is the handle's own. *)
Definition zip_list_contents_internal (archive : ptr) : zipM bool :=
  if decide (archive = nullptr) then ret false else
  let* opened := load_is_open archive in
  if negb opened then ret false else
  let* h := load archive in
  let* _ := store archive (mk_handle (handle h) (archive_path h) (is_open h) []) in
  match handle h with
  | None => ret false
  | Some uf =>
      let '(rc, uf0) := unzGoToFirstFile uf in
      if negb (rc =? unz.UNZ_OK) then
        let* _ := store archive (mk_handle (Some uf0) (archive_path h) (is_open h) []) in
        ret false
      else
        let* r := lift (list_loop (S (entries_left uf0)) uf0 []) in
        let* _ := store archive
                    (mk_handle (Some (snd r)) (archive_path h) (is_open h) (fst r)) in
        ret true
  end.

(* -------------------------------------------------------------- *)
(** ** Open and close (lines 93-134) *)
(* -------------------------------------------------------------- *)

Definition registry_push (archive : ptr) : zipM unit :=
  λ s, Ret tt (set_registry (vector.push_back archive (g_open_archives s)) s).

Definition registry_remove (archive : ptr) : zipM unit :=
  λ s, match vector.find archive (g_open_archives s) with
       | Some k => Ret tt (set_registry (vector.erase k (g_open_archives s)) s)
       | None => Ret tt s
       end.

(** Lines 93-115. *)
Definition zip_open_archive (archive_path : option string) : zipM ptr :=
  match archive_path with
  | None => ret nullptr
  | Some path =>
      if zip_is_archive (Some path) =? 0 then ret nullptr else
      match unzOpen path with
      | None => ret nullptr
      | Some uf =>
          let* archive := new_handle (mk_handle (Some uf) path true []) in
          let* _ := zip_list_contents_internal archive in
          let* _ := registry_push archive in
          ret archive
      end
  end.

(** Lines 117-134.  The session goes to [unzClose], whose result is
    dropped, and the member is nulled (lines 120-123); the object is
    deleted last. *)
Definition zip_close_archive (archive : ptr) : zipM unit :=
  if decide (archive = nullptr) then ret tt else
  let* opened := load_is_open archive in
  if negb opened then ret tt else
  let* h := load archive in
  let* _ := store archive (mk_handle None (archive_path h) false (entries h)) in
  let* _ := registry_remove archive in
  delete_handle archive.

(* -------------------------------------------------------------- *)
(** ** Bulk cleanup (lines 358-372) *)
(* -------------------------------------------------------------- *)

(** The range-for of lines 363-367: [__begin] and [__end] are taken once,
    before the first pass; each pass reads the slot under [__begin] in
    the storage as it is by then. *)
Fixpoint cleanup_loop (passes : nat) (position : nat) : zipM unit :=
  match passes with
  | O => ret tt
  | S passes' =>
      let* s := get_state in
      match vector.storage (g_open_archives s) !! position with
      | None => raise OutOfBounds
      | Some archive =>
          let* _ :=
            (if decide (archive = nullptr) then ret tt else
             let* opened := load_is_open archive in
             if opened then zip_close_archive archive else ret tt) in
          cleanup_loop passes' (S position)
      end
  end.

Definition zip_cleanup_temp_files : zipM unit :=
  let* s := get_state in
  let* _ := cleanup_loop (vector.vsize (g_open_archives s)) 0 in
  λ s', Ret tt (set_registry (vector.clear (g_open_archives s')) s').

(* -------------------------------------------------------------- *)
(** ** Extractor (lines 137-173, 348-351) *)
(* -------------------------------------------------------------- *)

(** A [char] array from [new char[n]]: a cell is [None] until a byte is
    stored in it. *)
Definition buffer : Set := list (option byte).

Definition new_char_array (n : Z) : buffer := replicate (Z.to_nat n) None.

(** The array after the codec stored [bytes] at its front. *)
Definition filled_with (bytes : list byte) (b : buffer) : buffer :=
  (Some <$> take (length b) bytes) ++ drop (length bytes) b.

Definition completely_filled (b : buffer) : Prop := Forall is_Some b.

(** [data] and [size] are the caller's pointers: [None] for a null
    pointer, [Some v] for a pointer to a cell that holds [v]; the cells
    come back with the result.  A [char*] cell holds [None] for
    [nullptr]. *)
Definition zip_extract_file_internal (archive : ptr) (filename : option string)
    (data : option (option buffer)) (size : option Z)
  : zipM (bool * option (option buffer) * option Z) :=
  if decide (archive = nullptr) then ret (false, data, size) else
  let* opened := load_is_open archive in
  if negb opened then ret (false, data, size) else
  match filename, data, size with
  | Some name, Some _, Some _ =>
      (* lines 143-144 *)
      let cleared := (false, Some None, Some 0) in
      let* rc := on_session archive unz.UNZ_PARAMERROR
                   (λ uf, unzLocateFile uf name 0) in
      if negb (rc =? unz.UNZ_OK) then ret cleared else
      let* (rc, file_info, _) :=
        on_session archive (unz.UNZ_PARAMERROR, unz.mk_info 0 0, EmptyString)
          (λ uf, (unzGetCurrentFileInfo uf 0, uf)) in
      if negb (rc =? unz.UNZ_OK) then ret cleared else
      let* rc := on_session archive unz.UNZ_PARAMERROR unzOpenCurrentFile in
      if negb (rc =? unz.UNZ_OK) then ret cleared else
      (* lines 159-160 *)
      let sz := to_long (unz.uncompressed_size file_info) in
      if sz <? 0 then raise BadArrayNewLength else
      let array := new_char_array sz in
      let* (bytes_read, bytes) :=
        on_session archive (unz.UNZ_PARAMERROR, [])
          (λ uf, let '(rc, bytes, uf') := unzReadCurrentFile uf sz in
                 ((rc, bytes), uf')) in
      let* _ := on_session archive unz.UNZ_PARAMERROR unzCloseCurrentFile in
      if negb (bytes_read =? sz) then ret cleared
      else ret (true, Some (Some (filled_with bytes array)), Some sz)
  | _, _, _ => ret (false, data, size)
  end.

Definition zip_extract_file (archive : ptr) (filename : option string)
    (data : option (option buffer)) (size : option Z)
  : zipM (Z * option (option buffer) * option Z) :=
  let* (result, data', size') :=
    zip_extract_file_internal archive filename data size in
  ret (if result : bool then 1 else 0, data', size').

(* -------------------------------------------------------------- *)
(** ** Scratch-file writer (lines 175-217) *)
(* -------------------------------------------------------------- *)

Definition zip_get_temp_dir : string := TEMP_DIR.

(** Lines 196-201. *)
Definition base_filename (filename : string) : string :=
  match strrchr filename "/" with
  | Some (String _ rest) => rest
  | Some EmptyString => EmptyString
  | None => filename
  end.

(** [std::to_string(int)] *)
Definition to_string (n : Z) : string := pretty n.

(** The bytes [sceIoWrite] is handed; a cell never stored to reads as an
    arbitrary byte, here 0. *)
Definition buffer_bytes (data : option buffer) : list byte :=
  match data with
  | Some b => default "000"%byte <$> b
  | None => []
  end.

(** [temp_counter++] of line 193. *)
Definition next_counter : zipM Z :=
  λ s, if temp_counter s <? INT_MAX
       then Ret (temp_counter s + 1) (set_counter (temp_counter s + 1) s)
       else Fault SignedOverflow s.

Definition on_fs {A} (call : FS → A * FS) : zipM A :=
  λ s, let '(a, f) := call (fs s) in Ret a (set_fs f s).

Definition scratch_path (counter : Z) (filename : string) : string :=
  zip_get_temp_dir +:+ "temp_" +:+ to_string counter +:+ "_" +:+ base_filename filename.

Definition open_flags : Z :=
  Z.lor (Z.lor sce.SCE_O_WRONLY sce.SCE_O_CREAT) sce.SCE_O_TRUNC.

(** [temp_path] is the caller's [std::string&]; it comes back with the
    result. *)
Definition zip_extract_file_to_temp_internal (archive : ptr)
    (filename : option string) (temp_path : string) : zipM (bool * string) :=
  (* lines 180-185: the two locals and the call on their addresses *)
  let* (extracted, data_cell, size_cell) :=
    zip_extract_file_internal archive filename (Some None) (Some 0) in
  let data := default None data_cell in
  let size := default 0 size_cell in
  if negb extracted then ret (false, temp_path) else
  let temp_dir := zip_get_temp_dir in
  let* _ := on_fs (λ f, sceIoMkdir f temp_dir sce.mode_0777) in
  let* counter := next_counter in
  match filename with
  | None => raise NullPointer
  | Some name =>
      let temp_path := scratch_path counter name in
      let* fd := on_fs (λ f, sceIoOpen f temp_path open_flags sce.mode_0777) in
      if fd <? 0 then ret (false, temp_path) else
      let* bytes_written := on_fs (λ f, sceIoWrite f fd (buffer_bytes data) size) in
      let* _ := on_fs (λ f, sceIoClose f fd) in
      ret (bytes_written =? size, temp_path)
  end.

(* -------------------------------------------------------------- *)
(** ** ROM locator (lines 252-321) *)
(* -------------------------------------------------------------- *)

Definition supported_exts : list string :=
  [".prg"; ".p00"; ".t64"; ".tap"; ".d64"; ".d71"; ".d81";
   ".x64"; ".g64"; ".crt"; ".bin"; ".rom"].

(** The loop of lines 264-268 and of lines 287-292. *)
Definition matches_any (ext : string) (exts : list string) : bool :=
  existsb (λ x, strcasecmp_custom ext x =? 0) exts.

Definition zip_is_supported_extension_internal (filename : option string) : bool :=
  match filename with
  | None => false
  | Some name =>
      match strrchr name "." with
      | None => false
      | Some ext => matches_any ext supported_exts
      end
  end.

(** The loop of lines 279-300 over the catalogue; [Some name] is the
    [return true] with [rom_filename = name]. *)
Fixpoint find_rom_loop (catalogue : list ZipEntry)
    (supported_extensions : option (list string)) : option string :=
  match catalogue with
  | [] => None
  | entry :: rest =>
      if is_directory entry then find_rom_loop rest supported_extensions else
      match strrchr (filename entry) "." with
      | None => find_rom_loop rest supported_extensions
      | Some ext =>
          let hit :=
            match supported_extensions with
            | Some exts => matches_any ext exts
            | None => zip_is_supported_extension_internal (Some (filename entry))
            end in
          if hit then Some (filename entry)
          else find_rom_loop rest supported_extensions
      end
  end.

(** Lines 273-303; [rom_filename] is the caller's [std::string&]. *)
Definition zip_find_rom_in_archive (archive : ptr)
    (supported_extensions : option (list string)) (rom_filename : string)
  : zipM (bool * string) :=
  if decide (archive = nullptr) then ret (false, rom_filename) else
  let* opened := load_is_open archive in
  if negb opened then ret (false, rom_filename) else
  let* h := load archive in
  match find_rom_loop (entries h) supported_extensions with
  | Some name => ret (true, name)
  | None => ret (false, rom_filename)
  end.

(** Lines 305-321. *)
Definition zip_extract_rom_to_temp (zip_path : option string)
    (supported_extensions : option (list string)) (temp_rom_path : string)
  : zipM (bool * string) :=
  let* archive := zip_open_archive zip_path in
  if decide (archive = nullptr) then ret (false, temp_rom_path) else
  let* (found, rom_filename) :=
    zip_find_rom_in_archive archive supported_extensions EmptyString in
  if negb found then
    let* _ := zip_close_archive archive in
    ret (false, temp_rom_path)
  else
    let* (success, temp_rom_path') :=
      zip_extract_file_to_temp_internal archive (Some rom_filename) temp_rom_path in
    let* _ := zip_close_archive archive in
    ret (success, temp_rom_path').

(* -------------------------------------------------------------- *)
(** ** C wrappers (lines 324-383) *)
(* -------------------------------------------------------------- *)

(** Does a [std::string] of this length pass the test
    [length() < buffer_size] ([size_t] on both sides)? *)
Definition fits (s : string) (buffer_size : N) : bool :=
  (N.of_nat (String.length s) <? buffer_size)%N.

(** [temp_path] is the content of the caller's character buffer; it comes
    back with the result, overwritten by [strcpy] on success only. *)
Definition zip_extract_file_to_temp_c (archive : ptr) (filename : option string)
    (temp_path : string) (buffer_size : N) : zipM (Z * string) :=
  let* (result, temp_path_str) :=
    zip_extract_file_to_temp_internal archive filename EmptyString in
  if result && fits temp_path_str buffer_size
  then ret (1, temp_path_str)
  else ret (0, temp_path).

Definition zip_extract_rom_to_temp_c (zip_path : option string)
    (supported_extensions : option (list string))
    (temp_rom_path : string) (buffer_size : N) : zipM (Z * string) :=
  let* (result, temp_path_str) :=
    zip_extract_rom_to_temp zip_path supported_extensions EmptyString in
  if result && fits temp_path_str buffer_size
  then ret (1, temp_path_str)
  else ret (0, temp_rom_path).

(** Lines 379-383: [entries] is what the caller's [void*] points to,
    [None] for a null pointer; it comes back with the result. *)
Definition zip_list_contents {A : Type} (archive : ptr) (entries : option A)
  : zipM (Z * option A) :=
  ret (1, entries).

(* -------------------------------------------------------------- *)
(** ** Catalogue lookup and the remaining wrappers *)
(* -------------------------------------------------------------- *)

(** The loop of lines 224-228; [entry.filename == filename] compares the
    characters of the two strings. *)
Fixpoint exists_loop (catalogue : list ZipEntry) (name : string) : bool :=
  match catalogue with
  | [] => false
  | entry :: rest =>
      if String.eqb (filename entry) name && negb (is_directory entry) then true
      else exists_loop rest name
  end.

(** Lines 219-231. *)
Definition zip_file_exists_internal (archive : ptr) (filename : option string)
  : zipM bool :=
  if decide (archive = nullptr) then ret false else
  let* opened := load_is_open archive in
  if negb opened then ret false else
  match filename with
  | None => ret false
  | Some name =>
      let* h := load archive in
      ret (exists_loop (entries h) name)
  end.

(** Lines 353-356. *)
Definition zip_file_exists (archive : ptr) (filename : option string) : zipM Z :=
  let* result := zip_file_exists_internal archive filename in
  ret (if result : bool then 1 else 0).

(** Lines 374-377. *)
Definition zip_is_supported_extension (filename : option string) : Z :=
  if zip_is_supported_extension_internal filename then 1 else 0.

(** The loop of lines 240-242. *)
Fixpoint slashes (s : string) : string :=
  match s with
  | EmptyString => EmptyString
  | String c r => String (if Ascii.eqb c "\" then "/"%char else c) (slashes r)
  end.

(** Lines 235-250. *)
Definition zip_normalize_path (path : option string) : string :=
  match path with
  | None => EmptyString
  | Some p =>
      let normalized := slashes p in
      match normalized with
      | String c rest => if Ascii.eqb c "/" then rest else normalized
      | EmptyString => normalized
      end
  end.

End Program.

Arguments ZipArchiveHandle : clear implicits.
Arguments state : clear implicits.
Arguments res : clear implicits.
Arguments zipM : clear implicits.
Arguments Ret {unzFile FS A} a s.
Arguments Fault {unzFile FS A} f s.

(* ================================================================== *)
(** * The properties, in the words of the specification *)
(* ================================================================== *)

Section Specification.

Context {unzFile FS : Type} `{!Minizip unzFile} `{!SceIo FS}.

(** The extension list a search uses: the caller's, else the default. *)
Definition wanted_list (supported_extensions : option (list string)) : list string :=
  default supported_exts supported_extensions.

(** An entry qualifies for a list when it is not a directory and its
    ['.']-delimited suffix equals, case ignored, some element of the
    list. *)
Definition qualifies (exts : list string) (e : ZipEntry) : Prop :=
  is_directory e = false ∧
  ∃ ext x, dot_suffix (filename e) ext ∧ x ∈ exts ∧ eq_nocase ext x.

(** The positions the cursor takes from [uf] on, one per entry, until an
    advance fails. *)
Fixpoint cursor_walk (fuel : nat) (uf : unzFile) : list unzFile :=
  match fuel with
  | O => []
  | S fuel' =>
      uf :: (let '(rc, uf') := unzGoToNextFile uf in
             if rc =? unz.UNZ_OK then cursor_walk fuel' uf' else [])
  end.

Definition positions (uf0 : unzFile) : list unzFile :=
  cursor_walk (S (entries_left uf0)) uf0.

(** Is the metadata of the entry under the cursor readable? *)
Definition metadata_readable (u : unzFile) : bool :=
  (unzGetCurrentFileInfo u MAX_FILENAME_LENGTH).1.1 =? unz.UNZ_OK.

(** The catalogue entry of the entry under the cursor. *)
Definition entry_at (u : unzFile) : outcome ZipEntry :=
  let '(_, info, buf) := unzGetCurrentFileInfo u MAX_FILENAME_LENGTH in
  make_entry info buf.

Fixpoint collect {A} (l : list (outcome A)) : outcome (list A) :=
  match l with
  | [] => Done []
  | Crash f :: _ => Crash f
  | Done a :: l' =>
      match collect l' with
      | Done r => Done (a :: r)
      | Crash f => Crash f
      end
  end.

(** The catalogue of a list of cursor positions: the entries of those
    whose metadata can be read, in order. *)
Definition catalogue_of (ps : list unzFile) : outcome (list ZipEntry) :=
  collect (entry_at <$> filter (λ u, metadata_readable u = true) ps).

(** What the codec answers when asked for the entry [name] on the session
    [uf]: nothing when the entry cannot be located, described or opened;
    else its file information, the count the read returns when asked for
    the declared uncompressed size, and the bytes the read stores. *)
Definition codec_read (uf : unzFile) (name : string)
  : option (unz.unz_file_info * Z * list byte) :=
  let '(rc1, uf1) := unzLocateFile uf name 0 in
  let '(rc2, info, _) := unzGetCurrentFileInfo uf1 0 in
  let '(rc3, uf2) := unzOpenCurrentFile uf1 in
  let '(count, bytes, _) :=
    unzReadCurrentFile uf2 (to_long (unz.uncompressed_size info)) in
  if (rc1 =? unz.UNZ_OK) && (rc2 =? unz.UNZ_OK) && (rc3 =? unz.UNZ_OK)
  then Some (info, count, bytes)
  else None.

(** The call was let through by the argument test of line 138. *)
Definition arguments_pass (h : option (ZipArchiveHandle unzFile)) (archive : ptr)
    {A B C} (filename : option A) (data : option B) (size : option C) : Prop :=
  archive ≠ nullptr ∧ (is_open <$> h) = Some true ∧
  is_Some filename ∧ is_Some data ∧ is_Some size.

(** The outcome of an extraction to a buffer as the specification words
    it: a failure with [*data] null and [*size] 0, or a success with a
    buffer of the size reported, every cell of it stored to. *)
Definition extraction_as_claimed
    (r : res unzFile FS (Z * option (option buffer) * option Z)) : Prop :=
  match r with
  | Ret (rc, data, size) _ =>
      (rc = 0 ∧ data = Some None ∧ size = Some 0)
      ∨ (rc = 1 ∧ ∃ buf n, data = Some (Some buf) ∧ size = Some n ∧
                           Z.of_nat (length buf) = n ∧ completely_filled buf)
  | Fault _ _ => False
  end.

(** Two states that differ in the handle objects only. *)
Definition same_but_heap (s s' : state unzFile FS) : Prop :=
  next_addr s' = next_addr s ∧ g_open_archives s' = g_open_archives s ∧
  temp_counter s' = temp_counter s ∧ fs s' = fs s.

(** [base] is [name] without its directory prefix, the prefix being all
    up to the last ['/']. *)
Definition stripped (name base : string) : Prop :=
  has_char "/" base = false ∧
  (name = base ∨ ∃ dir, name = dir +:+ "/" +:+ base).

(** The scratch directory was made, the file [p] was created or
    truncated, all of [bytes] were written to it and it was closed;
    [f'] is the storage after that. *)
Definition file_written (f : FS) (p : string) (bytes : list byte) (f' : FS) : Prop :=
  ∃ fd f1 f2 f3,
    (sceIoMkdir f TEMP_DIR sce.mode_0777).2 = f1 ∧
    sceIoOpen f1 p open_flags sce.mode_0777 = (fd, f2) ∧ 0 ≤ fd ∧
    sceIoWrite f2 fd bytes (Z.of_nat (length bytes)) = (Z.of_nat (length bytes), f3) ∧
    (sceIoClose f3 fd).2 = f'.

(** The registry and the heap agree: the registry lists every live handle
    once and nothing else; every live handle is open, is not at the null
    address and lies below the next address the allocator gives out. *)
Definition registry_tracks_handles (s : state unzFile FS) : Prop :=
  (vector.vsize (g_open_archives s) ≤ length (vector.storage (g_open_archives s)))%nat ∧
  NoDup (vector.elements (g_open_archives s)) ∧
  (∀ p, p ∈ vector.elements (g_open_archives s) ↔ is_Some (heap s !! p)) ∧
  (∀ p h, heap s !! p = Some h →
          is_open h = true ∧ p ≠ nullptr ∧ (p < next_addr s)%N) ∧
  next_addr s ≠ nullptr.

(** A catalogue entry as the listing builds them: the name is a C string,
    not empty and shorter than the name buffer, the path repeats it, and
    the directory flag says whether the name ends in ['/']. *)
Definition entry_well_formed (e : ZipEntry) : Prop :=
  is_cstring (filename e) = true ∧
  (0 < String.length (filename e) < MAX_FILENAME_LENGTH)%nat ∧
  path e = filename e ∧
  (is_directory e = true ↔ ∃ front, filename e = front +:+ "/").

(** Some entry of the catalogue has exactly this name and is not a
    directory. *)
Definition listed_file (catalogue : list ZipEntry) (name : string) : Prop :=
  ∃ e, e ∈ catalogue ∧ filename e = name ∧ is_directory e = false.

(** From [s] to [s'] nothing happened to the handles except, at most, a
    new content for the handle at [archive], which stays open or closed as
    it was; the registry and the allocator are the same. *)
Definition only_handle_changed (archive : ptr) (s s' : state unzFile FS) : Prop :=
  next_addr s' = next_addr s ∧ g_open_archives s' = g_open_archives s ∧
  (heap s' = heap s
   ∨ ∃ h h', heap s !! archive = Some h ∧ heap s' = <[archive := h']> (heap s) ∧
             is_open h' = is_open h).

(** From [s] to [s'] the registry is the same, every handle other than
    the one at [archive] is untouched, and that one is live and open in
    [s'] exactly if it was in [s]. *)
Definition others_untouched (archive : ptr) (s s' : state unzFile FS) : Prop :=
  g_open_archives s' = g_open_archives s ∧
  (∀ q, q ≠ archive → heap s' !! q = heap s !! q) ∧
  (is_open <$> heap s' !! archive) = (is_open <$> heap s !! archive).

(** The name buffer holds no name the listing can use: it has no
    terminator, or the terminator comes first. *)
Definition unusable_name (buf : string) : Prop :=
  has_char NUL buf = false ∨ String.get 0 buf = Some NUL.

(** The read of the directory flag as the specification words it, for the
    entry under the cursor [uf] when its metadata can be read: in bounds
    whenever the name the codec yields is not empty, out of bounds when
    it is empty. *)
Definition flag_read_as_claimed (uf : unzFile) : Prop :=
  ∀ info buf,
    unzGetCurrentFileInfo uf MAX_FILENAME_LENGTH = (unz.UNZ_OK, info, buf) →
    (String.get 0 buf ≠ Some NUL → ∃ e, list_body uf [] = Done [e]) ∧
    (String.get 0 buf = Some NUL → list_body uf [] = Crash OutOfBounds).

(** The text of [s] from its [n]-th character on. *)
Fixpoint string_drop (n : nat) (s : string) : string :=
  match n, s with
  | O, _ => s
  | S n', String _ r => string_drop n' r
  | S _, EmptyString => EmptyString
  end.

(** The text of [s] before the first [c] in it. *)
Fixpoint up_to (c : ascii) (s : string) : string :=
  match s with
  | EmptyString => EmptyString
  | String a r => if Ascii.eqb a c then EmptyString else String a (up_to c r)
  end.

(** The counter field of a scratch path: what stands between the prefix
    [TEMP_DIR ++ "temp_"] and the first ['_'] after it. *)
Definition counter_field (p : string) : string :=
  up_to "_" (string_drop (String.length (TEMP_DIR +:+ "temp_")) p).

(** A handle without its codec session: what the catalogue functions
    read of it. *)
Definition without_session (h : ZipArchiveHandle unzFile) : ZipArchiveHandle unzFile :=
  mk_handle None (archive_path h) (is_open h) (entries h).

(** From [s] to [s'] no handle was made or deleted, and no handle changed
    in anything but its codec session. *)
Definition sessions_moved (s s' : state unzFile FS) : Prop :=
  ∀ p, without_session <$> heap s' !! p = without_session <$> heap s !! p.

(** What a run gives back, the state it leaves apart. *)
Definition answer {A} (r : res unzFile FS A) : fault + A :=
  match r with
  | Ret a _ => inr a
  | Fault f _ => inl f
  end.

(** The registry slots of even index: the first, the third, and so on. *)
Fixpoint every_other (l : list ptr) : list ptr :=
  match l with
  | [] => []
  | a :: l' => a :: match l' with [] => [] | _ :: r => every_other r end
  end.

End Specification.

(* ================================================================== *)
(** * Two executable collaborators, for running the program *)
(* ================================================================== *)

(** A codec over archives held in memory.  An entry of the central
    directory carries, besides its name, sizes and content, what makes the
    codec fail on it. *)
Module Fixture.

Record stored : Set := mk_stored {
  name : string;
  unreadable : bool;        (* its metadata cannot be read *)
  declared_size : N;        (* the uncompressed size its header declares *)
  packed_size : N;
  locked : bool;            (* it cannot be opened for reading *)
  payload : list byte       (* the bytes that decompress from it *)
}.

Record session : Set := mk_session {
  directory : list stored;
  cursor : nat
}.

Definition UNZ_BADZIPFILE : Z := -103.

(** What minizip leaves in a name buffer of [n] bytes: the name and its
    terminator when the name is shorter than the buffer, else the first
    [n] characters and no terminator.  Cells it does not store to keep
    what the stack held, here ['#']. *)
Definition garbage (n : nat) : string := string_of_list_ascii (replicate n "#"%char).

Fixpoint fill_name (n : nat) (name : string) : string :=
  match n with
  | O => EmptyString
  | S n' =>
      match name with
      | String c r => String c (fill_name n' r)
      | EmptyString => String NUL (garbage n')
      end
  end.

Definition current (s : session) : option stored := directory s !! cursor s.

Definition go_to_first (s : session) : Z * session :=
  match directory s with
  | [] => (unz.UNZ_END_OF_LIST_OF_FILE, s)
  | _ => (unz.UNZ_OK, mk_session (directory s) 0)
  end.

Definition go_to_next (s : session) : Z * session :=
  if decide (S (cursor s) < length (directory s))%nat
  then (unz.UNZ_OK, mk_session (directory s) (S (cursor s)))
  else (unz.UNZ_END_OF_LIST_OF_FILE, s).

Definition get_info (s : session) (n : nat) : Z * unz.unz_file_info * string :=
  match current s with
  | Some e =>
      if unreadable e then (UNZ_BADZIPFILE, unz.mk_info 0 0, garbage n)
      else (unz.UNZ_OK,
            unz.mk_info (to_size_t (Z.of_N (declared_size e)))
                        (to_size_t (Z.of_N (packed_size e))),
            fill_name n (name e))
  | None => (unz.UNZ_PARAMERROR, unz.mk_info 0 0, garbage n)
  end.

Fixpoint position (wanted : string) (l : list stored) : option nat :=
  match l with
  | [] => None
  | e :: l' => if decide (name e = wanted) then Some 0%nat
               else S <$> position wanted l'
  end.

Definition locate (s : session) (wanted : string) (case : Z) : Z * session :=
  match position wanted (directory s) with
  | Some k => (unz.UNZ_OK, mk_session (directory s) k)
  | None => (unz.UNZ_END_OF_LIST_OF_FILE, s)
  end.

Definition open_current (s : session) : Z * session :=
  match current s with
  | Some e => (if locked e then UNZ_BADZIPFILE else unz.UNZ_OK, s)
  | None => (unz.UNZ_PARAMERROR, s)
  end.

Definition read_current (s : session) (len : Z) : Z * list byte * session :=
  match current s with
  | Some e =>
      let bytes := take (Z.to_nat len) (payload e) in
      (Z.of_nat (length bytes), bytes, s)
  | None => (unz.UNZ_PARAMERROR, [], s)
  end.

Definition close_current (s : session) : Z * session := (unz.UNZ_OK, s).

Definition left (s : session) : nat := length (directory s) - cursor s.

End Fixture.

(** A file system held in memory. *)
Module MemFs.

Record t : Type := mk {
  files : gmap string (list byte);
  descriptors : gmap Z string;
  next_fd : Z;
  read_only : bool
}.

Definition empty : t := mk ∅ ∅ 3 false.

Definition mkdir (f : t) (dir : string) (mode : Z) : Z * t := (0, f).

(** An open that creates or truncates. *)
Definition open (f : t) (path : string) (flags mode : Z) : Z * t :=
  if read_only f then (-1, f)
  else (next_fd f,
        mk (<[path := []]> (files f)) (<[next_fd f := path]> (descriptors f))
           (next_fd f + 1) (read_only f)).

Definition write (f : t) (fd : Z) (data : list byte) (size : Z) : Z * t :=
  match descriptors f !! fd with
  | Some path =>
      let bytes := take (Z.to_nat size) data in
      (Z.of_nat (length bytes),
       mk (alter (λ old, old ++ bytes) path (files f)) (descriptors f)
          (next_fd f) (read_only f))
  | None => (-1, f)
  end.

Definition close (f : t) (fd : Z) : Z * t :=
  (0, mk (files f) (delete fd (descriptors f)) (next_fd f) (read_only f)).

End MemFs.

#[export] Instance MemFs_SceIo : SceIo MemFs.t :=
  {| sceIoMkdir := MemFs.mkdir;
     sceIoOpen := MemFs.open;
     sceIoWrite := MemFs.write;
     sceIoClose := MemFs.close |}.

(** The codec over a disk that maps a path to the central directory of the
    archive stored there. *)
#[export, refine] Instance Fixture_Minizip (disk : string → option (list Fixture.stored))
  : Minizip Fixture.session :=
  {| unzOpen path := (λ d, Fixture.mk_session d 0) <$> disk path;
     unzClose _ := unz.UNZ_OK;
     unzGoToFirstFile := Fixture.go_to_first;
     unzGoToNextFile := Fixture.go_to_next;
     unzGetCurrentFileInfo := Fixture.get_info;
     unzLocateFile := Fixture.locate;
     unzOpenCurrentFile := Fixture.open_current;
     unzReadCurrentFile := Fixture.read_current;
     unzCloseCurrentFile := Fixture.close_current;
     entries_left := Fixture.left |}.
Proof.
  - intros uf uf'. unfold Fixture.go_to_next, Fixture.left.
    destruct (decide _) as [Hlt|]; [|discriminate].
    intros [= <-]. simpl. lia.
  - assert (Hg : ∀ n, String.length (Fixture.garbage n) = n).
    { unfold Fixture.garbage. induction n as [|n IH]; simpl; congruence. }
    assert (Hf : ∀ n s, String.length (Fixture.fill_name n s) = n).
    { induction n as [|n IH]; intros [|c r]; simpl; try done.
      - by rewrite (Hg n).
      - by rewrite IH. }
    intros uf n rc info buf. unfold Fixture.get_info.
    destruct (Fixture.current uf) as [e|]; [destruct (Fixture.unreadable e)|];
      intros [= <- <- <-]; auto.
  - intros uf n rc info buf. unfold Fixture.get_info.
    destruct (Fixture.current uf) as [e|]; [destruct (Fixture.unreadable e)|];
      intros [= <- <- <-]; simpl; try lia.
    unfold to_size_t. apply Z.mod_pos_bound. lia.
  - intros uf len rc bytes uf'. unfold Fixture.read_current.
    destruct (Fixture.current uf) as [e|]; intros [= <- <- <-]; simpl.
    + rewrite length_take. split; lia.
    + unfold unz.UNZ_PARAMERROR. split; lia.
Defined.

(** A disk with three archives, and the process at its start. *)
Module Demo.

Definition rom (name : string) (content : list byte) : Fixture.stored :=
  Fixture.mk_stored name false (N.of_nat (length content)) (N.of_nat (length content))
                    false content.

Definition folder (name : string) : Fixture.stored :=
  Fixture.mk_stored name false 0 0 false [].

Definition damaged (name : string) : Fixture.stored :=
  Fixture.mk_stored name true 0 0 false [].

Definition disk (p : string) : option (list Fixture.stored) :=
  if decide (p = "ux0:a.zip") then
    Some [folder "data/"; rom "data/game.d64" ["G"; "A"; "M"; "E"]%byte;
          rom "data/game.crt" ["C"; "R"; "T"]%byte]
  else if decide (p = "ux0:b.zip") then
    Some [rom "first.prg" ["1"]%byte; damaged "second.prg"; rom "third.prg" ["3"]%byte]
  else if decide (p = "ux0:c.ZIP") then
    Some [rom "readme.txt" ["r"]%byte]
  else if decide (p = "ux0:d.zip") then
    Some [rom EmptyString ["?"]%byte]
  else if decide (p = "ux0:e.zip") then
    Some [Fixture.mk_stored "cut.prg" false 10 10 false ["c"; "u"; "t"]%byte]
  else None.

#[export] Instance codec : Minizip Fixture.session := Fixture_Minizip disk.

Definition process : Type := state Fixture.session MemFs.t.

Definition start : process := mk_state ∅ 1%N vector.empty 0 MemFs.empty.

(** The state a run leaves, [start] when it faults. *)
Definition after {A} (r : res Fixture.session MemFs.t A) : process :=
  match r with Ret _ s => s | Fault _ s => s end.

(** The process after one archive was opened: handle 1. *)
Definition opened (path : string) : process :=
  after (zip_open_archive false (Some path) start).

(** The handle object at an address. *)
Definition handle_at (s : process) (p : ptr) : ZipArchiveHandle Fixture.session :=
  default (mk_handle None EmptyString false []) (heap s !! p).

(** The cursor of an archive on its [k]-th entry. *)
Definition at_entry (path : string) (k : nat) : Fixture.session :=
  Fixture.mk_session (default [] (disk path)) k.

(** One scratch extraction of [data/game.d64] from [ux0:a.zip], and the
    process it leaves. *)
Definition first_extraction : res Fixture.session MemFs.t (bool * string) :=
  zip_extract_file_to_temp_internal false 1%N (Some "data/game.d64") EmptyString
    (opened "ux0:a.zip").

Definition second_extraction : res Fixture.session MemFs.t (bool * string) :=
  zip_extract_file_to_temp_internal false 1%N (Some "data/game.d64") EmptyString
    (after first_extraction).

(** Three archives opened in a row: handles 1, 2 and 3. *)
Definition three_open (stale_reads : bool) : process :=
  after (zip_open_archive stale_reads (Some "ux0:c.ZIP")
    (after (zip_open_archive stale_reads (Some "ux0:b.zip")
      (after (zip_open_archive stale_reads (Some "ux0:a.zip") start))))).

Definition two_open (stale_reads : bool) : process :=
  after (zip_open_archive stale_reads (Some "ux0:b.zip")
    (after (zip_open_archive stale_reads (Some "ux0:a.zip") start))).

(** The process with [ux0:a.zip] open, on a storage that creates no
    file. *)
Definition on_read_only_card : process :=
  let s := opened "ux0:a.zip" in
  mk_state (heap s) (next_addr s) (g_open_archives s) (temp_counter s)
           (MemFs.mk ∅ ∅ 3 true).

(** The process with [ux0:a.zip] open and then closed. *)
Definition closed : process :=
  after (zip_close_archive false 1%N (opened "ux0:a.zip")).

(** Another disk: an archive with an empty central directory, one whose
    only entry has a name as long as the name buffer, and one whose only
    entry declares 2^31 bytes. *)
Definition blank_disk (p : string) : option (list Fixture.stored) :=
  if decide (p = "ux0:blank.zip") then Some []
  else if decide (p = "ux0:long.zip") then
    Some [rom (string_of_list_ascii (replicate MAX_FILENAME_LENGTH "a"%char))
              ["l"]%byte]
  else if decide (p = "ux0:huge.zip") then
    Some [Fixture.mk_stored "huge.bin" false 2147483648 10 false ["h"]%byte]
  else None.

Definition blank_codec : Minizip Fixture.session := Fixture_Minizip blank_disk.

End Demo.

(* ================================================================== *)
(** * Facts about C strings and the extension matcher *)
(* ================================================================== *)

Lemma char_val_inj a b : char_val a = char_val b → a = b.
Proof.
  unfold char_val. intros H%N2Z.inj.
  rewrite <- (ascii_N_embedding a), <- (ascii_N_embedding b). by f_equal.
Qed.

Lemma fold_char_dot c : fold_char c = "."%char → c = "."%char.
Proof. destruct c as [[] [] [] [] [] [] [] []]; vm_compute; congruence. Qed.

Lemma is_cstring_cons c r :
  is_cstring (String c r) = true ↔ c ≠ NUL ∧ is_cstring r = true.
Proof.
  simpl. rewrite andb_true_iff, negb_true_iff. split.
  - intros [Hc Hr]. split; [|done]. intros ->. by rewrite Ascii.eqb_refl in Hc.
  - intros [Hc Hr]. split; [|done]. by apply Ascii.eqb_neq.
Qed.

Lemma is_cstring_app a b :
  is_cstring (a +:+ b) = is_cstring a && is_cstring b.
Proof. induction a as [|c a IH]; simpl; [done|]. by rewrite IH, andb_assoc. Qed.

(** Lines 17-25 return 0 exactly on strings that are equal once folded. *)
Lemma strcasecmp_custom_zero s1 s2 :
  is_cstring s1 = true → is_cstring s2 = true →
  strcasecmp_custom s1 s2 = 0 ↔ eq_nocase s1 s2.
Proof.
  unfold eq_nocase. revert s2.
  induction s1 as [|a1 r1 IH]; intros [|a2 r2] H1 H2; simpl.
  - done.
  - apply is_cstring_cons in H2 as [Hc _]. split; [|done].
    intros H. destruct Hc. apply char_val_inj.
    change (char_val NUL) with 0 in *. lia.
  - apply is_cstring_cons in H1 as [Hc _]. split; [|done].
    intros H. destruct Hc. apply char_val_inj.
    change (char_val NUL) with 0 in *. lia.
  - apply is_cstring_cons in H1 as [_ H1]. apply is_cstring_cons in H2 as [_ H2].
    destruct (Ascii.eqb (fold_char a1) (fold_char a2)) eqn:E; simpl.
    + apply Ascii.eqb_eq in E. rewrite E, (IH r2 H1 H2).
      split; [by intros ->|by intros [= ->]].
    + apply Ascii.eqb_neq in E. split.
      * intros H. destruct E. apply char_val_inj. lia.
      * by intros [= ? _].
Qed.

Lemma strrchr_None s c : strrchr s c = None ↔ has_char c s = false.
Proof.
  induction s as [|a r IH]; simpl; [done|].
  destruct (strrchr r c) as [t|].
  - split; [done|]. rewrite orb_false_iff. intros [_ H]. by apply IH in H.
  - destruct (Ascii.eqb a c); simpl; [done|]. by rewrite <- IH.
Qed.

(** [strrchr] returns the part of the string from the last [c] on. *)
Lemma strrchr_Some s c t :
  strrchr s c = Some t →
  ∃ front rest, s = front +:+ t ∧ t = String c rest ∧ has_char c rest = false.
Proof.
  induction s as [|a r IH]; simpl; [done|].
  destruct (strrchr r c) as [t'|] eqn:E.
  - intros [= ->]. destruct (IH eq_refl) as (front & rest & -> & -> & Hno).
    by exists (String a front), rest.
  - destruct (Ascii.eqb a c) eqn:Ea; [|done].
    apply Ascii.eqb_eq in Ea as ->. intros [= <-].
    exists EmptyString, r. by rewrite <- strrchr_None.
Qed.

Lemma strrchr_app front c rest :
  has_char c rest = false →
  strrchr (front +:+ String c rest) c = Some (String c rest).
Proof.
  intros Hno. induction front as [|a front IH]; simpl.
  - apply strrchr_None in Hno as ->. by rewrite Ascii.eqb_refl.
  - simpl in IH. by rewrite IH.
Qed.

(** The container test is the specification's: the name ends in [".zip"],
    case ignored. *)
Lemma zip_is_archive_spec name :
  is_cstring name = true →
  zip_is_archive (Some name) = (if decide (zip_is_archive (Some name) = 1) then 1 else 0)
  ∧ (zip_is_archive (Some name) = 1 ↔ ends_with_nocase name ".zip").
Proof.
  intros Hc. split.
  { unfold zip_is_archive. destruct (strrchr name "."); [|done].
    by destruct (_ =? 0). }
  unfold zip_is_archive. split.
  - destruct (strrchr name ".") as [ext|] eqn:E; [|done].
    apply strrchr_Some in E as (front & rest & -> & Hext & _).
    rewrite is_cstring_app in Hc. apply andb_true_iff in Hc as [_ Hc].
    destruct (_ =? 0) eqn:E0; [|done]. intros _.
    exists front, ext. split; [done|].
    apply strcasecmp_custom_zero; [done..|lia].
  - intros (front & back & -> & Heq).
    rewrite is_cstring_app in Hc. apply andb_true_iff in Hc as [_ Hc].
    assert (Hz : strcasecmp_custom back ".zip" = 0)
      by (by apply strcasecmp_custom_zero).
    destruct back as [|d [|z [|i [|p [|]]]]]; try discriminate Heq.
    injection Heq as Hd Hz' Hi Hp.
    apply fold_char_dot in Hd as ->.
    rewrite strrchr_app.
    + by rewrite Hz.
    + simpl. rewrite !orb_false_r.
      apply orb_false_iff; split; [|apply orb_false_iff; split];
        apply Ascii.eqb_neq; intros ->; discriminate.
Qed.

(* ================================================================== *)
(** * The archive layer *)
(* ================================================================== *)

Section Correctness.

Context {unzFile FS : Type} `{!Minizip unzFile} `{!SceIo FS}.
Variable stale_reads : bool.

Implicit Types (s : state unzFile FS) (h : ZipArchiveHandle unzFile).
Implicit Types (archive : ptr).

(* -------------------------------------------------------------- *)
(** ** Open *)
(* -------------------------------------------------------------- *)

(** C4.  A path that is null, or whose name does not end in [".zip"]
    (case ignored), gets no handle from [zip_open_archive], and the
    process is left as it was.  Names without a ['.'], and the empty
    name, are among them. *)
Theorem zip_open_archive_rejects_non_container (archive_path : option string) s :
  (∀ p, archive_path = Some p →
        is_cstring p = true ∧ ¬ ends_with_nocase p ".zip") →
  zip_open_archive stale_reads archive_path s = Ret nullptr s.
Proof.
  intros Hp. unfold zip_open_archive.
  destruct archive_path as [p|]; [|done].
  destruct (Hp p eq_refl) as [Hc Hno].
  destruct (zip_is_archive_spec p Hc) as [Hbit Hspec].
  rewrite Hbit. destruct (decide _) as [H1|H1]; [|done].
  by apply Hspec in H1.
Qed.

Lemma no_dot_not_container p :
  has_char "." p = false → ¬ ends_with_nocase p ".zip".
Proof.
  intros Hno (front & back & -> & Heq).
  destruct back as [|d back]; [done|]. injection Heq as ->%fold_char_dot _.
  revert Hno. clear. induction front as [|a front IH]; simpl.
  - done.
  - rewrite orb_false_iff. intros [_ H]. by apply IH.
Qed.

(* -------------------------------------------------------------- *)
(** ** ROM locator *)
(* -------------------------------------------------------------- *)

Lemma matches_any_spec ext exts :
  is_cstring ext = true → Forall (λ x, is_cstring x = true) exts →
  matches_any ext exts = true ↔ ∃ x, x ∈ exts ∧ eq_nocase ext x.
Proof.
  intros Hext Hexts. unfold matches_any. rewrite existsb_exists. split.
  - intros (x & Hin & H0). exists x. apply list_elem_of_In in Hin.
    split; [done|]. rewrite Forall_forall in Hexts.
    apply strcasecmp_custom_zero; [auto..|lia].
  - intros (x & Hin & Heq). exists x. split; [by apply list_elem_of_In|].
    rewrite Forall_forall in Hexts.
    apply Z.eqb_eq, strcasecmp_custom_zero; auto.
Qed.

Lemma supported_exts_cstrings : Forall (λ x, is_cstring x = true) supported_exts.
Proof. unfold supported_exts. repeat constructor. Qed.

Lemma strrchr_cstring name c ext :
  is_cstring name = true → strrchr name c = Some ext → is_cstring ext = true.
Proof.
  intros Hc (front & rest & -> & _)%strrchr_Some.
  rewrite is_cstring_app in Hc. by apply andb_true_iff in Hc as [_ ?].
Qed.

(** One pass of the loop of lines 279-300 stops on exactly the
    qualifying entries. *)
Lemma find_rom_loop_cons e rest supported_extensions :
  is_cstring (filename e) = true →
  Forall (λ x, is_cstring x = true) (wanted_list supported_extensions) →
  (qualifies (wanted_list supported_extensions) e ∧
   find_rom_loop (e :: rest) supported_extensions = Some (filename e))
  ∨ (¬ qualifies (wanted_list supported_extensions) e ∧
     find_rom_loop (e :: rest) supported_extensions
     = find_rom_loop rest supported_extensions).
Proof.
  intros Hname Hexts. cbn [find_rom_loop]. unfold qualifies, dot_suffix.
  destruct (is_directory e) eqn:Hdir.
  { right. split; [|done]. by intros [? _]. }
  destruct (strrchr (filename e) ".") as [ext|] eqn:Hext.
  2:{ right. split; [|done]. by intros [_ (? & ? & ? & _)]. }
  assert (Hcext : is_cstring ext = true) by eauto using strrchr_cstring.
  assert (Hhit :
    match supported_extensions with
    | Some exts => matches_any ext exts
    | None => zip_is_supported_extension_internal (Some (filename e))
    end = matches_any ext (wanted_list supported_extensions)).
  { destruct supported_extensions; [done|]. simpl. by rewrite Hext. }
  rewrite Hhit.
  destruct (matches_any ext (wanted_list supported_extensions)) eqn:Hm.
  - left. split; [|done]. split; [done|].
    apply matches_any_spec in Hm as (x & ? & ?); [|done..]. by exists ext, x.
  - right. split; [|done]. intros [_ (ext' & x & [= <-] & Hin & Heq)].
    assert (matches_any ext (wanted_list supported_extensions) = true)
      by (apply matches_any_spec; eauto).
    congruence.
Qed.

Lemma find_rom_loop_spec catalogue supported_extensions :
  Forall (λ e, is_cstring (filename e) = true) catalogue →
  Forall (λ x, is_cstring x = true) (wanted_list supported_extensions) →
  match find_rom_loop catalogue supported_extensions with
  | Some name =>
      ∃ before e after,
        catalogue = before ++ e :: after ∧ name = filename e ∧
        Forall (λ e', ¬ qualifies (wanted_list supported_extensions) e') before ∧
        qualifies (wanted_list supported_extensions) e
  | None =>
      Forall (λ e', ¬ qualifies (wanted_list supported_extensions) e') catalogue
  end.
Proof.
  intros Hnames Hexts.
  induction catalogue as [|e rest IH]; [by constructor|].
  apply Forall_cons in Hnames as [Hname Hnames].
  destruct (find_rom_loop_cons e rest supported_extensions Hname Hexts)
    as [[Hq ->]|[Hq ->]].
  - by exists [], e, rest.
  - specialize (IH Hnames).
    destruct (find_rom_loop rest supported_extensions) as [name|].
    + destruct IH as (before & e' & after & -> & -> & Hbefore & Hq').
      exists (e :: before), e', after.
      split; [done|]. split; [done|]. split; [by constructor|done].
    + by constructor.
Qed.

(** C3.  On an open handle, [zip_find_rom_in_archive] returns the name
    of the first entry, in catalogue order, that is not a directory and
    whose suffix equals, case ignored, an element of the list in use
    (the caller's, or the default one); which element of the list matches
    plays no part.  It fails only when no entry of the catalogue
    qualifies, and then leaves [rom_filename] as it was. *)
Theorem zip_find_rom_in_archive_first_in_catalogue
    archive h (supported_extensions : option (list string)) (rom_filename : string) s :
  archive ≠ nullptr → heap s !! archive = Some h → is_open h = true →
  Forall (λ e, is_cstring (filename e) = true) (entries h) →
  Forall (λ x, is_cstring x = true) (wanted_list supported_extensions) →
  (∃ before e after,
      entries h = before ++ e :: after ∧
      Forall (λ e', ¬ qualifies (wanted_list supported_extensions) e') before ∧
      qualifies (wanted_list supported_extensions) e ∧
      zip_find_rom_in_archive stale_reads archive supported_extensions rom_filename s
      = Ret (true, filename e) s)
  ∨ (Forall (λ e', ¬ qualifies (wanted_list supported_extensions) e') (entries h) ∧
     zip_find_rom_in_archive stale_reads archive supported_extensions rom_filename s
     = Ret (false, rom_filename) s).
Proof.
  intros Hnn Hh Hopen Hnames Hexts.
  unfold zip_find_rom_in_archive, bind, load_is_open, load, ret.
  destruct (decide (archive = nullptr)) as [|_]; [done|].
  rewrite Hh, Hopen. simpl. rewrite Hh.
  pose proof (find_rom_loop_spec (entries h) supported_extensions Hnames Hexts) as Hspec.
  destruct (find_rom_loop (entries h) supported_extensions) as [name|].
  - left. destruct Hspec as (before & e & after & ? & -> & ? & ?).
    exists before, e, after. split_and!; done.
  - by right.
Qed.

(* -------------------------------------------------------------- *)
(** ** Monadic steps on a live handle *)
(* -------------------------------------------------------------- *)

Lemma load_is_open_live archive h s :
  heap s !! archive = Some h →
  load_is_open stale_reads archive s = Ret (is_open h) s.
Proof. unfold load_is_open. by intros ->. Qed.

Lemma load_live archive h s :
  heap s !! archive = Some h → load archive s = Ret h s.
Proof. unfold load. by intros ->. Qed.

Lemma store_live archive h h' s :
  heap s !! archive = Some h →
  store archive h' s = Ret tt (set_heap (<[archive := h']> (heap s)) s).
Proof. unfold store. by intros ->. Qed.

Lemma bind_Ret {A B} (m : zipM unzFile FS A) (k : A → zipM unzFile FS B) a s s' :
  m s = Ret a s' → bind m k s = k a s'.
Proof. unfold bind. by intros ->. Qed.

Lemma bind_Fault {A B} (m : zipM unzFile FS A) (k : A → zipM unzFile FS B) f s s' :
  m s = Fault f s' → bind m k s = Fault f s'.
Proof. unfold bind. by intros ->. Qed.

(** A codec call on a live handle with a session. *)
Lemma on_session_live {A} archive h uf (null_answer : A) call s :
  heap s !! archive = Some h → handle h = Some uf →
  on_session archive null_answer call s
  = Ret (call uf).1
        (set_heap (<[archive := mk_handle (Some (call uf).2) (archive_path h)
                                          (is_open h) (entries h)]> (heap s)) s).
Proof.
  intros Hh Hs. unfold on_session.
  rewrite (bind_Ret _ _ _ _ _ (load_live _ _ _ Hh)), Hs.
  destruct (call uf) as [a uf']. simpl.
  by rewrite (bind_Ret _ _ _ _ _ (store_live _ _ _ _ Hh)).
Qed.

Lemma on_session_null {A} archive h (null_answer : A) call s :
  heap s !! archive = Some h → handle h = None →
  on_session archive null_answer call s = Ret null_answer s.
Proof.
  intros Hh Hs. unfold on_session.
  by rewrite (bind_Ret _ _ _ _ _ (load_live _ _ _ Hh)), Hs.
Qed.

(* -------------------------------------------------------------- *)
(** ** Entry catalogue *)
(* -------------------------------------------------------------- *)

Lemma list_body_entry_at uf acc :
  list_body uf acc =
  if metadata_readable uf then
    match entry_at uf with
    | Done e => Done (acc ++ [e])
    | Crash f => Crash f
    end
  else Done acc.
Proof.
  unfold list_body, metadata_readable, entry_at.
  by destruct (unzGetCurrentFileInfo uf MAX_FILENAME_LENGTH) as [[rc info] buf].
Qed.

Lemma catalogue_of_cons u ps :
  catalogue_of (u :: ps) =
  if metadata_readable u then
    match entry_at u with
    | Done e =>
        match catalogue_of ps with
        | Done es => Done (e :: es)
        | Crash f => Crash f
        end
    | Crash f => Crash f
    end
  else catalogue_of ps.
Proof.
  unfold catalogue_of. rewrite filter_cons.
  destruct (metadata_readable u) eqn:E.
  - rewrite decide_True by done. simpl. by destruct (entry_at u).
  - by rewrite decide_False by done.
Qed.

(** The loop of lines 61-79 ends, and lists what [catalogue_of] says of
    the positions the cursor takes. *)
Lemma list_loop_catalogue fuel uf acc :
  (entries_left uf < fuel)%nat →
  match catalogue_of (cursor_walk fuel uf) with
  | Done es => ∃ uf', list_loop fuel uf acc = Done (acc ++ es, uf')
  | Crash f => list_loop fuel uf acc = Crash f
  end.
Proof.
  revert uf acc. induction fuel as [|fuel IH]; intros uf acc Hfuel; [lia|].
  cbn [cursor_walk list_loop]. rewrite catalogue_of_cons, list_body_entry_at.
  assert (Hrest : ∀ acc',
    match catalogue_of (let '(rc, uf') := unzGoToNextFile uf in
                        if rc =? unz.UNZ_OK then cursor_walk fuel uf' else []) with
    | Done es =>
        ∃ uf'', (let '(rc, uf') := unzGoToNextFile uf in
                 if rc =? unz.UNZ_OK then list_loop fuel uf' acc'
                 else Done (acc', uf')) = Done (acc' ++ es, uf'')
    | Crash f =>
        (let '(rc, uf') := unzGoToNextFile uf in
         if rc =? unz.UNZ_OK then list_loop fuel uf' acc'
         else Done (acc', uf')) = Crash f
    end).
  { intros acc'. destruct (unzGoToNextFile uf) as [rc uf'] eqn:Enext.
    destruct (rc =? unz.UNZ_OK) eqn:Erc.
    - apply Z.eqb_eq in Erc as ->.
      apply unzGoToNextFile_left in Enext. apply IH. lia.
    - exists uf'. by rewrite app_nil_r. }
  destruct (metadata_readable uf); [|apply Hrest].
  destruct (entry_at uf) as [e|f]; [|done].
  specialize (Hrest (acc ++ [e])).
  destruct (catalogue_of _) as [es|f]; [|done].
  destruct Hrest as [uf'' ->]. exists uf''. by rewrite <- app_assoc.
Qed.

(** An entry whose metadata cannot be read adds nothing to a catalogue,
    and takes nothing from it. *)
Lemma catalogue_of_skip before u after :
  metadata_readable u = false →
  catalogue_of (before ++ u :: after) = catalogue_of (before ++ after).
Proof.
  intros Hu. unfold catalogue_of.
  by rewrite !filter_app, filter_cons, decide_False by congruence.
Qed.

(** The listing on a live, open handle whose cursor can be put on the
    first entry. *)
Lemma zip_list_contents_internal_live archive h uf uf0 s :
  archive ≠ nullptr → heap s !! archive = Some h → is_open h = true →
  handle h = Some uf → unzGoToFirstFile uf = (unz.UNZ_OK, uf0) →
  match catalogue_of (positions uf0) with
  | Done es =>
      ∃ uf', zip_list_contents_internal stale_reads archive s
             = Ret true (set_heap (<[archive := mk_handle (Some uf') (archive_path h)
                                                          true es]> (heap s)) s)
  | Crash f => ∃ s', zip_list_contents_internal stale_reads archive s = Fault f s'
  end.
Proof.
  intros Hnn Hh Hopen Hs Hfirst. unfold zip_list_contents_internal.
  rewrite decide_False by done.
  rewrite (bind_Ret _ _ _ _ _ (load_is_open_live _ _ _ Hh)), Hopen. cbn [negb].
  rewrite (bind_Ret _ _ _ _ _ (load_live _ _ _ Hh)).
  rewrite (bind_Ret _ _ _ _ _ (store_live _ _ _ _ Hh)).
  cbn [handle]. rewrite Hs, Hfirst, Z.eqb_refl. cbn [negb].
  pose proof (list_loop_catalogue (S (entries_left uf0)) uf0 [] (Nat.lt_succ_diag_r _))
    as Hloop.
  unfold positions. destruct (catalogue_of _) as [es|f].
  - destruct Hloop as [uf' Hloop]. exists uf'.
    unfold bind at 1, lift. rewrite Hloop. simpl.
    unfold bind, store, ret. simpl. rewrite lookup_insert_eq. simpl.
    by rewrite insert_insert_eq, Hopen.
  - eexists. unfold bind at 1, lift. by rewrite Hloop.
Qed.

(** C5.  When the metadata of one entry cannot be read while the
    catalogue is built at open time, the catalogue the handle gets is that
    of all the other cursor positions, those before and those after it:
    the one entry is left out, the cursor moves past it and the entries
    after it are listed. *)
Theorem zip_open_archive_skips_unreadable_entry
    (path : string) uf uf0 (before after : list unzFile) u s :
  zip_is_archive (Some path) = 1 →
  unzOpen path = Some uf →
  unzGoToFirstFile uf = (unz.UNZ_OK, uf0) →
  positions uf0 = before ++ u :: after →
  metadata_readable u = false →
  next_addr s ≠ nullptr →
  match catalogue_of (before ++ after) with
  | Done es =>
      ∃ s', zip_open_archive stale_reads (Some path) s = Ret (next_addr s) s' ∧
            entries <$> heap s' !! next_addr s = Some es
  | Crash f => ∃ s', zip_open_archive stale_reads (Some path) s = Fault f s'
  end.
Proof.
  intros Hzip Hopen Hfirst Hpos Hu Hnn.
  unfold zip_open_archive. rewrite Hzip, Hopen. cbn [Z.eqb].
  set (h := mk_handle (Some uf) path true []).
  set (s1 := mk_state (<[next_addr s := h]> (heap s)) (next_addr s + 1)%N
                      (g_open_archives s) (temp_counter s) (fs s)).
  rewrite (bind_Ret (new_handle h) _ (next_addr s) s s1) by done.
  assert (Hh : heap s1 !! next_addr s = Some h) by apply lookup_insert_eq.
  pose proof (zip_list_contents_internal_live (next_addr s) h uf uf0 s1
                Hnn Hh eq_refl eq_refl Hfirst) as Hlist.
  rewrite Hpos, catalogue_of_skip in Hlist by done.
  destruct (catalogue_of (before ++ after)) as [es|f].
  - destruct Hlist as [uf' Hlist]. eexists.
    rewrite (bind_Ret _ _ _ _ _ Hlist). unfold bind, registry_push, ret.
    split; [done|]. simpl. by rewrite lookup_insert_eq.
  - destruct Hlist as [s' Hlist]. exists s'.
    by rewrite (bind_Fault _ _ _ _ _ Hlist).
Qed.

Lemma buffer_strlen_lt buf len :
  buffer_strlen buf = Some len → (len < String.length buf)%nat.
Proof.
  revert len. induction buf as [|c r IH]; intros len; simpl; [done|].
  destruct (Ascii.eqb c NUL); [intros [= <-]; lia|].
  destruct (buffer_strlen r) as [n|]; [|done].
  intros [= <-]. specialize (IH n eq_refl). lia.
Qed.

Lemma string_get_lt n (str : string) :
  (n < String.length str)%nat → ∃ c, String.get n str = Some c.
Proof.
  revert n. induction str as [|a r IH]; intros n; simpl; [lia|].
  destruct n as [|n]; [by exists a|]. intros Hn. apply IH. lia.
Qed.

Lemma buffer_strlen_None (buf : string) :
  buffer_strlen buf = None ↔ has_char NUL buf = false.
Proof.
  induction buf as [|c r IH]; simpl; [done|].
  destruct (Ascii.eqb c NUL); simpl; [done|].
  rewrite <- IH. by destruct (buffer_strlen r).
Qed.

Lemma buffer_strlen_0 (buf : string) :
  buffer_strlen buf = Some 0%nat ↔ String.get 0 buf = Some NUL.
Proof.
  destruct buf as [|c r]; simpl; [done|].
  destruct (Ascii.eqb_spec c NUL) as [->|Hne].
  - done.
  - split; [by destruct (buffer_strlen r)|]. intros [= ?]. done.
Qed.

(** The two ways, and the only ones, in which building an entry reads out
    of the name buffer. *)
Lemma make_entry_crash (info : unz.unz_file_info) (buf : string) :
  String.length buf = MAX_FILENAME_LENGTH →
  (∀ f, make_entry info buf = Crash f → f = OutOfBounds) ∧
  ((∃ f, make_entry info buf = Crash f) ↔ unusable_name buf).
Proof.
  intros Hsize. unfold unusable_name.
  rewrite <- buffer_strlen_None, <- buffer_strlen_0. unfold make_entry.
  destruct (buffer_strlen buf) as [len|] eqn:Hlen.
  2:{ split; [by intros f [= <-]|]. split; [by left|by eexists]. }
  destruct len as [|n].
  { assert (Hget : buffer_get buf (last_char_index 0) = None) by by vm_compute.
    rewrite Hget. split; [by intros f [= <-]|]. split; [by right|by eexists]. }
  pose proof (buffer_strlen_lt _ _ Hlen) as Hlt. rewrite Hsize in Hlt.
  destruct (string_get_lt n buf) as [c Hc]; [lia|].
  assert (Hget : buffer_get buf (last_char_index (S n)) = Some c).
  { unfold last_char_index, to_size_t, buffer_get.
    unfold MAX_FILENAME_LENGTH in *.
    rewrite Z.mod_small by lia.
    replace (Z.to_nat (Z.of_nat (S n) - 1)) with n by lia. rewrite Hc.
    assert (E1 : (0 <=? Z.of_nat (S n) - 1) = true) by (apply Z.leb_le; lia).
    assert (E2 : (Z.of_nat (S n) - 1 <? Z.of_nat 512) = true)
      by (apply Z.ltb_lt; lia).
    by rewrite E1, E2. }
  rewrite Hget. split; [done|]. split; [by intros [f ?]|by intros [?|?]].
Qed.

(** The read of the flag when the codec left a terminator in the name
    buffer. *)
Lemma directory_flag_read_terminated
    uf (info : unz.unz_file_info) (buf : string) (len : nat) (acc : list ZipEntry) :
  unzGetCurrentFileInfo uf MAX_FILENAME_LENGTH = (unz.UNZ_OK, info, buf) →
  buffer_strlen buf = Some len →
  (len ≠ 0%nat →
     last_char_index len = Z.of_nat len - 1 ∧
     0 ≤ last_char_index len < Z.of_nat MAX_FILENAME_LENGTH ∧
     ∃ c, buffer_get buf (last_char_index len) = Some c ∧
          String.get (len - 1) buf = Some c ∧
          list_body uf acc =
            Done (acc ++ [mk_entry (String.substring 0 len buf)
                                   (unz.uncompressed_size info)
                                   (unz.compressed_size info)
                                   (Ascii.eqb c "/")
                                   (String.substring 0 len buf)]))
  ∧ (len = 0%nat →
       last_char_index len = 2 ^ 32 - 1 ∧
       buffer_get buf (last_char_index len) = None ∧
       list_body uf acc = Crash OutOfBounds).
Proof.
  intros Hinfo Hlen.
  pose proof (unzGetCurrentFileInfo_buffer _ _ _ _ _ Hinfo) as Hsize.
  pose proof (buffer_strlen_lt _ _ Hlen) as Hlt. rewrite Hsize in Hlt.
  unfold list_body. rewrite Hinfo, Z.eqb_refl. unfold make_entry. rewrite Hlen.
  split.
  - intros Hne.
    assert (Hidx : last_char_index len = Z.of_nat len - 1).
    { unfold last_char_index, to_size_t. apply Z.mod_small.
      unfold MAX_FILENAME_LENGTH in Hlt. lia. }
    rewrite Hidx. split; [done|]. split; [lia|].
    destruct (string_get_lt (len - 1) buf) as [c Hc]; [lia|].
    assert (Hget : buffer_get buf (Z.of_nat len - 1) = Some c).
    { unfold buffer_get.
      replace (Z.to_nat (Z.of_nat len - 1)) with (len - 1)%nat by lia.
      rewrite Hc.
      destruct (0 <=? Z.of_nat len - 1) eqn:E1; [|lia].
      by destruct (Z.of_nat len - 1 <? Z.of_nat MAX_FILENAME_LENGTH) eqn:E2; [|lia]. }
    exists c. by rewrite Hget.
  - intros ->. by vm_compute.
Qed.

(** C9.  The directory flag of an entry whose metadata the codec read is
    taken from the name buffer at the index [strlen(filename) - 1],
    computed in [size_t].  The read is inside the array exactly when the
    buffer holds a terminator that is not its first byte, that is, for a
    name that is not empty and is shorter than the buffer: the index is
    then the one of the last character of the name.  For the empty name
    the index is [SIZE_MAX] and the read is outside the array.  For a
    name that fills the buffer the codec leaves no terminator, [strlen]
    itself runs past the array, and the read is outside it as well,
    although the name is not empty. *)
Theorem directory_flag_read_in_bounds_iff_name_usable
    uf (info : unz.unz_file_info) (buf : string) (acc : list ZipEntry) :
  unzGetCurrentFileInfo uf MAX_FILENAME_LENGTH = (unz.UNZ_OK, info, buf) →
  match buffer_strlen buf with
  | Some len =>
      has_char NUL buf = true ∧
      (len ≠ 0%nat →
         String.get 0 buf ≠ Some NUL ∧
         last_char_index len = Z.of_nat len - 1 ∧
         0 ≤ last_char_index len < Z.of_nat MAX_FILENAME_LENGTH ∧
         ∃ c, buffer_get buf (last_char_index len) = Some c ∧
              String.get (len - 1) buf = Some c ∧
              list_body uf acc =
                Done (acc ++ [mk_entry (String.substring 0 len buf)
                                       (unz.uncompressed_size info)
                                       (unz.compressed_size info)
                                       (Ascii.eqb c "/")
                                       (String.substring 0 len buf)]))
      ∧ (len = 0%nat →
           String.get 0 buf = Some NUL ∧
           last_char_index len = 2 ^ 32 - 1 ∧
           buffer_get buf (last_char_index len) = None ∧
           list_body uf acc = Crash OutOfBounds)
  | None =>
      has_char NUL buf = false ∧ String.get 0 buf ≠ Some NUL ∧
      list_body uf acc = Crash OutOfBounds
  end
  ∧ ((∃ e, list_body uf acc = Done (acc ++ [e])) ↔ ¬ unusable_name buf)
  ∧ (list_body uf acc = Crash OutOfBounds ↔ unusable_name buf).
Proof.
  intros Hinfo.
  pose proof (unzGetCurrentFileInfo_buffer _ _ _ _ _ Hinfo) as Hsize.
  split.
  - destruct (buffer_strlen buf) as [len|] eqn:Hlen.
    + destruct (directory_flag_read_terminated uf info buf len acc Hinfo Hlen)
        as [Hin Hout].
      split_and!.
      * destruct (has_char NUL buf) eqn:E; [done|].
        apply buffer_strlen_None in E. congruence.
      * intros Hne. split; [|by apply Hin].
        intros H0%buffer_strlen_0. congruence.
      * intros ->. split; [by apply buffer_strlen_0|by apply Hout].
    + split_and!.
      * by apply buffer_strlen_None.
      * intros H0%buffer_strlen_0. congruence.
      * unfold list_body. rewrite Hinfo, Z.eqb_refl. unfold make_entry.
        by rewrite Hlen.
  - unfold list_body. rewrite Hinfo, Z.eqb_refl.
    destruct (make_entry_crash info buf Hsize) as [Hkind Hiff].
    destruct (make_entry info buf) as [e|f] eqn:E.
    + split; split.
      * intros _ Hbad. apply Hiff in Hbad as [f Hf]. done.
      * intros _. by exists e.
      * done.
      * intros Hbad. apply Hiff in Hbad as [f Hf]. done.
    + rewrite (Hkind f eq_refl). split; split.
      * by intros [e He].
      * intros Hgood. exfalso. apply Hgood, Hiff. by exists f.
      * intros _. apply Hiff. by exists f.
      * done.
Qed.

(* -------------------------------------------------------------- *)
(** ** Extractor *)
(* -------------------------------------------------------------- *)

Lemma same_but_heap_trans s1 s2 s3 :
  same_but_heap s1 s2 → same_but_heap s2 s3 → same_but_heap s1 s3.
Proof. unfold same_but_heap. intros (?&?&?&?) (?&?&?&?). split_and!; congruence. Qed.

(** A codec call on a live handle, with what it leaves behind. *)
Lemma on_session_step {A} archive h uf (null_answer : A) call s :
  heap s !! archive = Some h → handle h = Some uf →
  ∃ s' h',
    on_session archive null_answer call s = Ret (call uf).1 s' ∧
    heap s' !! archive = Some h' ∧ handle h' = Some (call uf).2 ∧
    is_open h' = is_open h ∧ same_but_heap s s'.
Proof.
  intros Hh Hs. eexists _, _. split; [by apply on_session_live|].
  simpl. rewrite lookup_insert_eq. done.
Qed.

(** The array of line 160, once a read stored as many bytes as it has
    cells. *)
Lemma filled_with_all (bytes : list byte) (n : Z) :
  Z.of_nat (length bytes) = n →
  filled_with bytes (new_char_array n) = Some <$> bytes.
Proof.
  intros Hn. unfold filled_with, new_char_array.
  rewrite length_replicate.
  rewrite take_ge by lia. rewrite drop_ge; [by rewrite app_nil_r|].
  rewrite length_replicate. lia.
Qed.

Lemma completely_filled_fmap (bytes : list byte) :
  completely_filled (Some <$> bytes).
Proof. unfold completely_filled. apply Forall_fmap, Forall_true. by eexists. Qed.

(** The extraction, on a call that passes the argument test, follows
    from what the codec answers for the entry. *)
Lemma zip_extract_file_internal_live
    archive h uf (name : string) (d0 : option buffer) (z0 : Z) s :
  archive ≠ nullptr → heap s !! archive = Some h → is_open h = true →
  handle h = Some uf →
  ∃ s', same_but_heap s s' ∧
    zip_extract_file_internal stale_reads archive (Some name) (Some d0) (Some z0) s =
    match codec_read uf name with
    | None => Ret (false, Some None, Some 0) s'
    | Some (info, count, bytes) =>
        if unz.uncompressed_size info <? 2 ^ 31 then
          if count =? unz.uncompressed_size info
          then Ret (true, Some (Some (Some <$> bytes)),
                    Some (unz.uncompressed_size info)) s'
          else Ret (false, Some None, Some 0) s'
        else Fault BadArrayNewLength s'
    end.
Proof.
  intros Hnn Hh Hopen Hs. unfold zip_extract_file_internal, codec_read.
  rewrite decide_False by done.
  rewrite (bind_Ret _ _ _ _ _ (load_is_open_live _ _ _ Hh)), Hopen. cbn [negb].
  destruct (on_session_step archive h uf unz.UNZ_PARAMERROR
              (λ uf, unzLocateFile uf name 0) s Hh Hs)
    as (s1 & h1 & Hrun1 & Hh1 & Hs1 & Hopen1 & Hf1).
  rewrite (bind_Ret _ _ _ _ _ Hrun1). clear Hrun1.
  destruct (unzLocateFile uf name 0) as [rc1 uf1]. cbn [fst snd] in *.
  destruct (unzGetCurrentFileInfo uf1 0) as [[rc2 info] buf] eqn:Einfo.
  destruct (unzOpenCurrentFile uf1) as [rc3 uf2] eqn:Eopen.
  destruct (unzReadCurrentFile uf2 _) as [[count bytes] uf3] eqn:Eread.
  destruct (rc1 =? unz.UNZ_OK); cbn [negb andb]; [|by exists s1].
  destruct (on_session_step archive h1 uf1
              (unz.UNZ_PARAMERROR, unz.mk_info 0 0, EmptyString)
              (λ uf, (unzGetCurrentFileInfo uf 0, uf)) s1 Hh1 Hs1)
    as (s2 & h2 & Hrun2 & Hh2 & Hs2 & Hopen2 & Hf2).
  rewrite (bind_Ret _ _ _ _ _ Hrun2). clear Hrun2.
  cbn [fst snd] in *. rewrite Einfo in *.
  destruct (rc2 =? unz.UNZ_OK); cbn [negb andb];
    [|exists s2; eauto using same_but_heap_trans].
  destruct (on_session_step archive h2 uf1 unz.UNZ_PARAMERROR
              unzOpenCurrentFile s2 Hh2 Hs2)
    as (s3 & h3 & Hrun3 & Hh3 & Hs3 & Hopen3 & Hf3).
  rewrite (bind_Ret _ _ _ _ _ Hrun3). clear Hrun3.
  rewrite Eopen in *. cbn [fst snd] in *.
  destruct (rc3 =? unz.UNZ_OK); cbn [negb andb];
    [|exists s3; eauto using same_but_heap_trans].
  pose proof (unzGetCurrentFileInfo_range _ _ _ _ _ Einfo) as Hrange.
  assert (Hlong : to_long (unz.uncompressed_size info) =
                  if unz.uncompressed_size info <? 2 ^ 31
                  then unz.uncompressed_size info
                  else unz.uncompressed_size info - 2 ^ 32).
  { unfold to_long. destruct (_ <? _) eqn:E.
    - rewrite Z.mod_small; lia.
    - replace (unz.uncompressed_size info + 2 ^ 31)
        with (unz.uncompressed_size info - 2 ^ 31 + 1 * 2 ^ 32) by lia.
      rewrite Z.mod_add by lia. rewrite Z.mod_small; lia. }
  destruct (unz.uncompressed_size info <? 2 ^ 31) eqn:Esmall.
  2:{ rewrite Hlong.
      destruct (_ <? 0) eqn:E0; [|lia].
      exists s3. eauto using same_but_heap_trans. }
  rewrite Hlong in *. destruct (_ <? 0) eqn:E0; [lia|].
  destruct (on_session_step archive h3 uf2 (unz.UNZ_PARAMERROR, [])
              (λ uf, let '(rc, bytes, uf') :=
                       unzReadCurrentFile uf (unz.uncompressed_size info) in
                     ((rc, bytes), uf')) s3 Hh3 Hs3)
    as (s4 & h4 & Hrun4 & Hh4 & Hs4 & Hopen4 & Hf4).
  rewrite (bind_Ret _ _ _ _ _ Hrun4). clear Hrun4.
  rewrite Eread in *. cbn [fst snd] in *.
  destruct (on_session_step archive h4 uf3 unz.UNZ_PARAMERROR
              unzCloseCurrentFile s4 Hh4 Hs4)
    as (s5 & h5 & Hrun5 & Hh5 & Hs5 & Hopen5 & Hf5).
  rewrite (bind_Ret _ _ _ _ _ Hrun5). clear Hrun5.
  exists s5. split; [eauto 6 using same_but_heap_trans|].
  destruct (count =? unz.uncompressed_size info) eqn:Ecount; cbn [negb]; [|done].
  apply Z.eqb_eq in Ecount as ->.
  destruct (unzReadCurrentFile_count _ _ _ _ _ Eread) as [_ Hcount].
  rewrite filled_with_all; [done|]. apply Hcount. lia.
Qed.

Lemma zip_extract_file_internal_null_session
    archive h (name : string) (d0 : option buffer) (z0 : Z) s :
  archive ≠ nullptr → heap s !! archive = Some h → is_open h = true →
  handle h = None →
  zip_extract_file_internal stale_reads archive (Some name) (Some d0) (Some z0) s
  = Ret (false, Some None, Some 0) s.
Proof.
  intros Hnn Hh Hopen Hs. unfold zip_extract_file_internal.
  rewrite decide_False by done.
  rewrite (bind_Ret _ _ _ _ _ (load_is_open_live _ _ _ Hh)), Hopen. cbn [negb].
  by rewrite (bind_Ret _ _ _ _ _ (on_session_null _ _ _ _ _ Hh Hs)).
Qed.

(** A call that does not pass the argument test of line 138 returns
    [false] and writes nothing, unless it reads a deleted handle. *)
Lemma zip_extract_file_internal_rejected
    archive (filename : option string) (data : option (option buffer))
    (size : option Z) s :
  ¬ arguments_pass (heap s !! archive) archive filename data size →
  zip_extract_file_internal stale_reads archive filename data size s
  = if decide (archive ≠ nullptr ∧ heap s !! archive = None ∧ stale_reads = false)
    then Fault UseAfterFree s
    else Ret (false, data, size) s.
Proof.
  intros Hno. unfold zip_extract_file_internal, arguments_pass in *.
  destruct (decide (archive = nullptr)) as [->|Hnn].
  { rewrite decide_False; [done|]. by intros [? _]. }
  unfold bind, load_is_open.
  destruct (heap s !! archive) as [h|] eqn:Hh.
  - rewrite decide_False by (by intros (_ & ? & _)).
    destruct (is_open h) eqn:Hopen; [|done]. cbn [negb].
    destruct filename, data, size; try done.
    destruct Hno. split_and!; simpl; rewrite ?Hopen; eauto.
  - destruct stale_reads.
    + by rewrite decide_False by (by intros (_ & _ & ?)).
    + by rewrite decide_True.
Qed.

Lemma arguments_pass_cases
    archive (filename : option string) (data : option (option buffer))
    (size : option Z) s :
  arguments_pass (heap s !! archive) archive filename data size
  ∨ ¬ arguments_pass (heap s !! archive) archive filename data size.
Proof.
  unfold arguments_pass.
  destruct (decide (archive = nullptr)); [right; tauto|].
  destruct (heap s !! archive) as [h|]; simpl; [|right; intros (_&?&_); done].
  destruct (is_open h); [|right; intros (_&?&_); done].
  destruct filename; [|right; intros (_&_&[]&_); done].
  destruct data; [|right; intros (_&_&_&[]&_); done].
  destruct size; [|right; intros (_&_&_&_&[]); done].
  left. split_and!; eauto.
Qed.

(** The outcomes of the extractor. *)
Lemma zip_extract_file_internal_outcomes
    archive (filename : option string) (data : option (option buffer))
    (size : option Z) s :
  match zip_extract_file_internal stale_reads archive filename data size s with
  | Ret (result, data', size') s' =>
      same_but_heap s s' ∧
      ((¬ arguments_pass (heap s !! archive) archive filename data size ∧
        result = false ∧ data' = data ∧ size' = size)
       ∨ (arguments_pass (heap s !! archive) archive filename data size ∧
          result = false ∧ data' = Some None ∧ size' = Some 0 ∧
          ∀ h uf name info bytes,
            heap s !! archive = Some h → handle h = Some uf →
            filename = Some name →
            codec_read uf name ≠ Some (info, unz.uncompressed_size info, bytes))
       ∨ (arguments_pass (heap s !! archive) archive filename data size ∧
          result = true ∧
          ∃ h uf name info bytes,
            heap s !! archive = Some h ∧ handle h = Some uf ∧
            filename = Some name ∧
            codec_read uf name = Some (info, unz.uncompressed_size info, bytes) ∧
            data' = Some (Some (Some <$> bytes)) ∧
            size' = Some (unz.uncompressed_size info) ∧
            Z.of_nat (length (Some <$> bytes)) = unz.uncompressed_size info ∧
            completely_filled (Some <$> bytes)))
  | Fault f s' =>
      (f = UseAfterFree ∧ stale_reads = false ∧
       archive ≠ nullptr ∧ heap s !! archive = None)
      ∨ (f = BadArrayNewLength ∧
         ∃ h uf name info count bytes,
           heap s !! archive = Some h ∧ handle h = Some uf ∧
           filename = Some name ∧
           codec_read uf name = Some (info, count, bytes) ∧
           2 ^ 31 ≤ unz.uncompressed_size info)
  end.
Proof.
  destruct (arguments_pass_cases archive filename data size s) as [Hpass|Hno].
  2:{ rewrite zip_extract_file_internal_rejected by done.
      destruct (decide _) as [(?&?&?)|_]; simpl; [by left|].
      split; [done|]. by left. }
  pose proof Hpass as (Hnn & Hopen & [name ->] & [d0 ->] & [z0 ->]).
  destruct (heap s !! archive) as [h|] eqn:Hh; [|done].
  injection Hopen as Hopen.
  destruct (handle h) as [uf|] eqn:Hs.
  2:{ rewrite (zip_extract_file_internal_null_session _ _ _ _ _ _ Hnn Hh Hopen Hs).
      simpl. split; [done|]. right; left. split_and!; try done. congruence. }
  destruct (zip_extract_file_internal_live _ _ _ name d0 z0 _ Hnn Hh Hopen Hs)
    as (s' & Hframe & Hrun).
  rewrite Hrun. clear Hrun.
  destruct (codec_read uf name) as [[[info count] bytes]|] eqn:Hcodec.
  2:{ simpl. split; [done|]. right; left. split_and!; try done.
      intros ????? [= <-] ? [= <-]. congruence. }
  destruct (unz.uncompressed_size info <? 2 ^ 31) eqn:Esmall.
  2:{ right. split; [done|]. exists h, uf, name, info, count, bytes.
      split_and!; try done. lia. }
  destruct (count =? unz.uncompressed_size info) eqn:Ecount; simpl.
  - apply Z.eqb_eq in Ecount as ->. split; [done|]. right; right.
    split; [done|]. split; [done|].
    exists h, uf, name, info, bytes. split_and!; try done.
    + rewrite length_fmap.
      unfold codec_read in Hcodec.
      destruct (unzLocateFile uf name 0) as [rc1 uf1].
      destruct (unzGetCurrentFileInfo uf1 0) as [[rc2 info'] buf] eqn:Einfo.
      destruct (unzOpenCurrentFile uf1) as [rc3 uf2].
      destruct (unzReadCurrentFile uf2 _) as [[count' bytes'] uf3] eqn:Eread.
      destruct (_ && _); [|done]. injection Hcodec as -> -> ->.
      pose proof (unzGetCurrentFileInfo_range _ _ _ _ _ Einfo).
      destruct (unzReadCurrentFile_count _ _ _ _ _ Eread) as [_ Hcount].
      apply Hcount. lia.
    + apply completely_filled_fmap.
  - split; [done|]. right; left. split_and!; try done.
    intros h' uf' name' info' bytes' [= <-] Hs' [= <-].
    rewrite Hs in Hs'. injection Hs' as <-. rewrite Hcodec.
    intros [= <- Hc _]. lia.
Qed.

(** Called, as at lines 180-183, on a [data] that holds [nullptr] and a
    [size] that holds 0, the extractor returns in one of the two ways the
    specification names. *)
Lemma zip_extract_file_internal_from_cleared_outputs
    archive (filename : option string) s :
  match zip_extract_file_internal stale_reads archive filename (Some None) (Some 0) s with
  | Ret (result, data', size') s' =>
      (result = false ∧ data' = Some None ∧ size' = Some 0)
      ∨ (result = true ∧
         ∃ buf n, data' = Some (Some buf) ∧ size' = Some n ∧
                  Z.of_nat (length buf) = n ∧ completely_filled buf)
  | Fault f _ => f = UseAfterFree ∨ f = BadArrayNewLength
  end.
Proof.
  pose proof (zip_extract_file_internal_outcomes archive filename
                (Some None) (Some 0) s) as H.
  destruct (zip_extract_file_internal _ _ _ _ _ _) as [[[result d'] z'] s'|f s'].
  - destruct H as [_ [(_&->&->&->)|[(_&->&->&->&_)|(_&->&H)]]]; [by left..|].
    destruct H as (?&?&?&info&bytes&_&_&_&_&->&->&?&?). right.
    split; [done|]. by exists (Some <$> bytes), (unz.uncompressed_size info).
  - destruct H as [(->&_)|(->&_)]; auto.
Qed.

Lemma codec_read_range uf (name : string) info count (bytes : list byte) :
  codec_read uf name = Some (info, count, bytes) →
  0 ≤ unz.uncompressed_size info < 2 ^ 32.
Proof.
  unfold codec_read.
  destruct (unzLocateFile uf name 0) as [rc1 uf1].
  destruct (unzGetCurrentFileInfo uf1 0) as [[rc2 info'] buf] eqn:Einfo.
  destruct (unzOpenCurrentFile uf1) as [rc3 uf2].
  destruct (unzReadCurrentFile uf2 _) as [[count' bytes'] uf3].
  destruct (_ && _); [|done]. intros [= <- _ _].
  exact (unzGetCurrentFileInfo_range _ _ _ _ _ Einfo).
Qed.

(** A declared size of 2^31 or more is a negative [long]. *)
Lemma to_long_negative (z : Z) :
  2 ^ 31 ≤ z < 2 ^ 32 → to_long z = z - 2 ^ 32 ∧ to_long z < 0.
Proof.
  intros Hz. unfold to_long.
  replace (z + 2 ^ 31) with (z - 2 ^ 31 + 1 * 2 ^ 32) by lia.
  rewrite Z_mod_plus_full, Z.mod_small by lia. lia.
Qed.

(** C1, as the code has it.  A call of [zip_extract_file] ends in one of
    four ways.  A call that does not pass the argument test (null or
    closed handle, null name, null output pointer) returns 0 and leaves
    [*data] and [*size] as the caller had them.  A call that passes it
    and fails later returns 0 with [*data] null and [*size] 0.  A call
    that succeeds returns 1 with [*size] the declared uncompressed size of
    the entry and [*data] a buffer of exactly that many cells, each stored
    to by the read; it returns 1 only when the count the read returned is
    the declared size, so a buffer filled in part is never returned.
    Last, a call may not return at all: on a deleted handle the argument
    test reads freed memory, and for an entry that declares 2^31 bytes or
    more the value line 159 stores in [*size] is negative and the
    allocation of line 160 throws. *)
Theorem zip_extract_file_outcomes
    archive (filename : option string) (data : option (option buffer))
    (size : option Z) s :
  match zip_extract_file stale_reads archive filename data size s with
  | Ret (rc, data', size') s' =>
      same_but_heap s s' ∧
      ((¬ arguments_pass (heap s !! archive) archive filename data size ∧
        rc = 0 ∧ data' = data ∧ size' = size)
       ∨ (arguments_pass (heap s !! archive) archive filename data size ∧
          rc = 0 ∧ data' = Some None ∧ size' = Some 0 ∧
          ∀ h uf name info bytes,
            heap s !! archive = Some h → handle h = Some uf →
            filename = Some name →
            codec_read uf name ≠ Some (info, unz.uncompressed_size info, bytes))
       ∨ (arguments_pass (heap s !! archive) archive filename data size ∧
          rc = 1 ∧
          ∃ h uf name info bytes,
            heap s !! archive = Some h ∧ handle h = Some uf ∧
            filename = Some name ∧
            codec_read uf name = Some (info, unz.uncompressed_size info, bytes) ∧
            data' = Some (Some (Some <$> bytes)) ∧
            size' = Some (unz.uncompressed_size info) ∧
            Z.of_nat (length (Some <$> bytes)) = unz.uncompressed_size info ∧
            completely_filled (Some <$> bytes)))
  | Fault f s' =>
      (f = UseAfterFree ∧ stale_reads = false ∧
       archive ≠ nullptr ∧ heap s !! archive = None)
      ∨ (f = BadArrayNewLength ∧
         arguments_pass (heap s !! archive) archive filename data size ∧
         ∃ h uf name info count bytes,
           heap s !! archive = Some h ∧ handle h = Some uf ∧
           filename = Some name ∧
           codec_read uf name = Some (info, count, bytes) ∧
           2 ^ 31 ≤ unz.uncompressed_size info < 2 ^ 32 ∧
           to_long (unz.uncompressed_size info)
           = unz.uncompressed_size info - 2 ^ 32 ∧
           to_long (unz.uncompressed_size info) < 0)
  end.
Proof.
  pose proof (zip_extract_file_internal_outcomes archive filename data size s) as H.
  unfold zip_extract_file, bind.
  destruct (zip_extract_file_internal _ _ _ _ _ _)
    as [[[result d'] z'] s'|f s'] eqn:Hrun.
  - simpl. destruct H as [Hframe H]. split; [done|].
    destruct H as [(?&->&?&?)|[(?&->&?&?&?)|(?&->&?)]]; auto 10.
  - destruct H as [H|(-> & h & uf & name & info & count & bytes & Hh & Hs & Hn
                      & Hcodec & Hbig)]; [by left|].
    right. split; [done|]. split.
    { destruct (arguments_pass_cases archive filename data size s) as [Hpass|Hno];
        [done|].
      rewrite zip_extract_file_internal_rejected in Hrun by done.
      by destruct (decide _). }
    pose proof (codec_read_range _ _ _ _ _ Hcodec) as Hrange.
    destruct (to_long_negative (unz.uncompressed_size info)) as [Hval Hneg]; [lia|].
    exists h, uf, name, info, count, bytes. split_and!; try done; lia.
Qed.

(* -------------------------------------------------------------- *)
(** ** Scratch-file writer *)
(* -------------------------------------------------------------- *)

Lemma string_app_length (a b : string) :
  String.length (a +:+ b) = (String.length a + String.length b)%nat.
Proof. induction a as [|c a IH]; simpl; [done|]. by rewrite IH. Qed.

Lemma string_app_inv_head (a x y : string) : a +:+ x = a +:+ y → x = y.
Proof. induction a as [|c a IH]; simpl; [done|]. intros [= ?]. auto. Qed.

Lemma string_app_inv_tail (x y c : string) : x +:+ c = y +:+ c → x = y.
Proof.
  revert y. induction x as [|a x IH]; intros [|b y] Heq.
  - done.
  - apply (f_equal String.length) in Heq.
    rewrite !string_app_length in Heq. simpl in Heq. lia.
  - apply (f_equal String.length) in Heq.
    rewrite !string_app_length in Heq. simpl in Heq. lia.
  - injection Heq as -> Heq. f_equal. auto.
Qed.

(** Two counters give one scratch path for a name only when equal. *)
Lemma scratch_path_inj c1 c2 name :
  scratch_path c1 name = scratch_path c2 name → c1 = c2.
Proof.
  unfold scratch_path. intros Heq.
  apply string_app_inv_head, string_app_inv_head, string_app_inv_tail in Heq.
  by apply (inj pretty) in Heq.
Qed.

Lemma base_filename_stripped name : stripped name (base_filename name).
Proof.
  unfold stripped, base_filename.
  destruct (strrchr name "/") as [t|] eqn:E.
  - apply strrchr_Some in E as (front & rest & -> & -> & Hno).
    split; [done|]. right. by exists front.
  - apply strrchr_None in E. split; [done|]. by left.
Qed.

Lemma buffer_bytes_fmap (bytes : list byte) :
  buffer_bytes (Some (Some <$> bytes)) = bytes.
Proof.
  unfold buffer_bytes. apply list_eq. intros i.
  rewrite !list_lookup_fmap. by destruct (bytes !! i).
Qed.

(** What a successful scratch extraction did. *)
Lemma zip_extract_file_to_temp_internal_true
    archive (filename : option string) (temp_path p : string) s s' :
  zip_extract_file_to_temp_internal stale_reads archive filename temp_path s
  = Ret (true, p) s' →
  ∃ h uf name info bytes,
    heap s !! archive = Some h ∧ handle h = Some uf ∧ filename = Some name ∧
    codec_read uf name = Some (info, unz.uncompressed_size info, bytes) ∧
    Z.of_nat (length bytes) = unz.uncompressed_size info ∧
    temp_counter s < INT_MAX ∧ temp_counter s' = temp_counter s + 1 ∧
    p = scratch_path (temp_counter s') name ∧
    file_written (fs s) p bytes (fs s').
Proof.
  unfold zip_extract_file_to_temp_internal. unfold bind at 1.
  pose proof (zip_extract_file_internal_outcomes archive filename
                (Some None) (Some 0) s) as Hout.
  destruct (zip_extract_file_internal _ _ _ _ _ _)
    as [[[extracted data_cell] size_cell] s1|f s1]; [|done].
  destruct Hout as [Hframe Hout].
  destruct extracted; cbn [negb]; [|done].
  destruct Hout as [(_&?&_)|[(_&?&_)|(_&_&Hout)]]; [done..|].
  destruct Hout as (h & uf & name & info & bytes & Hh & Hs & -> & Hcodec
                    & -> & -> & Hlen & _).
  rewrite length_fmap in Hlen. cbn [default id]. rewrite buffer_bytes_fmap.
  destruct Hframe as (Hna & Hreg & Hcount & Hfs).
  unfold bind, on_fs, next_counter. simpl.
  destruct (sceIoMkdir (fs s1) zip_get_temp_dir sce.mode_0777) as [rc_mk f1] eqn:Emk.
  simpl. destruct (temp_counter s1 <? INT_MAX) eqn:Emax; [|done]. simpl.
  destruct (sceIoOpen f1 _ open_flags sce.mode_0777) as [fd f2] eqn:Eopen.
  simpl. destruct (fd <? 0) eqn:Efd; [done|]. simpl.
  destruct (sceIoWrite f2 fd bytes _) as [written f3] eqn:Ewrite. simpl.
  destruct (sceIoClose f3 fd) as [rc_cl f4] eqn:Eclose. simpl.
  unfold ret. intros [= Hw <- <-]. simpl.
  apply Z.eqb_eq in Hw as ->.
  exists h, uf, name, info, bytes. rewrite <- Hcount.
  split_and!; try done; [lia|].
  exists fd, f1, f2, f3. rewrite <- Hfs, Hlen.
  unfold zip_get_temp_dir in Emk. rewrite Emk, Eclose. split_and!; try done. lia.
Qed.

(** C7.  A successful scratch extraction writes the file
    [TEMP_DIR ++ "temp_" ++ counter ++ "_" ++ base], [base] being the
    entry name without its directory prefix and [counter] the value of
    the process-wide counter after the increment of line 193, which is
    above every value it had before.  Two successful extractions of one
    entry name, the second run in the state the first left or in any
    later state of the counter, therefore write to two different
    paths. *)
Theorem scratch_paths_use_increasing_counter
    archive archive' (filename : option string) (tp tp' p p' : string)
    s s1 s1' s2 :
  zip_extract_file_to_temp_internal stale_reads archive filename tp s
  = Ret (true, p) s1 →
  temp_counter s1 ≤ temp_counter s1' →
  zip_extract_file_to_temp_internal stale_reads archive' filename tp' s1'
  = Ret (true, p') s2 →
  ∃ name base bytes bytes',
    filename = Some name ∧ stripped name base ∧
    p = TEMP_DIR +:+ "temp_" +:+ to_string (temp_counter s1) +:+ "_" +:+ base ∧
    p' = TEMP_DIR +:+ "temp_" +:+ to_string (temp_counter s2) +:+ "_" +:+ base ∧
    temp_counter s < temp_counter s1 ∧ temp_counter s1 < temp_counter s2 ∧
    file_written (fs s) p bytes (fs s1) ∧
    file_written (fs s1') p' bytes' (fs s2) ∧
    p ≠ p'.
Proof.
  intros (h & uf & name & info & bytes & _ & _ & -> & _ & _ & Hmax & Hc & -> & Hw)
           %zip_extract_file_to_temp_internal_true Hle
         (h' & uf' & name' & info' & bytes' & _ & _ & [= <-] & _ & _ & Hmax' & Hc'
            & -> & Hw')%zip_extract_file_to_temp_internal_true.
  exists name, (base_filename name), bytes, bytes'.
  split_and!; try done; try lia.
  - apply base_filename_stripped.
  - intros Heq%scratch_path_inj. lia.
Qed.

(** C10.  When [zip_extract_file_to_temp_c] returns 0 for the sole reason
    that the path does not fit the caller's buffer, the scratch file has
    been created and all the bytes of the entry written to it, and the
    counter has moved on by one: the state the call leaves is the one
    the successful extraction left, not the one the call started in. *)
Theorem zip_extract_file_to_temp_c_fails_after_writing
    archive (filename : option string) (temp_path p : string) (buffer_size : N)
    s s' :
  zip_extract_file_to_temp_internal stale_reads archive filename EmptyString s
  = Ret (true, p) s' →
  fits p buffer_size = false →
  zip_extract_file_to_temp_c stale_reads archive filename temp_path buffer_size s
  = Ret (0, temp_path) s' ∧
  temp_counter s' = temp_counter s + 1 ∧
  ∃ h uf name info bytes,
    heap s !! archive = Some h ∧ handle h = Some uf ∧ filename = Some name ∧
    codec_read uf name = Some (info, unz.uncompressed_size info, bytes) ∧
    Z.of_nat (length bytes) = unz.uncompressed_size info ∧
    p = scratch_path (temp_counter s') name ∧
    file_written (fs s) p bytes (fs s').
Proof.
  intros Hrun Hfit. split.
  { unfold zip_extract_file_to_temp_c.
    rewrite (bind_Ret _ _ _ _ _ Hrun). by rewrite Hfit. }
  apply zip_extract_file_to_temp_internal_true in Hrun
    as (h & uf & name & info & bytes & ? & ? & ? & ? & ? & _ & ? & ? & ?).
  split; [done|]. by exists h, uf, name, info, bytes.
Qed.

Lemma zip_close_archive_counter archive s s' :
  zip_close_archive stale_reads archive s = Ret tt s' →
  temp_counter s' = temp_counter s.
Proof.
  unfold zip_close_archive.
  destruct (decide (archive = nullptr)); [by intros [= <-]|].
  destruct (heap s !! archive) as [h|] eqn:Hh.
  - rewrite (bind_Ret _ _ _ _ _ (load_is_open_live _ _ _ Hh)).
    destruct (is_open h); cbn [negb]; [|by intros [= <-]].
    rewrite (bind_Ret _ _ _ _ _ (load_live _ _ _ Hh)).
    rewrite (bind_Ret _ _ _ _ _ (store_live _ _ _ _ Hh)).
    unfold bind, registry_remove, delete_handle. simpl.
    destruct (vector.find archive (g_open_archives s)); by intros [= <-].
  - unfold bind, load_is_open. rewrite Hh.
    destruct stale_reads; [|done]. by intros [= <-].
Qed.

(** The path a successful extraction leaves is the composed scratch
    path. *)
Lemma zip_extract_rom_to_temp_true
    (zip_path : option string) (supported_extensions : option (list string))
    (temp_rom_path p : string) s s' :
  zip_extract_rom_to_temp stale_reads zip_path supported_extensions temp_rom_path s
  = Ret (true, p) s' →
  ∃ name, p = scratch_path (temp_counter s') name.
Proof.
  unfold zip_extract_rom_to_temp. unfold bind at 1.
  destruct (zip_open_archive stale_reads zip_path s) as [archive s1|]; [|done].
  destruct (decide (archive = nullptr)); [done|].
  unfold bind at 1.
  destruct (zip_find_rom_in_archive _ _ _ _ _) as [[found rom] s2|]; [|done].
  destruct found; cbn [negb].
  - unfold bind at 1.
    destruct (zip_extract_file_to_temp_internal _ _ _ _ _)
      as [[success p'] s3|] eqn:Hrun; [|done].
    unfold bind.
    destruct (zip_close_archive stale_reads archive s3) as [[] s4|] eqn:Hclose; [|done].
    intros [= -> -> ->].
    apply zip_close_archive_counter in Hclose as ->.
    apply zip_extract_file_to_temp_internal_true in Hrun
      as (_ & _ & name & _ & _ & _ & _ & [= <-] & _ & _ & _ & _ & -> & _).
    by exists rom.
  - unfold bind. by destruct (zip_close_archive _ _ _).
Qed.

(** C6.  Each of the two C wrappers returns 0 or 1.  It returns 0, and
    leaves the caller's buffer as it was, whenever the path with its
    terminator is longer than [buffer_size]; it returns 1 only when the
    extraction succeeded and the length of the path is below
    [buffer_size], and the buffer then holds the path.  The path of a
    successful extraction is the composed scratch path. *)
Theorem c_wrappers_need_room_for_the_path
    archive (filename zip_path : option string)
    (supported_extensions : option (list string))
    (temp_path : string) (buffer_size : N) s :
  match zip_extract_file_to_temp_internal stale_reads archive filename EmptyString s with
  | Ret (result, path) s' =>
      (result = true → ∃ name, path = scratch_path (temp_counter s') name) ∧
      ∃ rc out,
        zip_extract_file_to_temp_c stale_reads archive filename temp_path buffer_size s
        = Ret (rc, out) s' ∧
        (rc = 0 ∨ rc = 1) ∧
        ((buffer_size < N.of_nat (String.length path) + 1)%N → rc = 0) ∧
        (rc = 0 → out = temp_path) ∧
        (rc = 1 → result = true ∧ (N.of_nat (String.length path) < buffer_size)%N
                  ∧ out = path)
  | Fault f s' =>
      zip_extract_file_to_temp_c stale_reads archive filename temp_path buffer_size s
      = Fault f s'
  end
  ∧
  match zip_extract_rom_to_temp stale_reads zip_path supported_extensions EmptyString s with
  | Ret (result, path) s' =>
      (result = true → ∃ name, path = scratch_path (temp_counter s') name) ∧
      ∃ rc out,
        zip_extract_rom_to_temp_c stale_reads zip_path supported_extensions
          temp_path buffer_size s
        = Ret (rc, out) s' ∧
        (rc = 0 ∨ rc = 1) ∧
        ((buffer_size < N.of_nat (String.length path) + 1)%N → rc = 0) ∧
        (rc = 0 → out = temp_path) ∧
        (rc = 1 → result = true ∧ (N.of_nat (String.length path) < buffer_size)%N
                  ∧ out = path)
  | Fault f s' =>
      zip_extract_rom_to_temp_c stale_reads zip_path supported_extensions
        temp_path buffer_size s
      = Fault f s'
  end.
Proof.
  assert (Hwrap : ∀ (result : bool) (path : string),
    ∃ rc out,
      (if result && fits path buffer_size then (1, path) else (0, temp_path))
      = (rc, out) ∧
      (rc = 0 ∨ rc = 1) ∧
      ((buffer_size < N.of_nat (String.length path) + 1)%N → rc = 0) ∧
      (rc = 0 → out = temp_path) ∧
      (rc = 1 → result = true ∧ (N.of_nat (String.length path) < buffer_size)%N
                ∧ out = path)).
  { intros result path. unfold fits.
    destruct result, (N.ltb_spec (N.of_nat (String.length path)) buffer_size);
      simpl; eexists _, _; (split; [done|]); split_and!; auto; try lia; done. }
  split.
  - unfold zip_extract_file_to_temp_c, bind.
    destruct (zip_extract_file_to_temp_internal _ _ _ _ _)
      as [[result path] s'|f s'] eqn:Hrun; [|done].
    split.
    { intros ->. apply zip_extract_file_to_temp_internal_true in Hrun
        as (_ & _ & name & _ & _ & _ & _ & _ & _ & _ & _ & _ & -> & _).
      by exists name. }
    destruct (Hwrap result path) as (rc & out & Heq & ?).
    exists rc, out. split; [|done].
    destruct (result && fits path buffer_size); injection Heq as <- <-; done.
  - unfold zip_extract_rom_to_temp_c, bind.
    destruct (zip_extract_rom_to_temp _ _ _ _ _)
      as [[result path] s'|f s'] eqn:Hrun; [|done].
    split.
    { intros ->. by apply zip_extract_rom_to_temp_true in Hrun. }
    destruct (Hwrap result path) as (rc & out & Heq & ?).
    exists rc, out. split; [|done].
    destruct (result && fits path buffer_size); injection Heq as <- <-; done.
Qed.

(** C8.  [zip_list_contents] returns 1 whatever the handle and the
    [entries] pointer are, null included; what [entries] points to and the
    process are left as they were, so the catalogue is not reported. *)
Theorem zip_list_contents_is_a_stub {A : Type} archive (entries : option A) s :
  zip_list_contents archive entries s = Ret (1, entries) s.
Proof. reflexivity. Qed.

(* -------------------------------------------------------------- *)
(** ** Bulk cleanup *)
(* -------------------------------------------------------------- *)

(** With no handle tracked the cleanup closes nothing. *)
Lemma zip_cleanup_temp_files_none_open s :
  vector.vsize (g_open_archives s) = 0%nat →
  ∃ s', zip_cleanup_temp_files stale_reads s = Ret tt s' ∧
        heap s' = heap s ∧ vector.elements (g_open_archives s') = [] ∧
        temp_counter s' = temp_counter s ∧ fs s' = fs s.
Proof.
  intros Hempty. unfold zip_cleanup_temp_files, bind, get_state.
  rewrite Hempty. simpl. by eexists.
Qed.

(* -------------------------------------------------------------- *)
(** ** The extension matcher and the path normaliser *)
(* -------------------------------------------------------------- *)

(** X1.  [strcasecmp_custom] returns 0 exactly on two C strings that are
    equal once their ASCII letters are folded, and swapping its arguments
    negates its result. *)
Theorem strcasecmp_custom_equality_and_symmetry (s1 s2 : string) :
  is_cstring s1 = true → is_cstring s2 = true →
  (strcasecmp_custom s1 s2 = 0 ↔ eq_nocase s1 s2) ∧
  strcasecmp_custom s2 s1 = - strcasecmp_custom s1 s2.
Proof.
  intros H1 H2. split; [by apply strcasecmp_custom_zero|]. clear H1 H2.
  revert s2. induction s1 as [|a1 r1 IH]; intros [|a2 r2]; simpl; try lia.
  rewrite (Ascii.eqb_sym (fold_char a2) (fold_char a1)).
  destruct (Ascii.eqb (fold_char a1) (fold_char a2)); simpl; [apply IH|lia].
Qed.

(** X2.  [zip_is_supported_extension] answers 1 exactly for the names
    whose ['.']-delimited suffix equals, case ignored, one of the twelve
    extensions of lines 259-262, and 0 for every other name, the null
    pointer included. *)
Theorem zip_is_supported_extension_spec (filename : option string) :
  (∀ name, filename = Some name → is_cstring name = true) →
  (zip_is_supported_extension filename = 1 ∨ zip_is_supported_extension filename = 0) ∧
  (zip_is_supported_extension filename = 1 ↔
   ∃ name ext x, filename = Some name ∧ dot_suffix name ext ∧
                 x ∈ supported_exts ∧ eq_nocase ext x).
Proof.
  intros Hc. unfold zip_is_supported_extension, zip_is_supported_extension_internal.
  destruct filename as [name|].
  2:{ split; [by right|]. split; [done|]. by intros (?&?&?&?&_). }
  specialize (Hc name eq_refl). unfold dot_suffix.
  destruct (strrchr name ".") as [ext|] eqn:Hext.
  2:{ split; [by right|]. split; [done|]. intros (?&?&?&[= <-]&?&_). congruence. }
  pose proof (matches_any_spec ext supported_exts
                (strrchr_cstring _ _ _ Hc Hext) supported_exts_cstrings) as Hspec.
  destruct (matches_any ext supported_exts).
  - split; [by left|]. split; [|done]. intros _.
    destruct Hspec as [(x & ? & ?) _]; [done|]. by exists name, ext, x.
  - split; [by right|]. split; [done|].
    intros (? & ext' & x & [= <-] & Hext' & Hin & Heq).
    rewrite Hext in Hext'. injection Hext' as <-.
    destruct Hspec as [_ Hspec]. discriminate Hspec. by exists x.
Qed.

(** X3.  No name is both a container and a supported medium: when
    [zip_is_archive] answers 1, [zip_is_supported_extension] answers 0, so
    the default search never picks an archive stored inside an archive. *)
Theorem container_is_not_supported_medium (name : string) :
  is_cstring name = true →
  zip_is_archive (Some name) = 1 →
  zip_is_supported_extension (Some name) = 0.
Proof.
  intros Hc. unfold zip_is_archive, zip_is_supported_extension,
    zip_is_supported_extension_internal.
  destruct (strrchr name ".") as [ext|] eqn:Hext; [|done].
  pose proof (strrchr_cstring _ _ _ Hc Hext) as Hcext.
  destruct (strcasecmp_custom ext ".zip" =? 0) eqn:Hzip; [|done]. intros _.
  apply Z.eqb_eq, strcasecmp_custom_zero in Hzip; [|done..].
  destruct (matches_any ext supported_exts) eqn:Hm; [|done].
  apply matches_any_spec in Hm as (x & Hin & Heq);
    [|done|apply supported_exts_cstrings].
  unfold eq_nocase in *. rewrite Hzip in Heq. unfold supported_exts in Hin.
  repeat (apply elem_of_cons in Hin as [->|Hin]; [discriminate Heq|]).
  by apply elem_of_nil in Hin.
Qed.




(* -------------------------------------------------------------- *)
(** ** The registry as a vector *)
(* -------------------------------------------------------------- *)

Lemma vector_elements_length {A} (v : vector.t A) :
  (vector.vsize v ≤ length (vector.storage v))%nat →
  length (vector.elements v) = vector.vsize v.
Proof. intros Hwf. unfold vector.elements. rewrite length_take. lia. Qed.

Lemma vector_elements_push_back {A} (x : A) (v : vector.t A) :
  (vector.vsize v ≤ length (vector.storage v))%nat →
  vector.elements (vector.push_back x v) = vector.elements v ++ [x] ∧
  (vector.vsize (vector.push_back x v)
   ≤ length (vector.storage (vector.push_back x v)))%nat.
Proof.
  intros Hwf. pose proof (vector_elements_length v Hwf) as Hlen.
  unfold vector.push_back. split.
  - unfold vector.elements at 1. cbn [vector.storage vector.vsize].
    rewrite take_app_ge by lia. rewrite Hlen.
    by replace (S (vector.vsize v) - vector.vsize v)%nat with 1%nat by lia.
  - cbn [vector.storage vector.vsize]. rewrite length_app, Hlen. simpl. lia.
Qed.

Lemma vector_elements_erase {A} (k : nat) (v : vector.t A) :
  (k < vector.vsize v)%nat →
  (vector.vsize v ≤ length (vector.storage v))%nat →
  vector.elements (vector.erase k v) = delete k (vector.elements v) ∧
  (vector.vsize (vector.erase k v)
   ≤ length (vector.storage (vector.erase k v)))%nat.
Proof.
  intros Hk Hwf. pose proof (vector_elements_length v Hwf) as Hlen.
  unfold vector.erase.
  assert (Hfront : length (take k (vector.storage v)
                           ++ drop (S k) (vector.elements v))
                   = (vector.vsize v - 1)%nat).
  { rewrite length_app, length_take, length_drop, Hlen. lia. }
  split.
  - unfold vector.elements at 1. cbn [vector.storage vector.vsize].
    rewrite app_assoc, take_app_length' by done.
    rewrite delete_take_drop. f_equal.
    unfold vector.elements. rewrite take_take. f_equal. lia.
  - cbn [vector.storage vector.vsize]. rewrite app_assoc, length_app, Hfront. lia.
Qed.

Lemma index_of_Some {A} `{EqDecision A} (x : A) (l : list A) (k : nat) :
  vector.index_of x l = Some k → l !! k = Some x.
Proof.
  revert k. induction l as [|y l IH]; intros k; simpl; [done|].
  destruct (decide (y = x)) as [->|]; [by intros [= <-]|].
  destruct (vector.index_of x l) as [j|]; [|done].
  intros [= <-]. by apply IH.
Qed.

Lemma index_of_None {A} `{EqDecision A} (x : A) (l : list A) :
  vector.index_of x l = None ↔ x ∉ l.
Proof.
  induction l as [|y l IH]; simpl.
  - split; [intros _; apply not_elem_of_nil|done].
  - rewrite not_elem_of_cons. destruct (decide (y = x)) as [->|Hne].
    + split; [done|]. by intros [? _].
    + destruct (vector.index_of x l); simpl.
      * split; [done|]. intros [_ Hin]. by apply IH in Hin.
      * split; [|done]. intros _. split; [done|]. by apply IH.
Qed.

(** Without repetition, taking out position [k] takes out its element
    and nothing else. *)
Lemma elem_of_delete_NoDup {A} (l : list A) (k : nat) (x y : A) :
  NoDup l → l !! k = Some x →
  NoDup (delete k l) ∧ (y ∈ delete k l ↔ y ∈ l ∧ y ≠ x).
Proof.
  intros Hnd Hk. rewrite delete_take_drop.
  rewrite <- (take_drop_middle l k x Hk) in Hnd at 1.
  apply NoDup_app in Hnd as (Hfront & Hsep & Hback).
  apply NoDup_cons in Hback as [Hx Hback].
  split.
  - apply NoDup_app. split_and!; [done| |done].
    intros z Hz Hz'. apply (Hsep z Hz). by right.
  - rewrite <- (take_drop_middle l k x Hk) at 3.
    rewrite !elem_of_app, elem_of_cons. split.
    + intros [Hy|Hy].
      * split; [by left|]. intros ->. apply (Hsep x Hy). by left.
      * split; [by right; right|]. by intros ->.
    + intros [[Hy|[->|Hy]] Hne]; [by left|done|by right].
Qed.

(* -------------------------------------------------------------- *)
(** ** Close *)
(* -------------------------------------------------------------- *)

(** The state a close of a live, open handle leaves. *)
Lemma zip_close_archive_live archive h s :
  archive ≠ nullptr → heap s !! archive = Some h → is_open h = true →
  zip_close_archive stale_reads archive s =
  Ret tt (mk_state (delete archive (heap s)) (next_addr s)
            (match vector.find archive (g_open_archives s) with
             | Some k => vector.erase k (g_open_archives s)
             | None => g_open_archives s
             end)
            (temp_counter s) (fs s)).
Proof.
  intros Hnn Hh Hopen. unfold zip_close_archive.
  rewrite decide_False by done.
  rewrite (bind_Ret _ _ _ _ _ (load_is_open_live _ _ _ Hh)), Hopen. cbn [negb].
  rewrite (bind_Ret _ _ _ _ _ (load_live _ _ _ Hh)).
  rewrite (bind_Ret _ _ _ _ _ (store_live _ _ _ _ Hh)).
  unfold bind, registry_remove, delete_handle, set_heap, set_registry.
  cbn [heap next_addr g_open_archives temp_counter fs].
  destruct (vector.find archive (g_open_archives s));
    cbn [heap next_addr g_open_archives temp_counter fs];
    by rewrite delete_insert_eq.
Qed.

Lemma zip_close_archive_tracked archive h s :
  registry_tracks_handles s → heap s !! archive = Some h →
  zip_close_archive stale_reads nullptr s = Ret tt s ∧
  ∃ s', zip_close_archive stale_reads archive s = Ret tt s' ∧
        heap s' = delete archive (heap s) ∧
        (∀ p, p ∈ vector.elements (g_open_archives s')
              ↔ p ∈ vector.elements (g_open_archives s) ∧ p ≠ archive) ∧
        next_addr s' = next_addr s ∧ temp_counter s' = temp_counter s ∧
        fs s' = fs s ∧ registry_tracks_handles s'.
Proof.
  intros (Hsize & Hnd & Htrack & Hlive & Hnext) Hh. split; [done|].
  destruct (Hlive archive h Hh) as (Hopen & Hnn & _).
  eexists. split; [by apply (zip_close_archive_live archive h)|].
  cbn [heap next_addr g_open_archives temp_counter fs].
  assert (Hin : archive ∈ vector.elements (g_open_archives s))
    by (apply Htrack; eauto).
  unfold vector.find.
  destruct (vector.index_of archive (vector.elements (g_open_archives s)))
    as [k|] eqn:Hk; [|by apply index_of_None in Hk].
  apply index_of_Some in Hk.
  assert (Hlt : (k < vector.vsize (g_open_archives s))%nat).
  { rewrite <- (vector_elements_length _ Hsize). by eapply lookup_lt_Some. }
  destruct (vector_elements_erase k _ Hlt Hsize) as [Helems Hsize'].
  assert (Hmem : ∀ p, p ∈ vector.elements (vector.erase k (g_open_archives s))
                      ↔ p ∈ vector.elements (g_open_archives s) ∧ p ≠ archive).
  { intros p. rewrite Helems. by apply elem_of_delete_NoDup. }
  split_and!; try done.
  unfold registry_tracks_handles.
  cbn [heap next_addr g_open_archives temp_counter fs].
  split_and!; try done.
  - rewrite Helems. by eapply (elem_of_delete_NoDup _ _ _ archive).
  - intros p. rewrite Hmem, Htrack, lookup_delete_is_Some.
    split; intros [? ?]; split; (done || congruence).
  - intros p h' [_ Hp]%lookup_delete_Some. by apply Hlive in Hp.
Qed.

(** X5.  In a process whose registry and heap agree, closing a live
    handle deletes its object, takes its address, and no other, out of the
    registry, and leaves the other handles, the scratch counter and the
    storage as they were; registry and heap agree again afterwards.
    Closing the null pointer does nothing. *)
Theorem zip_close_archive_releases_handle archive h s :
  registry_tracks_handles s → heap s !! archive = Some h →
  zip_close_archive stale_reads nullptr s = Ret tt s ∧
  ∃ s', zip_close_archive stale_reads archive s = Ret tt s' ∧
        heap s' = delete archive (heap s) ∧
        (∀ p, p ∈ vector.elements (g_open_archives s')
              ↔ p ∈ vector.elements (g_open_archives s) ∧ p ≠ archive) ∧
        next_addr s' = next_addr s ∧ temp_counter s' = temp_counter s ∧
        fs s' = fs s ∧ registry_tracks_handles s'.
Proof.
  exact (zip_close_archive_tracked archive h s).
Qed.

(* -------------------------------------------------------------- *)
(** ** The entries of a catalogue *)
(* -------------------------------------------------------------- *)

(** The name [std::string(filename)] takes from a terminated buffer. *)
Lemma buffer_strlen_name (buf : string) (len : nat) :
  buffer_strlen buf = Some len →
  is_cstring (String.substring 0 len buf) = true ∧
  String.length (String.substring 0 len buf) = len ∧
  ∀ i, (i < len)%nat → String.get i (String.substring 0 len buf) = String.get i buf.
Proof.
  revert len. induction buf as [|c r IH]; intros len; simpl; [done|].
  destruct (Ascii.eqb c NUL) eqn:Ec.
  - intros [= <-]. split_and!; [done..|]. intros i Hi. lia.
  - destruct (buffer_strlen r) as [n|]; [|done]. intros [= <-].
    destruct (IH n eq_refl) as (Hc & Hlen & Hget). simpl.
    rewrite Ec, Hc, Hlen. split_and!; [done..|].
    intros [|i] Hi; [done|]. apply Hget. lia.
Qed.

Lemma string_last (name : string) (n : nat) (c : ascii) :
  String.length name = S n → String.get n name = Some c →
  ∃ front, name = front +:+ String c EmptyString.
Proof.
  revert n. induction name as [|a r IH]; intros n; simpl; [done|].
  intros [= Hlen]. destruct n as [|n].
  - intros [= ->]. destruct r; [|done]. by exists EmptyString.
  - intros Hget. destruct (IH n Hlen Hget) as [front ->].
    by exists (String a front).
Qed.

Lemma string_snoc_inj (front front' : string) (c c' : ascii) :
  front +:+ String c EmptyString = front' +:+ String c' EmptyString → c = c'.
Proof.
  revert front'. induction front as [|a front IH]; intros [|a' front']; simpl.
  - by intros [= ->].
  - intros [= _ Heq]. by destruct front'.
  - intros [= _ Heq]. by destruct front.
  - intros [= _ Heq]. eauto.
Qed.

Lemma make_entry_well_formed (info : unz.unz_file_info) (buf : string) (e : ZipEntry) :
  String.length buf = MAX_FILENAME_LENGTH →
  make_entry info buf = Done e → entry_well_formed e.
Proof.
  intros Hsize. unfold make_entry.
  destruct (buffer_strlen buf) as [len|] eqn:Hlen; [|done].
  pose proof (buffer_strlen_lt _ _ Hlen) as Hlt. rewrite Hsize in Hlt.
  destruct (buffer_strlen_name _ _ Hlen) as (Hc & Hnlen & Hget).
  destruct (buffer_get buf (last_char_index len)) as [c|] eqn:Hlast; [|done].
  intros [= <-]. unfold entry_well_formed. cbn [filename path is_directory].
  unfold buffer_get in Hlast.
  destruct ((0 <=? last_char_index len)
            && (last_char_index len <? Z.of_nat MAX_FILENAME_LENGTH)) eqn:Hin;
    [|done].
  assert (Hpos : (0 < len)%nat).
  { destruct len; [|lia]. by vm_compute in Hin. }
  assert (Hidx : last_char_index len = Z.of_nat len - 1).
  { unfold last_char_index, to_size_t. apply Z.mod_small.
    unfold MAX_FILENAME_LENGTH in Hlt. lia. }
  rewrite Hidx in Hlast.
  replace (Z.to_nat (Z.of_nat len - 1)) with (len - 1)%nat in Hlast by lia.
  rewrite <- Hget in Hlast by lia.
  destruct (string_last (String.substring 0 len buf) (len - 1) c) as [front Hfront];
    [lia|done|].
  split_and!; [done|lia|lia|done|].
  rewrite Hfront. split.
  - intros ->%Ascii.eqb_eq. by exists front.
  - intros [front' Heq]. apply string_snoc_inj in Heq as ->. apply Ascii.eqb_refl.
Qed.

Lemma list_loop_well_formed fuel uf (acc : list ZipEntry) r :
  Forall entry_well_formed acc →
  list_loop fuel uf acc = Done r → Forall entry_well_formed r.1.
Proof.
  revert uf acc. induction fuel as [|fuel IH]; intros uf acc Hacc; simpl; [done|].
  unfold list_body.
  destruct (unzGetCurrentFileInfo uf MAX_FILENAME_LENGTH) as [[rc info] buf] eqn:Einfo.
  pose proof (unzGetCurrentFileInfo_buffer _ _ _ _ _ Einfo) as Hsize.
  assert (Hstep : ∀ acc', Forall entry_well_formed acc' →
    (let '(rc', uf') := unzGoToNextFile uf in
     if rc' =? unz.UNZ_OK then list_loop fuel uf' acc' else Done (acc', uf')) = Done r →
    Forall entry_well_formed r.1).
  { intros acc' Hacc'. destruct (unzGoToNextFile uf) as [rc' uf'].
    destruct (rc' =? unz.UNZ_OK); [by apply IH|]. by intros [= <-]. }
  destruct (rc =? unz.UNZ_OK); [|by apply Hstep].
  destruct (make_entry info buf) as [e|] eqn:He; [|done].
  apply Hstep. apply Forall_app. split; [done|].
  constructor; [|done]. by eapply make_entry_well_formed.
Qed.

(** What the listing does to a live, open handle: it replaces its
    catalogue and moves its cursor, nothing else. *)
Lemma zip_list_contents_internal_effect archive h s result s' :
  archive ≠ nullptr → heap s !! archive = Some h → is_open h = true →
  zip_list_contents_internal stale_reads archive s = Ret result s' →
  ∃ h', s' = set_heap (<[archive := h']> (heap s)) s ∧
        is_open h' = true ∧ archive_path h' = archive_path h ∧
        Forall entry_well_formed (entries h').
Proof.
  intros Hnn Hh Hopen. unfold zip_list_contents_internal.
  rewrite decide_False by done.
  rewrite (bind_Ret _ _ _ _ _ (load_is_open_live _ _ _ Hh)), Hopen. cbn [negb].
  rewrite (bind_Ret _ _ _ _ _ (load_live _ _ _ Hh)).
  rewrite (bind_Ret _ _ _ _ _ (store_live _ _ _ _ Hh)).
  cbn [handle]. destruct (handle h) as [uf|] eqn:Hs.
  2:{ intros [= <- <-]. eexists. split; [done|]. by rewrite Hopen. }
  destruct (unzGoToFirstFile uf) as [rc uf0].
  destruct (rc =? unz.UNZ_OK); cbn [negb].
  - unfold bind at 1, lift.
    destruct (list_loop _ uf0 []) as [r|] eqn:Hloop; [|done].
    apply list_loop_well_formed in Hloop; [|done].
    unfold bind, store, ret. cbn [heap set_heap]. rewrite lookup_insert_eq.
    intros [= <- <-]. eexists. rewrite insert_insert_eq. split; [done|].
    by rewrite Hopen.
  - unfold bind, store, ret. cbn [heap set_heap]. rewrite lookup_insert_eq.
    intros [= <- <-]. eexists. rewrite insert_insert_eq. split; [done|].
    by rewrite Hopen.
Qed.

(* -------------------------------------------------------------- *)
(** ** Open, and open followed by close *)
(* -------------------------------------------------------------- *)

Lemma zip_open_archive_tracked (zip_path : option string) p s s' :
  registry_tracks_handles s →
  zip_open_archive stale_reads zip_path s = Ret p s' →
  (p = nullptr ∧ s' = s)
  ∨ (∃ path h,
       zip_path = Some path ∧ zip_is_archive (Some path) ≠ 0 ∧
       is_Some (unzOpen path) ∧
       p = next_addr s ∧ p ≠ nullptr ∧ heap s !! p = None ∧
       heap s' = <[p := h]> (heap s) ∧
       is_open h = true ∧ archive_path h = path ∧
       Forall entry_well_formed (entries h) ∧
       vector.elements (g_open_archives s')
       = vector.elements (g_open_archives s) ++ [p] ∧
       temp_counter s' = temp_counter s ∧ fs s' = fs s ∧
       registry_tracks_handles s').
Proof.
  intros (Hsize & Hnd & Htrack & Hlive & Hnext). unfold zip_open_archive.
  destruct zip_path as [path|]; [|intros [= <- <-]; by left].
  destruct (zip_is_archive (Some path) =? 0) eqn:Hzip; [intros [= <- <-]; by left|].
  destruct (unzOpen path) as [uf|] eqn:Hopen; [|intros [= <- <-]; by left].
  set (h0 := mk_handle (Some uf) path true []).
  set (s1 := mk_state (<[next_addr s := h0]> (heap s)) (next_addr s + 1)%N
                      (g_open_archives s) (temp_counter s) (fs s)).
  rewrite (bind_Ret (new_handle h0) _ (next_addr s) s s1) by done.
  assert (Hh0 : heap s1 !! next_addr s = Some h0) by apply lookup_insert_eq.
  unfold bind at 1.
  destruct (zip_list_contents_internal stale_reads (next_addr s) s1)
    as [listed s2|] eqn:Hlist; [|done].
  apply (zip_list_contents_internal_effect _ h0) in Hlist
    as (h & -> & Hhopen & Hhpath & Hentries); [|done..].
  unfold bind, registry_push, ret. intros [= <- <-]. subst s1.
  unfold set_registry, set_heap.
  cbn [heap next_addr g_open_archives temp_counter fs].
  rewrite insert_insert_eq.
  assert (Hfresh : heap s !! next_addr s = None).
  { destruct (heap s !! next_addr s) as [h'|] eqn:E; [|done].
    apply Hlive in E as (_ & _ & ?). lia. }
  assert (Hnotin : next_addr s ∉ vector.elements (g_open_archives s)).
  { intros [x Hx]%Htrack. unfold ptr in *. congruence. }
  destruct (vector_elements_push_back (next_addr s) _ Hsize) as [Helems Hsize'].
  right. exists path, h. split_and!; try done.
  { intros Hz. rewrite Hz in Hzip. done. }
  unfold registry_tracks_handles.
  cbn [heap next_addr g_open_archives temp_counter fs].
  unfold ptr in *. split_and!; try done.
  - rewrite Helems. apply NoDup_app. split_and!; [done| |apply NoDup_singleton].
    intros x Hx ->%list_elem_of_singleton. done.
  - intros q. rewrite Helems, elem_of_app, list_elem_of_singleton, Htrack,
      lookup_insert_is_Some.
    split.
    + intros [Hq| ->]; [|by left].
      destruct (decide (next_addr s = q)) as [|Hne]; [by left|by right].
    + intros [<-|[_ Hq]]; [by right|by left].
  - intros q hq [[<- <-]|[Hne Hq]]%lookup_insert_Some.
    + split_and!; [done..|]. lia.
    + destruct (Hlive q hq Hq) as (?&?&?). split_and!; [done..|]. lia.
  - unfold nullptr. lia.
Qed.

(** X6.  In a process whose registry and heap agree, [zip_open_archive]
    either returns the null pointer and changes nothing, or returns a
    fresh non-null address for a container the codec opened: the handle
    there is open, remembers the path, and every entry of its catalogue has
    a non-empty C-string name shorter than the name buffer, a path equal
    to the name and a directory flag that tells whether the name ends in
    ['/'].  The address is appended to the registry, the other handles,
    the scratch counter and the storage are as before, and registry and
    heap agree again. *)
Theorem zip_open_archive_registers_handle (zip_path : option string) p s s' :
  registry_tracks_handles s →
  zip_open_archive stale_reads zip_path s = Ret p s' →
  (p = nullptr ∧ s' = s)
  ∨ (∃ path h,
       zip_path = Some path ∧ zip_is_archive (Some path) ≠ 0 ∧
       is_Some (unzOpen path) ∧
       p = next_addr s ∧ p ≠ nullptr ∧ heap s !! p = None ∧
       heap s' = <[p := h]> (heap s) ∧
       is_open h = true ∧ archive_path h = path ∧
       Forall entry_well_formed (entries h) ∧
       vector.elements (g_open_archives s')
       = vector.elements (g_open_archives s) ++ [p] ∧
       temp_counter s' = temp_counter s ∧ fs s' = fs s ∧
       registry_tracks_handles s').
Proof.
  exact (zip_open_archive_tracked zip_path p s s').
Qed.

Lemma zip_open_then_close_tracked (zip_path : option string) p s s1 :
  registry_tracks_handles s →
  zip_open_archive stale_reads zip_path s = Ret p s1 →
  ∃ s2, zip_close_archive stale_reads p s1 = Ret tt s2 ∧
        heap s2 = heap s ∧
        (∀ q, q ∈ vector.elements (g_open_archives s2)
              ↔ q ∈ vector.elements (g_open_archives s)) ∧
        temp_counter s2 = temp_counter s ∧ fs s2 = fs s ∧
        registry_tracks_handles s2.
Proof.
  intros Hinv Hopen.
  destruct (zip_open_archive_tracked _ _ _ _ Hinv Hopen)
    as [[-> ->]|(path & h & _ & _ & _ & -> & Hnn & Hfresh & Hheap & _ & _ & _
                 & Helems & Hcount & Hfs & Hinv1)].
  { exists s. split; [done|]. by split_and!. }
  assert (Hh : heap s1 !! next_addr s = Some h)
    by (rewrite Hheap; apply lookup_insert_eq).
  destruct (zip_close_archive_tracked _ _ _ Hinv1 Hh)
    as (_ & s2 & Hclose & Hheap2 & Hmem & _ & Hcount2 & Hfs2 & Hinv2).
  exists s2. split_and!; try done; try congruence.
  - rewrite Hheap2, Hheap. by apply delete_insert_id.
  - intros q. rewrite Hmem, Helems, elem_of_app, list_elem_of_singleton.
    destruct Hinv as (_ & _ & Htrack & _).
    split; [intros [[?| ->] ?]; done|].
    intros Hq. split; [by left|]. intros ->.
    apply Htrack in Hq as [x Hx]. unfold ptr in *. congruence.
Qed.

(** X7.  From a process whose registry and heap agree, opening an archive
    and closing the handle obtained leaves the handles, the registry's
    content, the scratch counter and the storage as they were before the
    open; only the allocator has moved on. *)
Theorem zip_open_then_close_restores (zip_path : option string) p s s1 :
  registry_tracks_handles s →
  zip_open_archive stale_reads zip_path s = Ret p s1 →
  ∃ s2, zip_close_archive stale_reads p s1 = Ret tt s2 ∧
        heap s2 = heap s ∧
        (∀ q, q ∈ vector.elements (g_open_archives s2)
              ↔ q ∈ vector.elements (g_open_archives s)) ∧
        temp_counter s2 = temp_counter s ∧ fs s2 = fs s ∧
        registry_tracks_handles s2.
Proof.
  exact (zip_open_then_close_tracked zip_path p s s1).
Qed.

(* -------------------------------------------------------------- *)
(** ** What the operations on one handle leave alone *)
(* -------------------------------------------------------------- *)

Lemma bind_inv {A B} (m : zipM unzFile FS A) (k : A → zipM unzFile FS B) b s s2 :
  bind m k s = Ret b s2 → ∃ a s1, m s = Ret a s1 ∧ k a s1 = Ret b s2.
Proof. unfold bind. destruct (m s) as [a s1|]; [|done]. eauto. Qed.

Lemma only_handle_changed_refl archive s : only_handle_changed archive s s.
Proof. split_and!; auto. Qed.

Lemma only_handle_changed_trans archive s1 s2 s3 :
  only_handle_changed archive s1 s2 → only_handle_changed archive s2 s3 →
  only_handle_changed archive s1 s3.
Proof.
  intros (Hn1 & Hr1 & Hh1) (Hn2 & Hr2 & Hh2).
  split_and!; [congruence..|].
  destruct Hh2 as [E2|(h2 & h2' & Hl2 & E2 & Ho2)]; rewrite E2; [done|].
  destruct Hh1 as [E1|(h1 & h1' & Hl1 & E1 & Ho1)]; rewrite E1 in Hl2 |- *.
  - right. exists h2, h2'. split_and!; [exact Hl2|reflexivity|exact Ho2].
  - right. exists h1, h2'. rewrite insert_insert_eq.
    split_and!; [exact Hl1|reflexivity|].
    rewrite lookup_insert_eq in Hl2. injection Hl2 as <-. congruence.
Qed.

Lemma only_handle_changed_lookup archive s s' q :
  only_handle_changed archive s s' → q ≠ archive → heap s' !! q = heap s !! q.
Proof.
  intros (_ & _ & [E|(h & h' & _ & E & _)]) Hne; rewrite E; [done|].
  by rewrite lookup_insert_ne.
Qed.

(** The agreement of registry and heap survives a change of one handle's
    content. *)
Lemma only_handle_changed_tracks archive s s' :
  registry_tracks_handles s → only_handle_changed archive s s' →
  registry_tracks_handles s'.
Proof.
  intros (Hsize & Hnd & Htrack & Hlive & Hnext) (Hn & Hr & Hh).
  unfold registry_tracks_handles. rewrite Hn, Hr.
  destruct Hh as [E|(h & h' & Hl & E & Ho)]; rewrite E; [done|].
  split_and!; try done.
  - intros q. rewrite Htrack, lookup_insert_is_Some'. split; [by right|].
    intros [<-|?]; [by eexists|done].
  - intros q hq [[<- <-]|[Hne Hq]]%lookup_insert_Some; [|by apply Hlive].
    destruct (Hlive _ _ Hl) as (?&?&?). split_and!; congruence.
Qed.

Lemma on_session_keeps {A} archive (null_answer : A) call s a s' :
  on_session archive null_answer call s = Ret a s' →
  only_handle_changed archive s s' ∧ temp_counter s' = temp_counter s ∧ fs s' = fs s.
Proof.
  unfold on_session, bind, load, store, ret.
  destruct (heap s !! archive) as [h|] eqn:Hh; [|done].
  destruct (handle h) as [uf|].
  - destruct (call uf) as [a' uf']. rewrite Hh. intros [= <- <-].
    split_and!; try done. split_and!; try done. right. by eexists h, _.
  - intros [= <- <-]. split_and!; try done. apply only_handle_changed_refl.
Qed.

(** The extractor changes nothing but the content of its handle. *)
Lemma zip_extract_file_internal_keeps
    archive (filename : option string) (data : option (option buffer))
    (size : option Z) s r s' :
  zip_extract_file_internal stale_reads archive filename data size s = Ret r s' →
  only_handle_changed archive s s' ∧ temp_counter s' = temp_counter s ∧ fs s' = fs s.
Proof.
  assert (Hrefl : ∀ t : state unzFile FS,
            only_handle_changed archive t t
            ∧ temp_counter t = temp_counter t ∧ fs t = fs t)
    by (intros t; split_and!; auto using only_handle_changed_refl).
  assert (Htrans : ∀ t1 t2 t3 : state unzFile FS,
    only_handle_changed archive t1 t2 ∧ temp_counter t2 = temp_counter t1
      ∧ fs t2 = fs t1 →
    only_handle_changed archive t2 t3 ∧ temp_counter t3 = temp_counter t2
      ∧ fs t3 = fs t2 →
    only_handle_changed archive t1 t3 ∧ temp_counter t3 = temp_counter t1
      ∧ fs t3 = fs t1).
  { intros t1 t2 t3 (?&?&?) (?&?&?).
    split_and!; [by eapply only_handle_changed_trans|congruence..]. }
  unfold zip_extract_file_internal.
  destruct (decide (archive = nullptr)); [by intros [= <- <-]|].
  intros (opened & s0 & Hopen & Hrun)%bind_inv.
  assert (s0 = s) as ->.
  { unfold load_is_open in Hopen. destruct (heap s !! archive); [by injection Hopen|].
    destruct stale_reads; [by injection Hopen|done]. }
  destruct (negb opened); [by injection Hrun as <- <-|].
  destruct filename as [name|], data as [d0|], size as [z0|];
    try by injection Hrun as <- <-.
  apply bind_inv in Hrun as (rc1 & s1 & H1%on_session_keeps & Hrun).
  destruct (negb (rc1 =? unz.UNZ_OK)); [by injection Hrun as <- <-|].
  apply bind_inv in Hrun as ([[rc2 info] buf] & s2 & H2%on_session_keeps & Hrun).
  pose proof (Htrans _ _ _ H1 H2) as H12.
  destruct (negb (rc2 =? unz.UNZ_OK)); [by injection Hrun as <- <-|].
  apply bind_inv in Hrun as (rc3 & s3 & H3%on_session_keeps & Hrun).
  pose proof (Htrans _ _ _ H12 H3) as H13.
  destruct (negb (rc3 =? unz.UNZ_OK)); [by injection Hrun as <- <-|].
  destruct (to_long (unz.uncompressed_size info) <? 0); [done|].
  apply bind_inv in Hrun as ([count bytes] & s4 & H4%on_session_keeps & Hrun).
  pose proof (Htrans _ _ _ H13 H4) as H14.
  apply bind_inv in Hrun as (rc5 & s5 & H5%on_session_keeps & Hrun).
  pose proof (Htrans _ _ _ H14 H5) as H15.
  destruct (negb (count =? _)); by injection Hrun as <- <-.
Qed.

(** So does the scratch-file writer, as far as the handles go. *)
Lemma zip_extract_file_to_temp_internal_keeps
    archive (filename : option string) (temp_path : string) s r s' :
  zip_extract_file_to_temp_internal stale_reads archive filename temp_path s
  = Ret r s' →
  only_handle_changed archive s s'.
Proof.
  unfold zip_extract_file_to_temp_internal.
  intros ([[extracted d] z] & s1 & (H1 & _)%zip_extract_file_internal_keeps
          & Hrun)%bind_inv.
  destruct (negb extracted); [by injection Hrun as <- <-|].
  assert (Hfs : ∀ A (call : FS → A * FS) (t : state unzFile FS) a t',
    on_fs call t = Ret a t' → only_handle_changed archive t t').
  { intros A call t a t'. unfold on_fs. destruct (call (fs t)).
    intros [= <- <-]. split_and!; [done|done|by left]. }
  apply bind_inv in Hrun as (? & s2 & H2%Hfs & Hrun).
  apply bind_inv in Hrun as (counter & s3 & H3 & Hrun).
  assert (only_handle_changed archive s2 s3) as H3'.
  { unfold next_counter in H3. destruct (temp_counter s2 <? INT_MAX); [|done].
    injection H3 as <- <-. split_and!; [done|done|by left]. }
  destruct filename as [name|]; [|done].
  apply bind_inv in Hrun as (fd & s4 & H4%Hfs & Hrun).
  assert (only_handle_changed archive s s4) as H04
    by eauto using only_handle_changed_trans.
  destruct (fd <? 0); [by injection Hrun as <- <-|].
  apply bind_inv in Hrun as (? & s5 & H5%Hfs & Hrun).
  apply bind_inv in Hrun as (? & s6 & H6%Hfs & Hrun).
  injection Hrun as <- <-. eauto using only_handle_changed_trans.
Qed.

Lemma only_handle_changed_others archive s s' :
  only_handle_changed archive s s' → others_untouched archive s s'.
Proof.
  intros Hch. pose proof Hch as (_ & Hr & Hh). split_and!; [done| |].
  - intros q Hq. by eapply only_handle_changed_lookup.
  - destruct Hh as [E|(h & h' & Hl & E & Ho)]; rewrite E; [done|].
    rewrite lookup_insert_eq. unfold ptr in *. rewrite Hl. simpl. by f_equal.
Qed.

(** X8.  Neither extraction touches the registry or any handle but its
    own, and its own handle stays live and open; a process whose registry
    and heap agree keeps that agreement, whatever the extraction
    returns. *)
Theorem extraction_leaves_other_handles_alone
    archive (filename : option string) s :
  registry_tracks_handles s →
  (∀ data size r s',
     zip_extract_file stale_reads archive filename data size s = Ret r s' →
     others_untouched archive s s' ∧ registry_tracks_handles s')
  ∧ (∀ temp_path buffer_size r s',
       zip_extract_file_to_temp_c stale_reads archive filename temp_path buffer_size s
       = Ret r s' →
       others_untouched archive s s' ∧ registry_tracks_handles s').
Proof.
  intros Hinv. split.
  - intros data size r s'. unfold zip_extract_file.
    intros ([[result d] z] & s1 & [Hk _]%zip_extract_file_internal_keeps
            & [= _ <-])%bind_inv.
    eauto using only_handle_changed_others, only_handle_changed_tracks.
  - intros temp_path buffer_size r s'. unfold zip_extract_file_to_temp_c.
    intros ([result path] & s1 & Hk%zip_extract_file_to_temp_internal_keeps
            & Hret)%bind_inv.
    assert (s1 = s') as <- by (destruct (result && _); by injection Hret).
    eauto using only_handle_changed_others, only_handle_changed_tracks.
Qed.

(* -------------------------------------------------------------- *)
(** ** Catalogue lookup *)
(* -------------------------------------------------------------- *)

Lemma exists_loop_spec (catalogue : list ZipEntry) (name : string) :
  exists_loop catalogue name = true ↔ listed_file catalogue name.
Proof.
  unfold listed_file. induction catalogue as [|e rest IH]; simpl.
  - split; [done|]. by intros (? & ?%elem_of_nil & _).
  - destruct (String.eqb (filename e) name) eqn:Hname; simpl.
    + apply String.eqb_eq in Hname. destruct (is_directory e) eqn:Hdir; simpl.
      * rewrite IH. split.
        -- intros (e' & ? & ? & ?). exists e'. split; [by right|done].
        -- intros (e' & [->|?]%elem_of_cons & ? & ?); [congruence|by exists e'].
      * split; [|done]. intros _. exists e. split; [by left|done].
    + apply String.eqb_neq in Hname. rewrite IH. split.
      * intros (e' & ? & ? & ?). exists e'. split; [by right|done].
      * intros (e' & [->|?]%elem_of_cons & ? & ?); [congruence|by exists e'].
Qed.

(** X9.  [zip_file_exists] changes nothing and answers 1 exactly when the
    handle is not null, is live and open, the name is not null, and some
    entry of the catalogue has exactly that name and is not a directory;
    in every other case it answers 0, unless it reads a deleted
    handle. *)
Theorem zip_file_exists_spec archive (filename : option string) s :
  match zip_file_exists stale_reads archive filename s with
  | Ret rc s' =>
      s' = s ∧ (rc = 0 ∨ rc = 1) ∧
      (rc = 1 ↔ ∃ h name, archive ≠ nullptr ∧ heap s !! archive = Some h ∧
                          is_open h = true ∧ filename = Some name ∧
                          listed_file (entries h) name)
  | Fault f s' =>
      f = UseAfterFree ∧ stale_reads = false ∧
      archive ≠ nullptr ∧ heap s !! archive = None
  end.
Proof.
  unfold zip_file_exists, zip_file_exists_internal.
  destruct (decide (archive = nullptr)) as [->|Hnn].
  { simpl. split_and!; [done|by left|]. split; [done|]. by intros (?&?&?&_). }
  unfold bind at 1. unfold bind at 1. unfold load_is_open.
  destruct (heap s !! archive) as [h|] eqn:Hh.
  2:{ destruct stale_reads; simpl; [|done].
      split_and!; [done|by left|]. split; [done|]. by intros (?&?&_&?&_). }
  destruct (is_open h) eqn:Hopen; simpl.
  2:{ split_and!; [done|by left|]. split; [done|].
      intros (?&?&_&[= <-]&?&_). congruence. }
  destruct filename as [name|]; simpl.
  2:{ split_and!; [done|by left|]. split; [done|]. by intros (?&?&_&_&_&?&_). }
  unfold bind, load, ret. rewrite Hh.
  pose proof (exists_loop_spec (entries h) name) as Hspec.
  destruct (exists_loop (entries h) name).
  - split_and!; [done|by right|]. split; [|done]. intros _.
    exists h, name. split_and!; try done. by apply Hspec.
  - split_and!; [done|by left|]. split; [done|].
    intros (h' & name' & _ & [= <-] & _ & [= <-] & Hl). by apply Hspec in Hl.
Qed.

Lemma find_rom_loop_listed (catalogue : list ZipEntry)
    (supported_extensions : option (list string)) (name : string) :
  find_rom_loop catalogue supported_extensions = Some name →
  listed_file catalogue name.
Proof.
  unfold listed_file. induction catalogue as [|e rest IH]; simpl; [done|].
  assert (Hrest : find_rom_loop rest supported_extensions = Some name →
                  ∃ e', e' ∈ e :: rest ∧ filename e' = name ∧ is_directory e' = false).
  { intros (e' & ? & ?)%IH. exists e'. split; [by right|done]. }
  destruct (is_directory e) eqn:Hdir; [done|].
  destruct (strrchr (filename e) ".") as [ext|]; [|done].
  destruct (match supported_extensions with Some _ => _ | None => _ end); [|done].
  intros [= <-]. exists e. split; [by left|done].
Qed.

Lemma zip_file_exists_live archive h (name : string) s :
  archive ≠ nullptr → heap s !! archive = Some h → is_open h = true →
  zip_file_exists stale_reads archive (Some name) s
  = Ret (if exists_loop (entries h) name then 1 else 0) s.
Proof.
  intros Hnn Hh Hopen. unfold zip_file_exists, zip_file_exists_internal.
  rewrite decide_False by done.
  unfold bind, load_is_open, load, ret. rewrite Hh, Hopen. simpl. by rewrite Hh.
Qed.

(** X10.  A name that [zip_find_rom_in_archive] returns is one that
    [zip_file_exists] confirms on the same handle, and the search leaves
    the process as it was. *)
Theorem found_rom_exists archive (supported_extensions : option (list string))
    (rom_filename name : string) s s' :
  zip_find_rom_in_archive stale_reads archive supported_extensions rom_filename s
  = Ret (true, name) s' →
  s' = s ∧ zip_file_exists stale_reads archive (Some name) s = Ret 1 s.
Proof.
  unfold zip_find_rom_in_archive.
  destruct (decide (archive = nullptr)) as [|Hnn]; [done|].
  unfold bind, load_is_open, load, ret.
  destruct (heap s !! archive) as [h|] eqn:Hh.
  2:{ by destruct stale_reads. }
  destruct (is_open h) eqn:Hopen; simpl; [|done]. rewrite Hh.
  destruct (find_rom_loop (entries h) supported_extensions) as [found|] eqn:Hfind;
    [|done].
  intros [= -> <-]. split; [done|].
  rewrite (zip_file_exists_live _ _ _ _ Hnn Hh Hopen).
  apply find_rom_loop_listed, exists_loop_spec in Hfind. by rewrite Hfind.
Qed.

(* -------------------------------------------------------------- *)
(** ** A handle after its close *)
(* -------------------------------------------------------------- *)

(** X11.  After [zip_close_archive] the object of the handle is gone, and
    every later call on the same pointer starts by reading it: a second
    close, [zip_file_exists], [zip_extract_file] and
    [zip_find_rom_in_archive] are each a use after free.  If that read
    goes through and sees the cleared flag, each of them fails, or does
    nothing, without a further effect. *)
Theorem handle_is_dangling_after_close
    archive h (name : option string) (data : option (option buffer))
    (size : option Z) (exts : option (list string)) (rom : string) s s' :
  archive ≠ nullptr → heap s !! archive = Some h → is_open h = true →
  zip_close_archive stale_reads archive s = Ret tt s' →
  heap s' !! archive = None ∧
  if stale_reads then
    zip_close_archive stale_reads archive s' = Ret tt s' ∧
    zip_file_exists stale_reads archive name s' = Ret 0 s' ∧
    zip_extract_file stale_reads archive name data size s' = Ret (0, data, size) s' ∧
    zip_find_rom_in_archive stale_reads archive exts rom s' = Ret (false, rom) s'
  else
    zip_close_archive stale_reads archive s' = Fault UseAfterFree s' ∧
    zip_file_exists stale_reads archive name s' = Fault UseAfterFree s' ∧
    zip_extract_file stale_reads archive name data size s' = Fault UseAfterFree s' ∧
    zip_find_rom_in_archive stale_reads archive exts rom s' = Fault UseAfterFree s'.
Proof.
  intros Hnn Hh Hopen. rewrite (zip_close_archive_live _ _ _ Hnn Hh Hopen).
  intros [= <-].
  set (s' := mk_state _ _ _ _ _).
  assert (Hgone : heap s' !! archive = None) by apply lookup_delete_eq.
  split; [done|].
  unfold zip_close_archive, zip_file_exists, zip_file_exists_internal,
    zip_extract_file, zip_extract_file_internal, zip_find_rom_in_archive.
  rewrite !decide_False by done.
  unfold bind, load_is_open. rewrite Hgone.
  by destruct stale_reads.
Qed.

(* -------------------------------------------------------------- *)
(** ** Open, search, extract, close in one call *)
(* -------------------------------------------------------------- *)

Lemma zip_find_rom_in_archive_reads_only
    archive (supported_extensions : option (list string)) (rom_filename : string)
    s r s' :
  zip_find_rom_in_archive stale_reads archive supported_extensions rom_filename s
  = Ret r s' → s' = s.
Proof.
  unfold zip_find_rom_in_archive.
  destruct (decide (archive = nullptr)); [by intros [= _ <-]|].
  unfold bind, load_is_open, load, ret.
  destruct (heap s !! archive) as [h|] eqn:Hh.
  - destruct (is_open h); simpl; [|by intros [= _ <-]]. rewrite Hh.
    by destruct (find_rom_loop _ _); intros [= _ <-].
  - destruct stale_reads; [|done]. by intros [= _ <-].
Qed.

(** Closing the handle that was opened last, after operations that
    changed at most its own content, gives back the handles and the
    registry content from before the open. *)
Lemma close_undoes_open p h3 s s3 :
  registry_tracks_handles s → heap s !! p = None →
  registry_tracks_handles s3 → heap s3 = <[p := h3]> (heap s) →
  vector.elements (g_open_archives s3) = vector.elements (g_open_archives s) ++ [p] →
  ∃ s', zip_close_archive stale_reads p s3 = Ret tt s' ∧
        heap s' = heap s ∧
        (∀ q, q ∈ vector.elements (g_open_archives s')
              ↔ q ∈ vector.elements (g_open_archives s)) ∧
        temp_counter s' = temp_counter s3 ∧ fs s' = fs s3 ∧
        registry_tracks_handles s'.
Proof.
  intros Hinv Hfresh Hinv3 Hheap Helems.
  assert (Hh : heap s3 !! p = Some h3) by (rewrite Hheap; apply lookup_insert_eq).
  destruct (zip_close_archive_tracked _ _ _ Hinv3 Hh)
    as (_ & s' & Hclose & Hheap' & Hmem & _ & Hcount & Hfs & Hinv').
  exists s'. split_and!; try done.
  - rewrite Hheap', Hheap. by apply delete_insert_id.
  - intros q. rewrite Hmem, Helems, elem_of_app, list_elem_of_singleton.
    destruct Hinv as (_ & _ & Htrack & _).
    split; [intros [[?| ->] ?]; done|].
    intros Hq. split; [by left|]. intros ->.
    apply Htrack in Hq as [x Hx]. unfold ptr in *. congruence.
Qed.

Lemma zip_extract_rom_to_temp_tracked
    (zip_path : option string) (supported_extensions : option (list string))
    (temp_rom_path : string) s r s' :
  registry_tracks_handles s →
  zip_extract_rom_to_temp stale_reads zip_path supported_extensions temp_rom_path s
  = Ret r s' →
  heap s' = heap s ∧
  (∀ q, q ∈ vector.elements (g_open_archives s')
        ↔ q ∈ vector.elements (g_open_archives s)) ∧
  registry_tracks_handles s'.
Proof.
  intros Hinv. unfold zip_extract_rom_to_temp.
  intros (p & s1 & Hopen & Hrun)%bind_inv.
  destruct (zip_open_archive_tracked _ _ _ _ Hinv Hopen)
    as [[-> ->]|(path & h & _ & _ & _ & -> & Hnn & Hfresh & Hheap & Hhopen & _ & _
                 & Helems & _ & _ & Hinv1)].
  { rewrite decide_True in Hrun by done. by injection Hrun as _ <-. }
  rewrite decide_False in Hrun by done.
  apply bind_inv in Hrun as ([found rom] & s2 & ->%zip_find_rom_in_archive_reads_only
                             & Hrun).
  destruct found; cbn [negb] in Hrun.
  - apply bind_inv in Hrun as ([success path'] & s3 & Hext & Hrun).
    apply zip_extract_file_to_temp_internal_keeps in Hext as Hkeep.
    pose proof (only_handle_changed_tracks _ _ _ Hinv1 Hkeep) as Hinv3.
    destruct Hkeep as (_ & Hreg & Hh3).
    assert (∃ h3, heap s3 = <[next_addr s := h3]> (heap s)) as [h3 Hheap3].
    { destruct Hh3 as [E|(? & h3 & _ & E & _)]; rewrite E, Hheap; [by eexists|].
      exists h3. by rewrite insert_insert_eq. }
    destruct (close_undoes_open _ h3 s s3 Hinv Hfresh Hinv3 Hheap3)
      as (s4 & Hclose & ? & ? & _ & _ & ?); [by rewrite Hreg|].
    apply bind_inv in Hrun as ([] & s4' & Hclose' & [= _ <-]).
    rewrite Hclose in Hclose'. by injection Hclose' as <-.
  - destruct (close_undoes_open _ h s s1 Hinv Hfresh Hinv1 Hheap Helems)
      as (s4 & Hclose & ? & ? & _ & _ & ?).
    apply bind_inv in Hrun as ([] & s4' & Hclose' & [= _ <-]).
    rewrite Hclose in Hclose'. by injection Hclose' as <-.
Qed.

(** X12.  [zip_extract_rom_to_temp_c] leaves no handle behind: whatever it
    returns, the handles and the content of the registry are those from
    before the call, and a process whose registry and heap agreed still
    has them agree. *)
Theorem zip_extract_rom_to_temp_c_closes_its_handle
    (zip_path : option string) (supported_extensions : option (list string))
    (temp_rom_path : string) (buffer_size : N) s r s' :
  registry_tracks_handles s →
  zip_extract_rom_to_temp_c stale_reads zip_path supported_extensions
    temp_rom_path buffer_size s = Ret r s' →
  heap s' = heap s ∧
  (∀ q, q ∈ vector.elements (g_open_archives s')
        ↔ q ∈ vector.elements (g_open_archives s)) ∧
  registry_tracks_handles s'.
Proof.
  intros Hinv. unfold zip_extract_rom_to_temp_c.
  intros ([result path] & s1 & Hrun & Hret)%bind_inv.
  assert (s1 = s') as <- by (destruct (result && _); by injection Hret).
  by eapply zip_extract_rom_to_temp_tracked.
Qed.

(* -------------------------------------------------------------- *)
(** ** More on the scratch-file writer *)
(* -------------------------------------------------------------- *)

Lemma pretty_N_go_no_underscore (x : N) (acc : string) :
  has_char "_" acc = false → has_char "_" (pretty_N_go x acc) = false.
Proof.
  revert acc. induction (N.lt_wf_0 x) as [x _ IH]; intros acc Hacc.
  destruct (decide (x = 0)%N) as [->|Hx]; [by rewrite pretty_N_go_0|].
  rewrite pretty_N_go_step by lia. apply IH.
  - apply N.div_lt; lia.
  - simpl. rewrite Hacc, orb_false_r. unfold pretty_N_char.
    by repeat case_match.
Qed.

(** [std::to_string] of an [int] holds no underscore. *)
Lemma to_string_no_underscore (n : Z) : has_char "_" (to_string n) = false.
Proof.
  assert (Hpos : ∀ q : positive, has_char "_" (pretty (N.pos q)) = false).
  { intros q. unfold pretty, pretty_N. rewrite decide_False by done.
    by apply pretty_N_go_no_underscore. }
  unfold to_string, pretty, pretty_Z. destruct n as [|q|q]; [done|apply Hpos|].
  simpl. apply Hpos.
Qed.

Lemma split_at_first_underscore (a a' b b' : string) :
  has_char "_" a = false → has_char "_" a' = false →
  a +:+ "_" +:+ b = a' +:+ "_" +:+ b' → a = a' ∧ b = b'.
Proof.
  revert a'. induction a as [|c a IH]; intros [|c' a'];
    cbn [String.append has_char].
  - intros _ _ [= Heq]. split; [done|exact Heq].
  - intros _ [Hc _]%orb_false_iff [= <- _]. by rewrite Ascii.eqb_refl in Hc.
  - intros [Hc _]%orb_false_iff _ [= -> _]. by rewrite Ascii.eqb_refl in Hc.
  - intros [_ Ha]%orb_false_iff [_ Ha']%orb_false_iff [= -> Heq].
    destruct (IH a' Ha Ha' Heq) as [-> ->]. done.
Qed.

(** The counter can be read back from a scratch path. *)
Lemma scratch_path_counter (c1 c2 : Z) (name1 name2 : string) :
  scratch_path c1 name1 = scratch_path c2 name2 →
  c1 = c2 ∧ base_filename name1 = base_filename name2.
Proof.
  unfold scratch_path. intros Heq.
  apply string_app_inv_head, string_app_inv_head in Heq.
  apply split_at_first_underscore in Heq as [Hc Hb];
    [|apply to_string_no_underscore..].
  split; [|done]. by apply (inj pretty) in Hc.
Qed.

Lemma string_drop_app (a b : string) :
  string_drop (String.length a) (a +:+ b) = b.
Proof. induction a as [|c a IH]; [by destruct b|exact IH]. Qed.

Lemma up_to_app (c : ascii) (a b : string) :
  has_char c a = false → up_to c (a +:+ String c b) = a.
Proof.
  induction a as [|x a IH].
  - intros _. change (EmptyString +:+ String c b) with (String c b).
    cbn [up_to]. by rewrite Ascii.eqb_refl.
  - cbn [has_char]. intros [Hx Ha]%orb_false_iff.
    change (String x a +:+ String c b) with (String x (a +:+ String c b)).
    cbn [up_to]. rewrite Hx. by rewrite IH.
Qed.

(** The counter field of a composed scratch path is the decimal text of
    the counter. *)
Lemma scratch_path_counter_field (counter : Z) (name : string) :
  counter_field (scratch_path counter name) = to_string counter.
Proof.
  unfold counter_field, scratch_path, zip_get_temp_dir.
  replace (TEMP_DIR +:+ "temp_" +:+ to_string counter +:+ "_" +:+ base_filename name)
    with ((TEMP_DIR +:+ "temp_")
          +:+ to_string counter +:+ String "_" (base_filename name))
    by reflexivity.
  rewrite string_drop_app. apply up_to_app, to_string_no_underscore.
Qed.

(** X13.  No two successful scratch extractions of a process write to the
    same path, whatever handles and entry names they are given.  The
    later one leaves a greater counter value; the decimal text of the
    counter value an extraction leaves stands in its path between the
    prefix [TEMP_DIR ++ "temp_"] and the first ['_'] after it, so it can
    be read back from the path; the two counter fields differ, and so do
    the two paths. *)
Theorem scratch_paths_never_collide
    archive archive' (filename filename' : option string) (tp tp' p p' : string)
    s s1 s1' s2 :
  zip_extract_file_to_temp_internal stale_reads archive filename tp s
  = Ret (true, p) s1 →
  temp_counter s1 ≤ temp_counter s1' →
  zip_extract_file_to_temp_internal stale_reads archive' filename' tp' s1'
  = Ret (true, p') s2 →
  temp_counter s1 < temp_counter s2 ∧
  counter_field p = to_string (temp_counter s1) ∧
  counter_field p' = to_string (temp_counter s2) ∧
  counter_field p ≠ counter_field p' ∧
  p ≠ p'.
Proof.
  intros (_ & _ & name & _ & _ & _ & _ & _ & _ & _ & _ & Hc & -> & _)
           %zip_extract_file_to_temp_internal_true Hle
         (_ & _ & name' & _ & _ & _ & _ & _ & _ & _ & _ & Hc' & -> & _)
           %zip_extract_file_to_temp_internal_true.
  rewrite !scratch_path_counter_field. split_and!; try done.
  - lia.
  - unfold to_string. intros Heq%(inj pretty). lia.
  - intros [Heq _]%scratch_path_counter. lia.
Qed.

(** X14.  A scratch extraction that fails has done one of two things.
    Either the extraction to memory failed: then the caller's path, the
    counter and the storage are as before.  Or the extraction to memory
    succeeded: then the counter has moved on by one, the path returned is
    the composed scratch path, and either the file could not be opened, or
    it was created and the write returned another count than the size of
    the entry; the file is not removed. *)
Theorem zip_extract_file_to_temp_internal_failure
    archive (filename : option string) (temp_path p : string) s s' :
  zip_extract_file_to_temp_internal stale_reads archive filename temp_path s
  = Ret (false, p) s' →
  (p = temp_path ∧ temp_counter s' = temp_counter s ∧ fs s' = fs s ∧
   ∃ d z s1, zip_extract_file_internal stale_reads archive filename
               (Some None) (Some 0) s = Ret (false, d, z) s1)
  ∨ (∃ name f1 fd f2,
       filename = Some name ∧
       temp_counter s' = temp_counter s + 1 ∧
       p = scratch_path (temp_counter s') name ∧
       (sceIoMkdir (fs s) TEMP_DIR sce.mode_0777).2 = f1 ∧
       sceIoOpen f1 p open_flags sce.mode_0777 = (fd, f2) ∧
       ((fd < 0 ∧ fs s' = f2)
        ∨ (0 ≤ fd ∧
           ∃ bytes written f3,
             sceIoWrite f2 fd bytes (Z.of_nat (length bytes)) = (written, f3) ∧
             written ≠ Z.of_nat (length bytes) ∧
             fs s' = (sceIoClose f3 fd).2))).
Proof.
  unfold zip_extract_file_to_temp_internal. unfold bind at 1.
  pose proof (zip_extract_file_internal_outcomes archive filename
                (Some None) (Some 0) s) as Hout.
  destruct (zip_extract_file_internal _ _ _ _ _ _)
    as [[[extracted data_cell] size_cell] s1|f s1] eqn:Hext; [|done].
  destruct Hout as [(Hna & Hreg & Hcount & Hfs) Hout].
  destruct extracted; cbn [negb].
  2:{ intros [= <- <-]. left. split_and!; eauto. }
  destruct Hout as [(_&?&_)|[(_&?&_)|(_&_&Hout)]]; [done..|].
  destruct Hout as (h & uf & name & info & bytes & Hh & Hs & -> & Hcodec
                    & -> & -> & Hlen & _).
  rewrite length_fmap in Hlen. cbn [default id]. rewrite buffer_bytes_fmap.
  unfold bind, on_fs, next_counter. simpl.
  destruct (sceIoMkdir (fs s1) zip_get_temp_dir sce.mode_0777) as [rc_mk f1] eqn:Emk.
  simpl. destruct (temp_counter s1 <? INT_MAX) eqn:Emax; [|done]. simpl.
  destruct (sceIoOpen f1 _ open_flags sce.mode_0777) as [fd f2] eqn:Eopen.
  simpl. unfold zip_get_temp_dir in Emk. rewrite Hfs in Emk.
  rewrite Hcount in Eopen.
  destruct (fd <? 0) eqn:Efd; simpl.
  { unfold ret. intros [= <- <-]. right. exists name, f1, fd, f2. simpl.
    rewrite Emk, Hcount. split_and!; try done. left. split; [lia|done]. }
  destruct (sceIoWrite f2 fd bytes _) as [written f3] eqn:Ewrite. simpl.
  destruct (sceIoClose f3 fd) as [rc_cl f4] eqn:Eclose. simpl.
  unfold ret. intros [= Hw <- <-]. right. exists name, f1, fd, f2. simpl.
  rewrite Emk, Hcount. split_and!; try done. right. split; [lia|].
  exists bytes, written, f3. rewrite Hlen, Ewrite, Eclose.
  split_and!; try done. lia.
Qed.

(* -------------------------------------------------------------- *)
(** ** More on the catalogue built at open time *)
(* -------------------------------------------------------------- *)

(** X15.  An archive on whose first entry the cursor cannot be put is
    opened all the same: the handle is returned and its catalogue is
    empty, so no name exists in it and no ROM is found in it. *)
Theorem zip_open_archive_unlistable
    (path : string) uf (name : string) (exts : option (list string)) (rom : string) s :
  zip_is_archive (Some path) ≠ 0 → unzOpen path = Some uf →
  (unzGoToFirstFile uf).1 ≠ unz.UNZ_OK →
  next_addr s ≠ nullptr →
  ∃ s', zip_open_archive stale_reads (Some path) s = Ret (next_addr s) s' ∧
        (entries <$> heap s' !! next_addr s) = Some [] ∧
        zip_file_exists stale_reads (next_addr s) (Some name) s' = Ret 0 s' ∧
        zip_find_rom_in_archive stale_reads (next_addr s) exts rom s'
        = Ret (false, rom) s'.
Proof.
  intros Hzip Hopen Hfirst Hnn. unfold zip_open_archive.
  apply Z.eqb_neq in Hzip. rewrite Hzip, Hopen.
  set (h0 := mk_handle (Some uf) path true []).
  set (s1 := mk_state (<[next_addr s := h0]> (heap s)) (next_addr s + 1)%N
                      (g_open_archives s) (temp_counter s) (fs s)).
  rewrite (bind_Ret (new_handle h0) _ (next_addr s) s s1) by done.
  assert (Hh0 : heap s1 !! next_addr s = Some h0) by apply lookup_insert_eq.
  assert (Hlist : zip_list_contents_internal stale_reads (next_addr s) s1
                  = Ret false (set_heap (<[next_addr s :=
                      mk_handle (Some (unzGoToFirstFile uf).2) path true []]>
                                           (heap s1)) s1)).
  { unfold zip_list_contents_internal. rewrite decide_False by done.
    rewrite (bind_Ret _ _ _ _ _ (load_is_open_live _ _ _ Hh0)). cbn [h0 is_open negb].
    rewrite (bind_Ret _ _ _ _ _ (load_live _ _ _ Hh0)).
    rewrite (bind_Ret _ _ _ _ _ (store_live _ _ _ _ Hh0)).
    cbn [h0 handle archive_path is_open].
    destruct (unzGoToFirstFile uf) as [rc uf0]. cbn [fst snd] in *.
    apply Z.eqb_neq in Hfirst. rewrite Hfirst. cbn [negb].
    unfold bind, store, ret. cbn [heap set_heap]. rewrite lookup_insert_eq.
    by rewrite insert_insert_eq. }
  rewrite (bind_Ret _ _ _ _ _ Hlist). unfold bind, registry_push, ret.
  eexists. split; [done|].
  set (h := mk_handle _ path true []).
  set (s' := set_registry _ _).
  assert (Hh : heap s' !! next_addr s = Some h) by apply lookup_insert_eq.
  split_and!.
  - unfold ptr in *. by rewrite Hh.
  - by rewrite (zip_file_exists_live _ _ _ _ Hnn Hh eq_refl).
  - unfold zip_find_rom_in_archive. rewrite decide_False by done.
    rewrite (bind_Ret _ _ _ _ _ (load_is_open_live _ _ _ Hh)). cbn [h is_open negb].
    by rewrite (bind_Ret _ _ _ _ _ (load_live _ _ _ Hh)).
Qed.

Lemma zip_open_archive_by_catalogue (path : string) uf uf0 s :
  zip_is_archive (Some path) ≠ 0 → unzOpen path = Some uf →
  unzGoToFirstFile uf = (unz.UNZ_OK, uf0) →
  next_addr s ≠ nullptr →
  match collect (entry_at <$> filter (λ u, metadata_readable u = true) (positions uf0)) with
  | Done es =>
      ∃ s', zip_open_archive stale_reads (Some path) s = Ret (next_addr s) s' ∧
            (entries <$> heap s' !! next_addr s) = Some es
  | Crash f => ∃ s', zip_open_archive stale_reads (Some path) s = Fault f s'
  end.
Proof.
  intros Hzip Hopen Hfirst Hnn. unfold zip_open_archive.
  apply Z.eqb_neq in Hzip. rewrite Hzip, Hopen.
  set (h0 := mk_handle (Some uf) path true []).
  set (s1 := mk_state (<[next_addr s := h0]> (heap s)) (next_addr s + 1)%N
                      (g_open_archives s) (temp_counter s) (fs s)).
  rewrite (bind_Ret (new_handle h0) _ (next_addr s) s s1) by done.
  assert (Hh0 : heap s1 !! next_addr s = Some h0) by apply lookup_insert_eq.
  pose proof (zip_list_contents_internal_live (next_addr s) h0 uf uf0 s1
                Hnn Hh0 eq_refl eq_refl Hfirst) as Hlist.
  unfold catalogue_of in Hlist.
  destruct (collect _) as [es|f].
  - destruct Hlist as [uf' Hlist]. eexists.
    rewrite (bind_Ret _ _ _ _ _ Hlist). unfold bind, registry_push, ret.
    split; [done|]. simpl. by rewrite lookup_insert_eq.
  - destruct Hlist as [s' Hlist]. exists s'.
    by rewrite (bind_Fault _ _ _ _ _ Hlist).
Qed.

(** X16.  The catalogue a handle gets at open time holds, in the order of
    the cursor, the entries of all the positions whose metadata can be
    read, and nothing else. *)
Theorem zip_open_archive_catalogue (path : string) uf uf0 s :
  zip_is_archive (Some path) ≠ 0 → unzOpen path = Some uf →
  unzGoToFirstFile uf = (unz.UNZ_OK, uf0) →
  next_addr s ≠ nullptr →
  match collect (entry_at <$> filter (λ u, metadata_readable u = true) (positions uf0)) with
  | Done es =>
      ∃ s', zip_open_archive stale_reads (Some path) s = Ret (next_addr s) s' ∧
            (entries <$> heap s' !! next_addr s) = Some es
  | Crash f => ∃ s', zip_open_archive stale_reads (Some path) s = Fault f s'
  end.
Proof. exact (zip_open_archive_by_catalogue path uf uf0 s). Qed.

(* -------------------------------------------------------------- *)
(** ** When the listing reads past the name buffer *)
(* -------------------------------------------------------------- *)

Lemma collect_cases {A} (l : list (outcome A)) :
  (∃ r, collect l = Done r ∧ ∀ x, x ∈ l → ∃ a, x = Done a)
  ∨ (∃ f, collect l = Crash f ∧ Crash f ∈ l).
Proof.
  induction l as [|[a|f] l IH]; cbn [collect].
  - left. exists []. split; [done|]. by intros x ?%elem_of_nil.
  - destruct IH as [(r & -> & Hall)|(f & -> & Hin)].
    + left. exists (a :: r). split; [done|].
      intros x [->|Hx]%elem_of_cons; [by exists a|by apply Hall].
    + right. exists f. split; [done|]. apply elem_of_cons. by right.
  - right. exists f. split; [done|]. apply elem_of_cons. by left.
Qed.

(** X17.  [zip_open_archive] on a container the codec opened ends in a
    fault exactly when some entry of the archive with readable metadata
    leaves a name buffer without terminator (a name of 512 characters or
    more) or with the terminator first (an empty name); the fault is a
    read out of the bounds of the name buffer.  In every other case it
    returns the handle. *)
Theorem zip_open_archive_faults_on_unusable_name (path : string) uf uf0 s :
  zip_is_archive (Some path) ≠ 0 → unzOpen path = Some uf →
  unzGoToFirstFile uf = (unz.UNZ_OK, uf0) →
  next_addr s ≠ nullptr →
  ((∃ f s', zip_open_archive stale_reads (Some path) s = Fault f s') ↔
   ∃ u info buf,
     u ∈ positions uf0 ∧
     unzGetCurrentFileInfo u MAX_FILENAME_LENGTH = (unz.UNZ_OK, info, buf) ∧
     unusable_name buf) ∧
  (∀ f s', zip_open_archive stale_reads (Some path) s = Fault f s' →
           f = OutOfBounds) ∧
  ((∃ s', zip_open_archive stale_reads (Some path) s = Ret (next_addr s) s')
   ∨ ∃ f s', zip_open_archive stale_reads (Some path) s = Fault f s').
Proof.
  intros Hzip Hopen Hfirst Hnn.
  pose proof (zip_open_archive_by_catalogue path uf uf0 s Hzip Hopen Hfirst Hnn)
    as Hcat.
  assert (Hentry : ∀ u f, entry_at u = Crash f →
            f = OutOfBounds ∧
            ∃ rc info buf,
              unzGetCurrentFileInfo u MAX_FILENAME_LENGTH = (rc, info, buf) ∧
              unusable_name buf).
  { intros u f. unfold entry_at.
    destruct (unzGetCurrentFileInfo u MAX_FILENAME_LENGTH) as [[rc info] buf] eqn:Einfo.
    pose proof (unzGetCurrentFileInfo_buffer _ _ _ _ _ Einfo) as Hsize.
    destruct (make_entry_crash info buf Hsize) as [Hkind Hiff].
    intros Hcrash. split; [by eapply Hkind|].
    exists rc, info, buf. split; [done|]. apply Hiff. by exists f. }
  destruct (collect_cases
              (entry_at <$> filter (λ u, metadata_readable u = true) (positions uf0)))
    as [(es & Hes & Hall)|(f0 & Hf0 & Hin)]; rewrite ?Hes, ?Hf0 in Hcat.
  - destruct Hcat as (s1 & Hrun & _). split_and!.
    + split; [intros (f & s' & Hfault); congruence|].
      intros (u & info & buf & Hu & Hinfo & Hbad). exfalso.
      destruct (Hall (entry_at u)) as [e He].
      { apply list_elem_of_fmap_2, list_elem_of_filter. split; [|done].
        unfold metadata_readable. by rewrite Hinfo. }
      unfold entry_at in He. rewrite Hinfo in He.
      pose proof (unzGetCurrentFileInfo_buffer _ _ _ _ _ Hinfo) as Hsize.
      destruct (make_entry_crash info buf Hsize) as [_ Hiff].
      apply Hiff in Hbad as [f Hf]. congruence.
    + intros f s' Hfault. congruence.
    + left. by exists s1.
  - destruct Hcat as (s1 & Hrun).
    apply list_elem_of_fmap in Hin as (u & Hcrash & Hu).
    apply list_elem_of_filter in Hu as [Hread Hu].
    symmetry in Hcrash.
    destruct (Hentry u f0 Hcrash) as (-> & rc & info & buf & Hinfo & Hbad).
    unfold metadata_readable in Hread. rewrite Hinfo in Hread.
    apply Z.eqb_eq in Hread. cbn [fst] in Hread. subst rc.
    split_and!.
    + split; [|by intros _; exists OutOfBounds, s1].
      intros _. by exists u, info, buf.
    + intros f s' Hfault. congruence.
    + right. by exists OutOfBounds, s1.
Qed.

(* -------------------------------------------------------------- *)
(** ** The container test and the extension lists *)
(* -------------------------------------------------------------- *)

(** X18.  [zip_is_archive] returns 1 exactly for the names that end in
    [".zip"], letter case ignored, and 0 for every other name and for the
    null pointer. *)
Theorem zip_is_archive_ends_in_zip (filename : option string) :
  (∀ name, filename = Some name → is_cstring name = true) →
  (zip_is_archive filename = 1 ∨ zip_is_archive filename = 0) ∧
  (zip_is_archive filename = 1 ↔
   ∃ name, filename = Some name ∧ ends_with_nocase name ".zip").
Proof.
  intros Hc. destruct filename as [name|].
  - destruct (zip_is_archive_spec name (Hc name eq_refl)) as [Hval Hiff].
    split.
    + rewrite Hval. destruct (decide _); [by left|by right].
    + rewrite Hiff. split; [by exists name|by intros (? & [= <-] & ?)].
  - split; [by right|]. split; [done|by intros (? & ? & _)].
Qed.

Lemma find_rom_loop_default (catalogue : list ZipEntry) :
  find_rom_loop catalogue None = find_rom_loop catalogue (Some supported_exts).
Proof.
  induction catalogue as [|e rest IH]; cbn [find_rom_loop]; [done|].
  destruct (is_directory e); [done|].
  unfold zip_is_supported_extension_internal.
  destruct (strrchr (filename e) ".") as [ext|]; [|done].
  by rewrite IH.
Qed.

Lemma find_rom_loop_empty (catalogue : list ZipEntry) :
  find_rom_loop catalogue (Some []) = None.
Proof.
  induction catalogue as [|e rest IH]; cbn [find_rom_loop]; [done|].
  destruct (is_directory e); [done|].
  by destruct (strrchr (filename e) ".").
Qed.

(** X19.  For [zip_find_rom_in_archive] a null extension list means the
    twelve extensions of [zip_is_supported_extension_internal]: the search
    gives what it gives with those twelve passed by the caller.  With an
    empty list the search finds nothing and leaves [rom_filename] as it
    was. *)
Theorem zip_find_rom_in_archive_extension_lists archive (rom_filename : string) s :
  zip_find_rom_in_archive stale_reads archive None rom_filename s
  = zip_find_rom_in_archive stale_reads archive (Some supported_exts) rom_filename s
  ∧ match zip_find_rom_in_archive stale_reads archive (Some []) rom_filename s with
    | Ret r s' => r = (false, rom_filename) ∧ s' = s
    | Fault f s' =>
        f = UseAfterFree ∧ stale_reads = false ∧
        archive ≠ nullptr ∧ heap s !! archive = None
    end.
Proof.
  unfold zip_find_rom_in_archive.
  destruct (decide (archive = nullptr)); [done|].
  unfold bind, load_is_open, load, ret.
  destruct (heap s !! archive) as [h|] eqn:Hh.
  - destruct (is_open h); cbn [negb]; [|done]. rewrite Hh.
    by rewrite find_rom_loop_default, find_rom_loop_empty.
  - by destruct stale_reads.
Qed.

(* -------------------------------------------------------------- *)
(** ** Catalogues are fixed at open time *)
(* -------------------------------------------------------------- *)

Lemma sessions_moved_trans s1 s2 s3 :
  sessions_moved s1 s2 → sessions_moved s2 s3 → sessions_moved s1 s3.
Proof. intros H12 H23 p. by rewrite H23, H12. Qed.

Lemma on_session_moves {A} archive (null_answer : A) call s a s' :
  on_session archive null_answer call s = Ret a s' → sessions_moved s s'.
Proof.
  unfold on_session, bind, load, store, ret.
  destruct (heap s !! archive) as [h|] eqn:Hh; [|done].
  destruct (handle h) as [uf|]; [|by intros [= <- <-]].
  destruct (call uf) as [a' uf']. rewrite Hh. intros [= <- <-] p.
  cbn [set_heap heap]. unfold ptr in *.
  destruct (decide (p = archive)) as [->|Hne].
  - by rewrite lookup_insert_eq, Hh.
  - by rewrite lookup_insert_ne.
Qed.

Lemma zip_extract_file_internal_moves
    archive (filename : option string) (data : option (option buffer))
    (size : option Z) s r s' :
  zip_extract_file_internal stale_reads archive filename data size s = Ret r s' →
  sessions_moved s s'.
Proof.
  unfold zip_extract_file_internal.
  destruct (decide (archive = nullptr)); [by intros [= <- <-]|].
  intros (opened & s0 & Hopen & Hrun)%bind_inv.
  assert (s0 = s) as ->.
  { unfold load_is_open in Hopen. destruct (heap s !! archive); [by injection Hopen|].
    destruct stale_reads; [by injection Hopen|done]. }
  destruct (negb opened); [by injection Hrun as <- <-|].
  destruct filename as [name|], data as [d0|], size as [z0|];
    try by injection Hrun as <- <-.
  apply bind_inv in Hrun as (rc1 & s1 & H1%on_session_moves & Hrun).
  destruct (negb (rc1 =? unz.UNZ_OK)); [by injection Hrun as <- <-|].
  apply bind_inv in Hrun as ([[rc2 info] buf] & s2 & H2%on_session_moves & Hrun).
  pose proof (sessions_moved_trans _ _ _ H1 H2) as H12.
  destruct (negb (rc2 =? unz.UNZ_OK)); [by injection Hrun as <- <-|].
  apply bind_inv in Hrun as (rc3 & s3 & H3%on_session_moves & Hrun).
  pose proof (sessions_moved_trans _ _ _ H12 H3) as H13.
  destruct (negb (rc3 =? unz.UNZ_OK)); [by injection Hrun as <- <-|].
  destruct (to_long (unz.uncompressed_size info) <? 0); [done|].
  apply bind_inv in Hrun as ([count bytes] & s4 & H4%on_session_moves & Hrun).
  pose proof (sessions_moved_trans _ _ _ H13 H4) as H14.
  apply bind_inv in Hrun as (rc5 & s5 & H5%on_session_moves & Hrun).
  pose proof (sessions_moved_trans _ _ _ H14 H5) as H15.
  destruct (negb (count =? _)); by injection Hrun as <- <-.
Qed.

Lemma zip_extract_file_to_temp_internal_moves
    archive (filename : option string) (temp_path : string) s r s' :
  zip_extract_file_to_temp_internal stale_reads archive filename temp_path s
  = Ret r s' →
  sessions_moved s s'.
Proof.
  unfold zip_extract_file_to_temp_internal.
  intros ([[extracted d] z] & s1 & H1%zip_extract_file_internal_moves
          & Hrun)%bind_inv.
  destruct (negb extracted); [by injection Hrun as <- <-|].
  assert (Hfs : ∀ A (call : FS → A * FS) (t : state unzFile FS) a t',
    on_fs call t = Ret a t' → heap t' = heap t).
  { intros A call t a t'. unfold on_fs. destruct (call (fs t)).
    by intros [= <- <-]. }
  apply bind_inv in Hrun as (? & s2 & H2%Hfs & Hrun).
  apply bind_inv in Hrun as (counter & s3 & H3 & Hrun).
  assert (heap s3 = heap s2) as H3'.
  { unfold next_counter in H3. destruct (temp_counter s2 <? INT_MAX); [|done].
    by injection H3 as <- <-. }
  destruct filename as [name|]; [|done].
  apply bind_inv in Hrun as (fd & s4 & H4%Hfs & Hrun).
  assert (Hheap : heap s4 = heap s1) by congruence.
  destruct (fd <? 0).
  { injection Hrun as <- <-. intros p. rewrite Hheap. apply H1. }
  apply bind_inv in Hrun as (? & s5 & H5%Hfs & Hrun).
  apply bind_inv in Hrun as (? & s6 & H6%Hfs & Hrun).
  injection Hrun as <- <-. intros p.
  replace (heap s6) with (heap s1) by congruence. apply H1.
Qed.

(** The lookups read nothing of a handle but its flag and its
    catalogue. *)
Lemma lookups_read_no_session archive (name : option string)
    (exts : option (list string)) (rom : string) s s' :
  sessions_moved s s' →
  answer (zip_file_exists stale_reads archive name s')
  = answer (zip_file_exists stale_reads archive name s) ∧
  answer (zip_find_rom_in_archive stale_reads archive exts rom s')
  = answer (zip_find_rom_in_archive stale_reads archive exts rom s).
Proof.
  intros Hmoved. specialize (Hmoved archive).
  unfold zip_file_exists, zip_file_exists_internal, zip_find_rom_in_archive.
  destruct (decide (archive = nullptr)); [done|].
  unfold bind, load_is_open, load, ret. unfold ptr in *.
  destruct (heap s !! archive) as [h|] eqn:Hh,
           (heap s' !! archive) as [h'|] eqn:Hh';
    try discriminate Hmoved.
  - injection Hmoved as _ Hopen Hentries. rewrite Hopen.
    destruct (is_open h); cbn [negb answer]; [|done].
    split.
    + destruct name as [nm|]; [|done]. by rewrite Hh, Hh', Hentries.
    + rewrite Hh, Hh', Hentries. by destruct (find_rom_loop (entries h) exts).
  - by destruct stale_reads.
Qed.

(** X20.  An extraction changes no catalogue: after [zip_extract_file] or
    [zip_extract_file_to_temp_c], whatever it returns, the same handles
    are live, each with the path, the flag and the entries it had, so
    [zip_file_exists] and [zip_find_rom_in_archive] answer on every
    pointer as they did before. *)
Theorem extraction_keeps_catalogues
    archive (filename : option string) s :
  (∀ data size r s',
     zip_extract_file stale_reads archive filename data size s = Ret r s' →
     sessions_moved s s' ∧
     ∀ q name exts rom,
       answer (zip_file_exists stale_reads q name s')
       = answer (zip_file_exists stale_reads q name s) ∧
       answer (zip_find_rom_in_archive stale_reads q exts rom s')
       = answer (zip_find_rom_in_archive stale_reads q exts rom s))
  ∧ (∀ temp_path buffer_size r s',
       zip_extract_file_to_temp_c stale_reads archive filename temp_path buffer_size s
       = Ret r s' →
       sessions_moved s s' ∧
       ∀ q name exts rom,
         answer (zip_file_exists stale_reads q name s')
         = answer (zip_file_exists stale_reads q name s) ∧
         answer (zip_find_rom_in_archive stale_reads q exts rom s')
         = answer (zip_find_rom_in_archive stale_reads q exts rom s)).
Proof.
  split.
  - intros data size r s'. unfold zip_extract_file.
    intros ([[result d] z] & s1 & Hk%zip_extract_file_internal_moves
            & [= _ <-])%bind_inv.
    split; [done|]. intros q name exts rom. by apply lookups_read_no_session.
  - intros temp_path buffer_size r s'. unfold zip_extract_file_to_temp_c.
    intros ([result path] & s1 & Hk%zip_extract_file_to_temp_internal_moves
            & Hret)%bind_inv.
    assert (s1 = s') as <- by (destruct (result && _); by injection Hret).
    split; [done|]. intros q name exts rom. by apply lookups_read_no_session.
Qed.

(* -------------------------------------------------------------- *)
(** ** The scratch file and the buffer *)
(* -------------------------------------------------------------- *)

Lemma zip_extract_file_to_temp_internal_bytes
    archive (filename : option string) (temp_path p : string) s s' :
  zip_extract_file_to_temp_internal stale_reads archive filename temp_path s
  = Ret (true, p) s' →
  ∃ bytes s1,
    zip_extract_file stale_reads archive filename (Some None) (Some 0) s
    = Ret (1, Some (Some (Some <$> bytes)), Some (Z.of_nat (length bytes))) s1 ∧
    heap s' = heap s1 ∧
    file_written (fs s) p bytes (fs s').
Proof.
  unfold zip_extract_file_to_temp_internal. unfold bind at 1.
  pose proof (zip_extract_file_internal_outcomes archive filename
                (Some None) (Some 0) s) as Hout.
  destruct (zip_extract_file_internal _ _ _ _ _ _)
    as [[[extracted data_cell] size_cell] s1|f s1] eqn:Hext; [|done].
  destruct Hout as [Hframe Hout].
  destruct extracted; cbn [negb]; [|done].
  destruct Hout as [(_&?&_)|[(_&?&_)|(_&_&Hout)]]; [done..|].
  destruct Hout as (h & uf & name & info & bytes & Hh & Hs & -> & Hcodec
                    & -> & -> & Hlen & _).
  rewrite length_fmap in Hlen. cbn [default id]. rewrite buffer_bytes_fmap.
  destruct Hframe as (Hna & Hreg & Hcount & Hfs).
  unfold bind, on_fs, next_counter. simpl.
  destruct (sceIoMkdir (fs s1) zip_get_temp_dir sce.mode_0777) as [rc_mk f1] eqn:Emk.
  simpl. destruct (temp_counter s1 <? INT_MAX) eqn:Emax; [|done]. simpl.
  destruct (sceIoOpen f1 _ open_flags sce.mode_0777) as [fd f2] eqn:Eopen.
  simpl. destruct (fd <? 0) eqn:Efd; [done|]. simpl.
  destruct (sceIoWrite f2 fd bytes _) as [written f3] eqn:Ewrite. simpl.
  destruct (sceIoClose f3 fd) as [rc_cl f4] eqn:Eclose. simpl.
  unfold ret. intros [= Hw <- <-]. simpl.
  apply Z.eqb_eq in Hw as ->.
  exists bytes, s1. rewrite Hlen. split_and!; try done.
  { unfold zip_extract_file, bind. by rewrite Hext. }
  exists fd, f1, f2, f3. rewrite <- Hfs, Hlen.
  unfold zip_get_temp_dir in Emk. rewrite Emk, Eclose. split_and!; try done. lia.
Qed.

(** X21.  When [zip_extract_file_to_temp_c] returns 1, the file at the
    path it returns holds exactly the bytes that [zip_extract_file]
    returns for the same handle and entry name: the buffer of that call is
    filled completely, its content is what was written, and both calls
    leave the handles alike. *)
Theorem scratch_file_holds_the_extracted_bytes
    archive (filename : option string) (temp_path p : string)
    (buffer_size : N) s s' :
  zip_extract_file_to_temp_c stale_reads archive filename temp_path buffer_size s
  = Ret (1, p) s' →
  ∃ bytes s1,
    zip_extract_file stale_reads archive filename (Some None) (Some 0) s
    = Ret (1, Some (Some (Some <$> bytes)), Some (Z.of_nat (length bytes))) s1 ∧
    heap s' = heap s1 ∧
    file_written (fs s) p bytes (fs s').
Proof.
  unfold zip_extract_file_to_temp_c.
  intros ([result path] & s1 & Hrun & Hret)%bind_inv.
  destruct result; cbn [andb] in Hret; [|done].
  destruct (fits path buffer_size); [|done].
  injection Hret as <- <-.
  by apply (zip_extract_file_to_temp_internal_bytes archive filename EmptyString).
Qed.

(* -------------------------------------------------------------- *)
(** ** The ROM wrapper, end to end *)
(* -------------------------------------------------------------- *)

Lemma zip_close_archive_fs archive s s' :
  zip_close_archive stale_reads archive s = Ret tt s' → fs s' = fs s.
Proof.
  unfold zip_close_archive.
  destruct (decide (archive = nullptr)); [by intros [= <-]|].
  destruct (heap s !! archive) as [h|] eqn:Hh.
  - rewrite (bind_Ret _ _ _ _ _ (load_is_open_live _ _ _ Hh)).
    destruct (is_open h); cbn [negb]; [|by intros [= <-]].
    rewrite (bind_Ret _ _ _ _ _ (load_live _ _ _ Hh)).
    rewrite (bind_Ret _ _ _ _ _ (store_live _ _ _ _ Hh)).
    unfold bind, registry_remove, delete_handle. simpl.
    destruct (vector.find archive (g_open_archives s)); by intros [= <-].
  - unfold bind, load_is_open. rewrite Hh.
    destruct stale_reads; [|done]. by intros [= <-].
Qed.

(** What a successful [zip_extract_rom_to_temp] has done. *)
Lemma zip_extract_rom_to_temp_done
    (zip_path : option string) (supported_extensions : option (list string))
    (temp_rom_path p : string) s s' :
  registry_tracks_handles s →
  zip_extract_rom_to_temp stale_reads zip_path supported_extensions temp_rom_path s
  = Ret (true, p) s' →
  ∃ path s1 h rom bytes,
    zip_path = Some path ∧
    zip_open_archive stale_reads zip_path s = Ret (next_addr s) s1 ∧
    heap s1 !! next_addr s = Some h ∧
    find_rom_loop (entries h) supported_extensions = Some rom ∧
    temp_counter s' = temp_counter s + 1 ∧
    p = scratch_path (temp_counter s') rom ∧
    file_written (fs s) p bytes (fs s') ∧
    heap s' = heap s.
Proof.
  intros Hinv Hrun0.
  destruct (zip_extract_rom_to_temp_tracked _ _ _ _ _ _ Hinv Hrun0) as (Hheap' & _).
  revert Hrun0. unfold zip_extract_rom_to_temp.
  intros (a & s1 & Hopen & Hrun)%bind_inv.
  destruct (zip_open_archive_tracked _ _ _ _ Hinv Hopen)
    as [[-> ->]|(path & h & -> & _ & _ & -> & Hnn & Hfresh & Hheap & Hhopen & _ & _
                 & _ & Hcount1 & Hfs1 & _)].
  { by rewrite decide_True in Hrun by done. }
  rewrite decide_False in Hrun by done.
  assert (Hh : heap s1 !! next_addr s = Some h).
  { rewrite Hheap. apply lookup_insert_eq. }
  apply bind_inv in Hrun as ([found rom] & s2 & Hfind & Hrun).
  pose proof (zip_find_rom_in_archive_reads_only _ _ _ _ _ _ Hfind) as ->.
  assert (Hrom : found = true → find_rom_loop (entries h) supported_extensions = Some rom).
  { revert Hfind. unfold zip_find_rom_in_archive.
    rewrite decide_False by done.
    rewrite (bind_Ret _ _ _ _ _ (load_is_open_live _ _ _ Hh)), Hhopen. cbn [negb].
    rewrite (bind_Ret _ _ _ _ _ (load_live _ _ _ Hh)).
    destruct (find_rom_loop _ _); unfold ret; intros [= <- <-]; done. }
  destruct found; cbn [negb] in Hrun.
  2:{ apply bind_inv in Hrun as ([] & s4 & _ & Hret). by injection Hret. }
  apply bind_inv in Hrun as ([success p'] & s3 & Hext & Hrun).
  apply bind_inv in Hrun as ([] & s4 & Hclose & [= -> -> ->]).
  apply zip_extract_file_to_temp_internal_true in Hext
    as (_ & _ & name & _ & bytes & _ & _ & [= <-] & _ & _ & _ & Hcount3 & -> & Hfile).
  pose proof (zip_close_archive_counter _ _ _ Hclose) as Hcount4.
  pose proof (zip_close_archive_fs _ _ _ Hclose) as Hfs4.
  exists path, s1, h, rom, bytes.
  rewrite Hcount4, Hfs4, <- Hfs1. split_and!; try done; try by apply Hrom.
  lia.
Qed.

(** X22.  [zip_extract_rom_to_temp_c] can fail after it has written the
    file.  From a process whose registry and heap agree, when the
    extraction of the ROM succeeded and the scratch path with its
    terminator does not fit the caller's buffer, the wrapper returns 0 and
    leaves the buffer as it was; by then the archive was opened, its first
    matching entry was written to the scratch path for the incremented
    counter, and the handle was closed again.  The file stays. *)
Theorem zip_extract_rom_to_temp_c_fails_after_writing
    (zip_path : option string) (supported_extensions : option (list string))
    (temp_rom_path p : string) (buffer_size : N) s s' :
  registry_tracks_handles s →
  zip_extract_rom_to_temp stale_reads zip_path supported_extensions EmptyString s
  = Ret (true, p) s' →
  (buffer_size ≤ N.of_nat (String.length p))%N →
  zip_extract_rom_to_temp_c stale_reads zip_path supported_extensions
    temp_rom_path buffer_size s
  = Ret (0, temp_rom_path) s' ∧
  ∃ path s1 h rom bytes,
    zip_path = Some path ∧
    zip_open_archive stale_reads zip_path s = Ret (next_addr s) s1 ∧
    heap s1 !! next_addr s = Some h ∧
    find_rom_loop (entries h) supported_extensions = Some rom ∧
    temp_counter s' = temp_counter s + 1 ∧
    p = scratch_path (temp_counter s') rom ∧
    file_written (fs s) p bytes (fs s') ∧
    heap s' = heap s.
Proof.
  intros Hinv Hrun Hsmall. split.
  - unfold zip_extract_rom_to_temp_c. rewrite (bind_Ret _ _ _ _ _ Hrun).
    unfold fits. cbn [andb].
    by destruct (N.ltb_spec (N.of_nat (String.length p)) buffer_size); [lia|].
  - by eapply zip_extract_rom_to_temp_done.
Qed.

(* -------------------------------------------------------------- *)
(** ** Bulk cleanup, for any number of handles *)
(* -------------------------------------------------------------- *)

Lemma list_pair_ind {A} (P : list A → Prop) :
  P [] → (∀ a, P [a]) → (∀ a b l, P l → P (a :: b :: l)) → ∀ l, P l.
Proof.
  intros Hnil Hone Hstep l.
  cut (P l ∧ ∀ a, P (a :: l)); [by intros [? _]|].
  induction l as [|b l [IH1 IH2]]; [by split|].
  split; [apply IH2|]. intros a. by apply Hstep.
Qed.

Lemma index_of_middle {A} `{EqDecision A} (x : A) (l1 l2 : list A) :
  x ∉ l1 → vector.index_of x (l1 ++ x :: l2) = Some (length l1).
Proof.
  induction l1 as [|y l1 IH]; simpl; intros Hn.
  - by rewrite decide_True.
  - apply not_elem_of_cons in Hn as [Hne Hn].
    rewrite decide_False by done. by rewrite IH.
Qed.

Lemma lookup_stale_slots (front more : list ptr) (z : ptr) (n i : nat) :
  (length front ≤ i ≤ length front + n)%nat →
  (front ++ z :: replicate n z ++ more) !! i = Some z.
Proof.
  intros Hi. rewrite lookup_app_r by lia.
  change (z :: replicate n z ++ more) with (replicate (S n) z ++ more).
  rewrite lookup_app_l by (rewrite length_replicate; lia).
  apply lookup_replicate_2. lia.
Qed.

(** Erasing the last element leaves the storage as it is. *)
Lemma vector_erase_last (front more : list ptr) (z : ptr) :
  z ∉ front →
  vector.find z (vector.mk (front ++ z :: more) (S (length front)))
  = Some (length front) ∧
  vector.erase (length front) (vector.mk (front ++ z :: more) (S (length front)))
  = vector.mk (front ++ z :: more) (length front).
Proof.
  intros Hz.
  assert (Hel : vector.elements (vector.mk (front ++ z :: more) (S (length front)))
                = front ++ [z]).
  { unfold vector.elements. cbn [vector.storage vector.vsize].
    rewrite (cons_middle z front more), app_assoc.
    apply take_app_length'. rewrite length_app. simpl. lia. }
  split.
  - unfold vector.find. rewrite Hel. by apply index_of_middle.
  - unfold vector.erase. rewrite Hel. cbn [vector.storage vector.vsize].
    rewrite take_app_length.
    rewrite (drop_ge (front ++ [z]) (S (length front)))
      by (rewrite length_app; simpl; lia).
    replace (S (length front) - 1)%nat with (length front) by lia.
    by rewrite drop_app_length.
Qed.

(** Erasing an element that has two or more behind it. *)
Lemma vector_erase_front (odds rest junk : list ptr) (a b z : ptr) (k n : nat) :
  length odds = k → n = (k + length rest)%nat → a ∉ odds →
  last (b :: rest) = Some z →
  vector.find a (vector.mk (odds ++ (a :: b :: rest) ++ replicate k z ++ junk) (S (S n)))
  = Some k ∧
  vector.erase k (vector.mk (odds ++ (a :: b :: rest) ++ replicate k z ++ junk) (S (S n)))
  = vector.mk ((odds ++ [b]) ++ rest ++ replicate (S k) z ++ junk) (S n).
Proof.
  intros <- -> Ha Hlast.
  assert (Hel : vector.elements
                  (vector.mk (odds ++ (a :: b :: rest) ++ replicate (length odds) z ++ junk)
                             (S (S (length odds + length rest))))
                = odds ++ a :: b :: rest).
  { unfold vector.elements. cbn [vector.storage vector.vsize].
    rewrite !app_assoc, <- (app_assoc _ _ junk).
    apply take_app_length'. rewrite length_app. simpl. lia. }
  split.
  - unfold vector.find. rewrite Hel. by apply index_of_middle.
  - unfold vector.erase. rewrite Hel. cbn [vector.storage vector.vsize].
    apply last_Some in Hlast as [fr Hfr].
    assert (Hlen : length rest = length fr).
    { apply (f_equal length) in Hfr. rewrite length_app in Hfr. simpl in Hfr. lia. }
    assert (E2 : drop (S (length odds)) (odds ++ a :: b :: rest) = b :: rest).
    { rewrite (cons_middle a odds (b :: rest)), app_assoc.
      apply drop_app_length'. rewrite length_app. simpl. lia. }
    assert (E3 : drop (S (S (length odds + length rest)) - 1)
                   (odds ++ (a :: b :: rest) ++ replicate (length odds) z ++ junk)
                 = z :: replicate (length odds) z ++ junk).
    { rewrite Hfr.
      replace (odds ++ (a :: fr ++ [z]) ++ replicate (length odds) z ++ junk)
        with ((odds ++ a :: fr) ++ z :: replicate (length odds) z ++ junk)
        by (repeat (rewrite <- ?app_assoc; simpl); done).
      apply drop_app_length'. rewrite length_app. simpl. lia. }
    rewrite take_app_length, E2, E3. f_equal.
    repeat (rewrite <- ?app_assoc; simpl). done.
Qed.

(** One pass of the loop over a slot that holds a live, open handle. *)
Lemma cleanup_loop_live (passes position : nat) archive h s :
  vector.storage (g_open_archives s) !! position = Some archive →
  archive ≠ nullptr → heap s !! archive = Some h → is_open h = true →
  cleanup_loop stale_reads (S passes) position s
  = cleanup_loop stale_reads passes (S position)
      (mk_state (delete archive (heap s)) (next_addr s)
         (match vector.find archive (g_open_archives s) with
          | Some k => vector.erase k (g_open_archives s)
          | None => g_open_archives s
          end)
         (temp_counter s) (fs s)).
Proof.
  intros Hslot Hnn Hh Hopen. cbn [cleanup_loop].
  unfold bind at 1. unfold get_state. rewrite Hslot.
  rewrite decide_False by done.
  unfold bind at 1.
  rewrite (bind_Ret _ _ _ _ _ (load_is_open_live _ _ _ Hh)), Hopen.
  by rewrite (zip_close_archive_live archive h s Hnn Hh Hopen).
Qed.

(** The passes over slots that hold the address of a deleted handle. *)
Lemma cleanup_loop_stale (z : ptr) (passes position : nat) s :
  z ≠ nullptr → heap s !! z = None →
  (∀ i, (position ≤ i < position + passes)%nat →
        vector.storage (g_open_archives s) !! i = Some z) →
  cleanup_loop stale_reads passes position s
  = if stale_reads || (passes =? 0)%nat then Ret tt s else Fault UseAfterFree s.
Proof.
  intros Hnn Hgone. revert position.
  induction passes as [|passes IH]; intros position Hslots.
  { by rewrite orb_true_r. }
  cbn [cleanup_loop Nat.eqb]. rewrite orb_false_r.
  unfold bind at 1. unfold get_state. rewrite (Hslots position) by lia.
  rewrite decide_False by done.
  unfold bind at 1. unfold bind at 1. unfold load_is_open. rewrite Hgone.
  destruct stale_reads eqn:Estale; [|done].
  unfold ret. rewrite IH; [done|]. intros i Hi. apply Hslots. lia.
Qed.

(** The pass that closes the last element of the registry, and the passes
    after it. *)
Lemma cleanup_loop_last (front more : list ptr) (z : ptr) h (passes position : nat) s :
  g_open_archives s = vector.mk (front ++ z :: more) (S (length front)) →
  z ∉ front → z ≠ nullptr → heap s !! z = Some h → is_open h = true →
  (∀ i, (position ≤ i < S position + passes)%nat →
        (front ++ z :: more) !! i = Some z) →
  cleanup_loop stale_reads (S passes) position s
  = if stale_reads || (passes =? 0)%nat
    then Ret tt (mk_state (delete z (heap s)) (next_addr s)
                   (vector.mk (front ++ z :: more) (length front))
                   (temp_counter s) (fs s))
    else Fault UseAfterFree
           (mk_state (delete z (heap s)) (next_addr s)
              (vector.mk (front ++ z :: more) (length front))
              (temp_counter s) (fs s)).
Proof.
  intros Hg Hfront Hnn Hh Hopen Hslots.
  destruct (vector_erase_last front more z Hfront) as [Hfind Herase].
  rewrite (cleanup_loop_live passes position z h s); try done.
  - rewrite Hg, Hfind, Herase.
    rewrite (cleanup_loop_stale z); try done.
    + cbn [heap]. apply lookup_delete_eq.
    + cbn [g_open_archives vector.storage]. intros i Hi. apply Hslots. lia.
  - rewrite Hg. cbn [vector.storage]. apply Hslots. lia.
Qed.

(** The loop from the pass at slot [k] on: by then the passes before have
    closed [k] handles, [odds] are the [k] handles they stepped over,
    [rest] are the handles behind them, and the [k] slots given up by the
    registry still hold its last element [z]. *)
Lemma cleanup_loop_pairs (z : ptr) (junk : list ptr) :
  ∀ rest odds k n s,
    length odds = k → n = (k + length rest)%nat →
    g_open_archives s = vector.mk (odds ++ rest ++ replicate k z ++ junk) n →
    NoDup (odds ++ rest) →
    (∀ p, p ∈ odds ++ rest →
          p ≠ nullptr ∧ ∃ h, heap s !! p = Some h ∧ is_open h = true) →
    last (odds ++ rest) = Some z →
    ∃ t, cleanup_loop stale_reads n k s
         = (if stale_reads || (k + n <=? 2)%nat
            then Ret tt t else Fault UseAfterFree t) ∧
         (∀ p, heap t !! p
               = if decide (p ∈ every_other rest ∨ p = z) then None else heap s !! p) ∧
         next_addr t = next_addr s ∧ temp_counter t = temp_counter s ∧
         fs t = fs s.
Proof.
  intros rest. induction rest as [|a|a b rest IH] using list_pair_ind;
    intros odds k n s Hk Hn Hg Hnd Hlive Hlast.
  - (* the registry ends on a handle stepped over *)
    rewrite app_nil_r in Hlast, Hlive, Hnd.
    apply last_Some in Hlast as [front ->].
    rewrite length_app in Hk. simpl in Hk, Hn.
    destruct (Hlive z) as (Hnn & h & Hh & Hopen);
      [apply elem_of_app; right; by apply list_elem_of_singleton|].
    apply NoDup_app in Hnd as (_ & Hsep & _).
    assert (Hfront : z ∉ front).
    { intros Hin. apply (Hsep z Hin). by apply list_elem_of_singleton. }
    assert (Hg' : g_open_archives s
                  = vector.mk (front ++ z :: replicate k z ++ junk) (S (length front))).
    { rewrite Hg. f_equal; [by rewrite <- app_assoc|lia]. }
    replace n with (S (length front)) by lia.
    rewrite (cleanup_loop_last front _ z h (length front) k s Hg' Hfront Hnn Hh Hopen).
    + replace (k + S (length front) <=? 2)%nat with (length front =? 0)%nat
        by (destruct (Nat.leb_spec (k + S (length front)) 2),
                     (Nat.eqb_spec (length front) 0); lia).
      eexists. split; [by destruct (stale_reads || (length front =? 0)%nat)|].
      cbn [heap next_addr temp_counter fs]. split_and!; try done.
      intros p. destruct (decide _) as [[Hin| ->]|Hno].
      * by apply elem_of_nil in Hin.
      * apply lookup_delete_eq.
      * apply lookup_delete_ne. intros ->. apply Hno. by right.
    + intros i Hi. apply lookup_stale_slots. lia.
  - (* one handle is left behind those stepped over *)
    rewrite last_snoc in Hlast. injection Hlast as ->.
    destruct (Hlive z) as (Hnn & h & Hh & Hopen);
      [apply elem_of_app; right; by apply list_elem_of_singleton|].
    apply NoDup_app in Hnd as (_ & Hsep & _).
    assert (Hfront : z ∉ odds).
    { intros Hin. apply (Hsep z Hin). by apply list_elem_of_singleton. }
    simpl in Hn.
    assert (Hg' : g_open_archives s
                  = vector.mk (odds ++ z :: replicate k z ++ junk) (S (length odds))).
    { rewrite Hg. f_equal. lia. }
    replace n with (S k) by lia.
    rewrite (cleanup_loop_last odds _ z h k k s Hg' Hfront Hnn Hh Hopen).
    + replace (k + S k <=? 2)%nat with (k =? 0)%nat
        by (destruct (Nat.leb_spec (k + S k) 2), (Nat.eqb_spec k 0); lia).
      eexists. split; [by destruct (stale_reads || (k =? 0)%nat)|].
      cbn [heap next_addr temp_counter fs]. split_and!; try done.
      intros p. cbn [every_other]. destruct (decide _) as [[Hin| ->]|Hno].
      * apply list_elem_of_singleton in Hin as ->. apply lookup_delete_eq.
      * apply lookup_delete_eq.
      * apply lookup_delete_ne. intros ->. apply Hno. by right.
    + intros i Hi. apply lookup_stale_slots. lia.
  - (* two or more are left: the pass closes [a] and steps over [b] *)
    destruct (Hlive a) as (Hnn & h & Hh & Hopen);
      [apply elem_of_app; right; apply elem_of_cons; by left|].
    pose proof Hnd as Hnd'.
    apply NoDup_app in Hnd' as (Hodds & Hsep & Hrest).
    assert (Ha : a ∉ odds).
    { intros Hin. apply (Hsep a Hin). apply elem_of_cons. by left. }
    rewrite last_app_cons, last_cons_cons in Hlast.
    simpl in Hn.
    destruct (vector_erase_front odds rest junk a b z k (k + length rest)
                Hk eq_refl Ha Hlast) as [Hfind Herase].
    replace n with (S (S (k + length rest))) in * by lia.
    rewrite (cleanup_loop_live _ k a h s); try done;
      [|rewrite Hg; cbn [vector.storage]; by apply list_lookup_middle].
    rewrite Hg, Hfind, Herase.
    set (s1 := mk_state _ _ _ _ _).
    destruct (IH (odds ++ [b]) (S k) (S (k + length rest)) s1)
      as (t & Hrun & Hheap & Hnext & Hcount & Hfs).
    + rewrite length_app. simpl. lia.
    + lia.
    + done.
    + rewrite <- app_assoc. simpl.
      apply NoDup_app. split_and!; [done| |].
      * intros x Hx Hin. apply (Hsep x Hx). apply elem_of_cons. by right.
      * apply NoDup_cons in Hrest as [_ Hrest]. done.
    + intros p Hp.
      rewrite !elem_of_app, list_elem_of_singleton in Hp.
      assert (Hp' : p ∈ odds ++ a :: b :: rest).
      { rewrite elem_of_app, !elem_of_cons. tauto. }
      assert (Hpa : p ≠ a).
      { intros ->. apply NoDup_cons in Hrest as [Hnot _].
        apply not_elem_of_cons in Hnot as [? ?].
        destruct Hp as [[?|?]|?]; done. }
      destruct (Hlive p Hp') as (Hpn & hp & Hhp & Hpo).
      split; [done|]. exists hp. split; [|done].
      subst s1. cbn [heap]. by rewrite lookup_delete_ne.
    + rewrite <- app_assoc. simpl. by rewrite last_app_cons.
    + exists t. replace (k + S (S (k + length rest)))%nat
        with (S k + S (k + length rest))%nat by lia.
      split; [exact Hrun|]. split_and!; try done.
      intros p. rewrite Hheap. subst s1. cbn [heap every_other].
      destruct (decide (p ∈ every_other rest ∨ p = z)) as [Hin|Hno].
      * rewrite decide_True; [done|]. destruct Hin; [left|by right].
        apply elem_of_cons. by right.
      * destruct (decide (p = a)) as [->|Hpa].
        -- rewrite decide_True by (left; apply elem_of_cons; by left).
           apply lookup_delete_eq.
        -- rewrite decide_False; [by apply lookup_delete_ne|].
           intros [Hin|Hin]; [|by apply Hno; right].
           apply elem_of_cons in Hin as [?|?]; [done|]. apply Hno. by left.
Qed.

(** What the bulk cleanup does to a process whose registry and heap
    agree. *)
Lemma zip_cleanup_temp_files_effect s :
  registry_tracks_handles s →
  ∃ s', zip_cleanup_temp_files stale_reads s
        = (if stale_reads
              || (length (vector.elements (g_open_archives s)) <=? 2)%nat
           then Ret tt s' else Fault UseAfterFree s') ∧
        (∀ p, heap s' !! p
              = if decide (p ∈ every_other (vector.elements (g_open_archives s))
                           ∨ last (vector.elements (g_open_archives s)) = Some p)
                then None else heap s !! p) ∧
        (stale_reads || (length (vector.elements (g_open_archives s)) <=? 2)%nat = true →
         vector.vsize (g_open_archives s') = 0%nat) ∧
        next_addr s' = next_addr s ∧ temp_counter s' = temp_counter s ∧
        fs s' = fs s.
Proof.
  intros (Hwf & Hnd & Hreg & Hopen & Hnext).
  pose proof (vector_elements_length _ Hwf) as Hlen.
  destruct (vector.elements (g_open_archives s)) as [|a l] eqn:Hel.
  { exists (set_registry (vector.clear (g_open_archives s)) s).
    rewrite orb_true_r. unfold zip_cleanup_temp_files, bind, get_state.
    rewrite <- Hlen. cbn [length cleanup_loop ret]. split_and!; done. }
  destruct (last (a :: l)) as [z|] eqn:Hlast;
    [|by apply last_None in Hlast].
  destruct (cleanup_loop_pairs z
              (drop (vector.vsize (g_open_archives s))
                    (vector.storage (g_open_archives s)))
              (a :: l) [] 0%nat (vector.vsize (g_open_archives s)) s)
    as (t & Hrun & Hheap & Hn & Hc & Hf).
  - done.
  - by rewrite <- Hlen.
  - rewrite <- Hel. unfold vector.elements. cbn [app replicate].
    rewrite take_drop. by destruct (g_open_archives s).
  - done.
  - intros p Hp. cbn [app] in Hp.
    apply Hreg in Hp as [h Hh]. destruct (Hopen p h Hh) as (? & ? & _).
    split; [done|]. by exists h.
  - done.
  - unfold zip_cleanup_temp_files. unfold bind at 1. unfold get_state.
    cbn [plus] in Hrun. rewrite <- Hlen in Hrun |- *.
    destruct (stale_reads || (length (a :: l) <=? 2)%nat) eqn:Ecase.
    + exists (set_registry (vector.clear (g_open_archives t)) t).
      rewrite (bind_Ret _ _ _ _ _ Hrun). split_and!; try done.
      intros p. cbn [set_registry heap]. rewrite Hheap.
      destruct (decide (p ∈ every_other (a :: l) ∨ p = z)) as [Hin|Hno].
      * rewrite decide_True; [done|]. destruct Hin as [?| ->]; [by left|by right].
      * rewrite decide_False; [done|]. intros [?|[= ->]]; apply Hno; [by left|by right].
    + exists t. rewrite (bind_Fault _ _ _ _ _ Hrun). split_and!; try done.
      intros p. rewrite Hheap.
      destruct (decide (p ∈ every_other (a :: l) ∨ p = z)) as [Hin|Hno].
      * rewrite decide_True; [done|]. destruct Hin as [?| ->]; [by left|by right].
      * rewrite decide_False; [done|]. intros [?|[= ->]]; apply Hno; [by left|by right].
Qed.

Lemma elem_of_every_other (l : list ptr) (p : ptr) :
  p ∈ every_other l ↔ ∃ i, l !! (2 * i)%nat = Some p.
Proof.
  induction l as [|a|a b l IH] using list_pair_ind.
  - split; [by intros ?%elem_of_nil|by intros [i ?]].
  - cbn [every_other]. rewrite list_elem_of_singleton. split.
    + intros ->. by exists 0%nat.
    + intros [[|i] Hi]; [by injection Hi|].
      replace (2 * S i)%nat with (S (S (2 * i))) in Hi by lia. done.
  - cbn [every_other]. rewrite elem_of_cons, IH. split.
    + intros [->|[i Hi]]; [by exists 0%nat|].
      exists (S i). by replace (2 * S i)%nat with (S (S (2 * i))) by lia.
    + intros [[|i] Hi]; [left; by injection Hi|right].
      replace (2 * S i)%nat with (S (S (2 * i))) in Hi by lia. by exists i.
Qed.

(** X23.  With at most two handles tracked, in a process whose registry
    and heap agree, [zip_cleanup_temp_files] closes every handle: it
    returns, no handle object is left, the registry is empty, and the
    scratch counter and the storage are as before. *)
Theorem zip_cleanup_temp_files_closes_up_to_two s :
  registry_tracks_handles s →
  (length (vector.elements (g_open_archives s)) ≤ 2)%nat →
  ∃ s', zip_cleanup_temp_files stale_reads s = Ret tt s' ∧
        heap s' = ∅ ∧ vector.elements (g_open_archives s') = [] ∧
        temp_counter s' = temp_counter s ∧ fs s' = fs s ∧
        registry_tracks_handles s'.
Proof.
  intros Htracked Hlen.
  destruct (zip_cleanup_temp_files_effect s Htracked)
    as (s' & Hrun & Hheap & Hsize & Hnext & Hcount & Hfs).
  destruct Htracked as (Hwf & Hnd & Hreg & Hopen & Hnn).
  assert (Hfew : (length (vector.elements (g_open_archives s)) <=? 2)%nat = true)
    by by apply Nat.leb_le.
  rewrite Hfew, orb_true_r in Hrun, Hsize. specialize (Hsize eq_refl).
  assert (Hempty : heap s' = ∅).
  { apply map_empty. intros p. rewrite Hheap.
    destruct (decide _) as [|Hno]; [done|].
    destruct (heap s !! p) as [h|] eqn:Hp; [|done].
    exfalso. apply Hno.
    assert (Hin : p ∈ vector.elements (g_open_archives s)) by (apply Hreg; eauto).
    destruct (vector.elements (g_open_archives s)) as [|a [|b [|c l]]];
      [by apply elem_of_nil in Hin| | |simpl in Hlen; lia].
    - apply list_elem_of_singleton in Hin as ->. left. by apply list_elem_of_singleton.
    - apply elem_of_cons in Hin as [->|Hin]; [left; by apply list_elem_of_singleton|].
      apply list_elem_of_singleton in Hin as ->. by right. }
  assert (Hnone : vector.elements (g_open_archives s') = []).
  { unfold vector.elements. by rewrite Hsize. }
  exists s'. split_and!; try done.
  unfold registry_tracks_handles. split_and!.
  - rewrite Hsize. lia.
  - rewrite Hnone. constructor.
  - intros p. rewrite Hnone, Hempty, lookup_empty. split.
    + by intros ?%elem_of_nil.
    + by intros [? ?].
  - intros p h. by rewrite Hempty, lookup_empty.
  - by rewrite Hnext.
Qed.

(** X24.  With three or more handles tracked, in a process whose registry
    and heap agree, [zip_cleanup_temp_files] closes the handles in the
    first, third, fifth, ... slot of the registry and the one in the last
    slot, and then reads a handle it has deleted: a use after free.  The
    handles in the second, fourth, ... slot, the last slot apart, are never
    visited: they are still live and open, the second handle of the
    registry among them, and when the stale read is let through, the
    registry is emptied with them left open. *)
Theorem zip_cleanup_temp_files_leaks_from_three s :
  registry_tracks_handles s →
  (3 ≤ length (vector.elements (g_open_archives s)))%nat →
  ∃ s', zip_cleanup_temp_files stale_reads s
        = (if stale_reads then Ret tt s' else Fault UseAfterFree s') ∧
        (stale_reads = true → vector.elements (g_open_archives s') = []) ∧
        (∀ i p, vector.elements (g_open_archives s) !! (2 * i)%nat = Some p →
                heap s' !! p = None) ∧
        (∀ p, last (vector.elements (g_open_archives s)) = Some p →
              heap s' !! p = None) ∧
        (∀ i p, vector.elements (g_open_archives s) !! (2 * i + 1)%nat = Some p →
                (2 * i + 2 < length (vector.elements (g_open_archives s)))%nat →
                ∃ h, heap s' !! p = Some h ∧ heap s !! p = Some h ∧
                     is_open h = true) ∧
        temp_counter s' = temp_counter s ∧ fs s' = fs s.
Proof.
  intros Htracked Hlen.
  destruct (zip_cleanup_temp_files_effect s Htracked)
    as (s' & Hrun & Hheap & Hsize & Hnext & Hcount & Hfs).
  destruct Htracked as (Hwf & Hnd & Hreg & Hopen & Hnn).
  assert (Hmany : (length (vector.elements (g_open_archives s)) <=? 2)%nat = false)
    by (apply Nat.leb_gt; lia).
  rewrite Hmany, orb_false_r in Hrun, Hsize.
  exists s'. split_and!; try done.
  - intros Hstale. unfold vector.elements. by rewrite (Hsize Hstale).
  - intros i p Hi. rewrite Hheap. rewrite decide_True; [done|].
    left. apply elem_of_every_other. by exists i.
  - intros p Hp. rewrite Hheap. rewrite decide_True; [done|]. by right.
  - intros i p Hi Hbound.
    assert (Hin : p ∈ vector.elements (g_open_archives s))
      by by eapply list_elem_of_lookup_2.
    apply Hreg in Hin as [h Hh]. destruct (Hopen p h Hh) as (Ho & _).
    exists h. split_and!; try done.
    rewrite Hheap. rewrite decide_False; [done|].
    intros [[j Hj]%elem_of_every_other|Hl].
    + pose proof (NoDup_lookup _ _ _ _ Hnd Hi Hj). lia.
    + rewrite last_lookup in Hl.
      pose proof (NoDup_lookup _ _ _ _ Hnd Hi Hl). lia.
Qed.

End Correctness.

(* ================================================================== *)
(** * The theorems at work on the demonstration disk *)
(* ================================================================== *)

#[local] Existing Instance Demo.codec.

Lemma zip_open_archive_rejects_non_container_witness :
  zip_open_archive false (Some "ux0:game.d64") Demo.start = Ret nullptr Demo.start.
Proof.
  apply (zip_open_archive_rejects_non_container false (Some "ux0:game.d64") Demo.start).
  intros p [= <-]. split; [reflexivity|].
  intros H%zip_is_archive_spec; [discriminate H|reflexivity].
Defined.

Example zip_open_archive_null s :
  zip_open_archive (unzFile := Fixture.session) (FS := MemFs.t) false None s
  = Ret nullptr s.
Proof. reflexivity. Qed.

Example zip_open_archive_empty_name s :
  zip_open_archive (unzFile := Fixture.session) (FS := MemFs.t) false (Some EmptyString) s
  = Ret nullptr s.
Proof. reflexivity. Qed.

Example zip_open_archive_upper_case :
  zip_open_archive false (Some "ux0:c.ZIP") Demo.start ≠ Ret nullptr Demo.start.
Proof. vm_compute. discriminate. Qed.

(** The archive [ux0:a.zip] holds a directory, then [data/game.d64], then
    [data/game.crt]; the caller's list puts [".crt"] first, and the entry
    found is the [.d64] one, first in the catalogue. *)
Lemma zip_find_rom_in_archive_first_in_catalogue_witness :
  let s := Demo.opened "ux0:a.zip" in
  let h := Demo.handle_at s 1%N in
  let exts := Some [".crt"; ".d64"] in
  (∃ before e after,
      entries h = before ++ e :: after ∧
      Forall (λ e', ¬ qualifies (wanted_list exts) e') before ∧
      qualifies (wanted_list exts) e ∧
      zip_find_rom_in_archive false 1%N exts EmptyString s = Ret (true, filename e) s)
  ∨ (Forall (λ e', ¬ qualifies (wanted_list exts) e') (entries h) ∧
     zip_find_rom_in_archive false 1%N exts EmptyString s = Ret (false, EmptyString) s).
Proof.
  intros s h exts.
  apply (zip_find_rom_in_archive_first_in_catalogue false 1%N h exts EmptyString s).
  - discriminate.
  - vm_compute. reflexivity.
  - vm_compute. reflexivity.
  - vm_compute. repeat constructor.
  - vm_compute. repeat constructor.
Defined.

Example zip_find_rom_in_archive_catalogue_order :
  zip_find_rom_in_archive false 1%N (Some [".crt"; ".d64"]) EmptyString
    (Demo.opened "ux0:a.zip")
  = Ret (true, "data/game.d64") (Demo.opened "ux0:a.zip")
  ∧ zip_find_rom_in_archive false 1%N None EmptyString (Demo.opened "ux0:a.zip")
    = Ret (true, "data/game.d64") (Demo.opened "ux0:a.zip")
  ∧ zip_find_rom_in_archive false 1%N None "before" (Demo.opened "ux0:c.ZIP")
    = Ret (false, "before") (Demo.opened "ux0:c.ZIP").
Proof. split_and!; vm_compute; reflexivity. Qed.

(** The archive [ux0:b.zip] holds three entries; the metadata of the
    second cannot be read. *)
Lemma zip_open_archive_skips_unreadable_entry_witness :
  match catalogue_of [Demo.at_entry "ux0:b.zip" 0; Demo.at_entry "ux0:b.zip" 2] with
  | Done es =>
      ∃ s', zip_open_archive false (Some "ux0:b.zip") Demo.start
            = Ret (next_addr Demo.start) s' ∧
            entries <$> heap s' !! next_addr Demo.start = Some es
  | Crash f => ∃ s', zip_open_archive false (Some "ux0:b.zip") Demo.start = Fault f s'
  end.
Proof.
  apply (zip_open_archive_skips_unreadable_entry false "ux0:b.zip"
           (Demo.at_entry "ux0:b.zip" 0) (Demo.at_entry "ux0:b.zip" 0)
           [Demo.at_entry "ux0:b.zip" 0] [Demo.at_entry "ux0:b.zip" 2]
           (Demo.at_entry "ux0:b.zip" 1) Demo.start).
  - reflexivity.
  - reflexivity.
  - reflexivity.
  - vm_compute. reflexivity.
  - vm_compute. reflexivity.
  - discriminate.
Defined.

Example zip_open_archive_catalogue_without_damaged_entry :
  (λ h, filename <$> entries h) <$> heap (Demo.opened "ux0:b.zip") !! 1%N
  = Some ["first.prg"; "third.prg"].
Proof. vm_compute. reflexivity. Qed.

(** The first entry of [ux0:a.zip] is the directory ["data/"]. *)
Lemma directory_flag_read_in_bounds_iff_name_usable_witness :
  let uf := Demo.at_entry "ux0:a.zip" 0 in
  let info := (unzGetCurrentFileInfo uf MAX_FILENAME_LENGTH).1.2 in
  let buf := (unzGetCurrentFileInfo uf MAX_FILENAME_LENGTH).2 in
  let acc : list ZipEntry := [] in
  match buffer_strlen buf with
  | Some len =>
      has_char NUL buf = true ∧
      (len ≠ 0%nat →
         String.get 0 buf ≠ Some NUL ∧
         last_char_index len = Z.of_nat len - 1 ∧
         0 ≤ last_char_index len < Z.of_nat MAX_FILENAME_LENGTH ∧
         ∃ c, buffer_get buf (last_char_index len) = Some c ∧
              String.get (len - 1) buf = Some c ∧
              list_body uf acc =
                Done (acc ++ [mk_entry (String.substring 0 len buf)
                                       (unz.uncompressed_size info)
                                       (unz.compressed_size info)
                                       (Ascii.eqb c "/")
                                       (String.substring 0 len buf)]))
      ∧ (len = 0%nat →
           String.get 0 buf = Some NUL ∧
           last_char_index len = 2 ^ 32 - 1 ∧
           buffer_get buf (last_char_index len) = None ∧
           list_body uf acc = Crash OutOfBounds)
  | None =>
      has_char NUL buf = false ∧ String.get 0 buf ≠ Some NUL ∧
      list_body uf acc = Crash OutOfBounds
  end
  ∧ ((∃ e, list_body uf acc = Done (acc ++ [e])) ↔ ¬ unusable_name buf)
  ∧ (list_body uf acc = Crash OutOfBounds ↔ unusable_name buf).
Proof.
  intros uf info buf acc.
  apply (directory_flag_read_in_bounds_iff_name_usable uf info buf acc).
  vm_compute. reflexivity.
Defined.

Example directory_flag_of_first_entry :
  list_body (Demo.at_entry "ux0:a.zip" 0) []
  = Done [mk_entry "data/" 0 0 true "data/"].
Proof. vm_compute. reflexivity. Qed.

(** The only entry of [ux0:long.zip] has a name of 512 characters: the
    name is not empty, the codec reads its metadata, and the read of the
    flag is outside the name buffer. *)
Lemma directory_flag_read_out_of_bounds_for_long_name :
  ¬ flag_read_as_claimed (Minizip0 := Demo.blank_codec)
      (Fixture.mk_session (default [] (Demo.blank_disk "ux0:long.zip")) 0).
Proof.
  intros Hclaim.
  set (uf := Fixture.mk_session (default [] (Demo.blank_disk "ux0:long.zip")) 0) in *.
  destruct (Hclaim
              (unzGetCurrentFileInfo (Minizip := Demo.blank_codec) uf
                 MAX_FILENAME_LENGTH).1.2
              (unzGetCurrentFileInfo (Minizip := Demo.blank_codec) uf
                 MAX_FILENAME_LENGTH).2) as [Hin _].
  - vm_compute. reflexivity.
  - destruct Hin as [e He].
    + vm_compute. discriminate.
    + vm_compute in He. discriminate He.
Qed.

Example directory_flag_read_of_long_name :
  list_body (Minizip0 := Demo.blank_codec)
    (Fixture.mk_session (default [] (Demo.blank_disk "ux0:long.zip")) 0) []
  = Crash OutOfBounds.
Proof. vm_compute. reflexivity. Qed.

Example zip_open_archive_empty_entry_name :
  ∃ s', zip_open_archive false (Some "ux0:d.zip") Demo.start = Fault OutOfBounds s'.
Proof. eexists. vm_compute. reflexivity. Qed.

(** [data/game.d64] extracted twice in a row from [ux0:a.zip]. *)
Lemma scratch_paths_use_increasing_counter_witness :
  let s := Demo.opened "ux0:a.zip" in
  let s1 := Demo.after Demo.first_extraction in
  let s2 := Demo.after Demo.second_extraction in
  let p := "ux0:temp/vicevita_zip/temp_1_game.d64" in
  let p' := "ux0:temp/vicevita_zip/temp_2_game.d64" in
  ∃ name base bytes bytes',
    Some "data/game.d64" = Some name ∧ stripped name base ∧
    p = TEMP_DIR +:+ "temp_" +:+ to_string (temp_counter s1) +:+ "_" +:+ base ∧
    p' = TEMP_DIR +:+ "temp_" +:+ to_string (temp_counter s2) +:+ "_" +:+ base ∧
    temp_counter s < temp_counter s1 ∧ temp_counter s1 < temp_counter s2 ∧
    file_written (fs s) p bytes (fs s1) ∧
    file_written (fs s1) p' bytes' (fs s2) ∧
    p ≠ p'.
Proof.
  intros s s1 s2 p p'.
  apply (scratch_paths_use_increasing_counter false 1%N 1%N (Some "data/game.d64")
           EmptyString EmptyString p p' s s1 s1 s2).
  - vm_compute. reflexivity.
  - vm_compute. discriminate.
  - vm_compute. reflexivity.
Defined.

Example scratch_files_both_exist :
  MemFs.files (fs (Demo.after Demo.second_extraction))
    !! "ux0:temp/vicevita_zip/temp_1_game.d64" = Some ["G"; "A"; "M"; "E"]%byte
  ∧ MemFs.files (fs (Demo.after Demo.second_extraction))
    !! "ux0:temp/vicevita_zip/temp_2_game.d64" = Some ["G"; "A"; "M"; "E"]%byte.
Proof. split; vm_compute; reflexivity. Qed.

(** A buffer of ten bytes cannot hold the path of 37 characters. *)
Lemma zip_extract_file_to_temp_c_fails_after_writing_witness :
  let s := Demo.opened "ux0:a.zip" in
  let s' := Demo.after Demo.first_extraction in
  let p := "ux0:temp/vicevita_zip/temp_1_game.d64" in
  zip_extract_file_to_temp_c false 1%N (Some "data/game.d64") "caller's" 10 s
  = Ret (0, "caller's") s' ∧
  temp_counter s' = temp_counter s + 1 ∧
  ∃ h uf name info bytes,
    heap s !! 1%N = Some h ∧ handle h = Some uf ∧ Some "data/game.d64" = Some name ∧
    codec_read uf name = Some (info, unz.uncompressed_size info, bytes) ∧
    Z.of_nat (length bytes) = unz.uncompressed_size info ∧
    p = scratch_path (temp_counter s') name ∧
    file_written (fs s) p bytes (fs s').
Proof.
  intros s s' p.
  apply (zip_extract_file_to_temp_c_fails_after_writing false 1%N
           (Some "data/game.d64") "caller's" p 10 s s').
  - vm_compute. reflexivity.
  - vm_compute. reflexivity.
Defined.

Example zip_extract_file_to_temp_c_failure_changes_the_process :
  let s := Demo.opened "ux0:a.zip" in
  let r := zip_extract_file_to_temp_c false 1%N (Some "data/game.d64") "caller's" 10 s in
  (∃ s', r = Ret (0, "caller's") s') ∧
  MemFs.files (fs s) !! "ux0:temp/vicevita_zip/temp_1_game.d64" = None ∧
  MemFs.files (fs (Demo.after r)) !! "ux0:temp/vicevita_zip/temp_1_game.d64"
    = Some ["G"; "A"; "M"; "E"]%byte ∧
  temp_counter s = 0 ∧ temp_counter (Demo.after r) = 1.
Proof. split_and!; [eexists|..]; vm_compute; reflexivity. Qed.

Example c_wrappers_with_room :
  ∃ s', zip_extract_rom_to_temp_c false (Some "ux0:a.zip") None "caller's" 38 Demo.start
        = Ret (1, "ux0:temp/vicevita_zip/temp_1_game.d64") s'.
Proof. eexists. vm_compute. reflexivity. Qed.

Example c_wrappers_without_room_for_the_terminator :
  ∃ s', zip_extract_rom_to_temp_c false (Some "ux0:a.zip") None "caller's" 37 Demo.start
        = Ret (0, "caller's") s'.
Proof. eexists. vm_compute. reflexivity. Qed.

(** The extractor on a null handle, called on a [data] that still points
    to an earlier buffer and a [size] that still holds 4: the call fails,
    and [*data] is not null, [*size] is not 0. *)
Lemma zip_extract_file_null_handle_keeps_outputs :
  ¬ extraction_as_claimed
      (zip_extract_file false nullptr (Some "data/game.d64")
         (Some (Some [Some "G"; Some "A"; Some "M"; Some "E"]%byte)) (Some 4)
         (Demo.opened "ux0:a.zip")).
Proof. vm_compute. intros [(_ & H & _)|(H & _)]; discriminate H. Qed.

Example zip_extract_file_null_handle :
  zip_extract_file false nullptr (Some "data/game.d64")
    (Some (Some [Some "G"; Some "A"; Some "M"; Some "E"]%byte)) (Some 4)
    (Demo.opened "ux0:a.zip")
  = Ret (0, Some (Some [Some "G"; Some "A"; Some "M"; Some "E"]%byte), Some 4)
        (Demo.opened "ux0:a.zip").
Proof. reflexivity. Qed.

(** The only entry of [ux0:huge.zip] declares 2^31 bytes: the call is left
    by the allocation of line 160. *)
Example zip_extract_file_oversized_entry :
  let s := Demo.after (zip_open_archive (Minizip0 := Demo.blank_codec) false
                         (Some "ux0:huge.zip") Demo.start) in
  to_long 2147483648 = -2147483648 ∧
  ∃ s', zip_extract_file (Minizip0 := Demo.blank_codec) false 1%N
          (Some "huge.bin") (Some None) (Some 0) s
        = Fault BadArrayNewLength s'.
Proof. split; [reflexivity|]. eexists. vm_compute. reflexivity. Qed.

Example zip_extract_file_whole_entry :
  ∃ s', zip_extract_file false 1%N (Some "data/game.d64") (Some None) (Some 0)
          (Demo.opened "ux0:a.zip")
        = Ret (1, Some (Some [Some "G"; Some "A"; Some "M"; Some "E"]%byte), Some 4) s'.
Proof. eexists. vm_compute. reflexivity. Qed.

Example zip_extract_file_truncated_entry :
  ∃ s', zip_extract_file false 1%N (Some "cut.prg") (Some None) (Some 0)
          (Demo.opened "ux0:e.zip")
        = Ret (0, Some None, Some 0) s'.
Proof. eexists. vm_compute. reflexivity. Qed.

(* ------------------------------------------------------------------ *)
(** ** Names and extensions *)
(* ------------------------------------------------------------------ *)

Lemma strcasecmp_custom_equality_and_symmetry_witness :
  (strcasecmp_custom "Game.D64" "gAME.d64" = 0 ↔ eq_nocase "Game.D64" "gAME.d64") ∧
  strcasecmp_custom "gAME.d64" "Game.D64" = - strcasecmp_custom "Game.D64" "gAME.d64".
Proof.
  apply (strcasecmp_custom_equality_and_symmetry "Game.D64" "gAME.d64");
    reflexivity.
Defined.

Example strcasecmp_custom_orders :
  strcasecmp_custom ".crt" ".D64" = -1 ∧ strcasecmp_custom ".D64" ".crt" = 1 ∧
  strcasecmp_custom ".d6" ".D64" = -52 ∧ strcasecmp_custom ".D64" ".d6" = 52.
Proof. split_and!; reflexivity. Qed.

Lemma zip_is_supported_extension_spec_witness :
  let filename := Some "data/GAME.D64" in
  (zip_is_supported_extension filename = 1 ∨ zip_is_supported_extension filename = 0) ∧
  (zip_is_supported_extension filename = 1 ↔
   ∃ name ext x, filename = Some name ∧ dot_suffix name ext ∧
                 x ∈ supported_exts ∧ eq_nocase ext x).
Proof.
  intros filename.
  apply (zip_is_supported_extension_spec filename).
  intros name [= <-]. reflexivity.
Defined.

Lemma container_is_not_supported_medium_witness :
  zip_is_supported_extension (Some "ux0:a.zip") = 0.
Proof.
  apply (container_is_not_supported_medium "ux0:a.zip"); reflexivity.
Defined.

Example zip_normalize_path_cases :
  zip_normalize_path (Some "\data\game.d64") = "data/game.d64" ∧
  zip_normalize_path (Some "//data") = "/data" ∧
  zip_normalize_path None = EmptyString.
Proof. split_and!; reflexivity. Qed.

(* ------------------------------------------------------------------ *)
(** ** Handles on the demonstration disk *)
(* ------------------------------------------------------------------ *)

Lemma start_tracked : registry_tracks_handles Demo.start.
Proof.
  split_and!.
  - simpl. lia.
  - constructor.
  - intros p. split.
    + intros Hin. vm_compute in Hin. by apply elem_of_nil in Hin.
    + intros [h Hh]. unfold Demo.start in Hh. cbn [heap] in Hh.
      by apply lookup_empty_Some in Hh.
  - intros p h Hh. unfold Demo.start in Hh. cbn [heap] in Hh.
    by apply lookup_empty_Some in Hh.
  - discriminate.
Qed.

Lemma opened_tracked : registry_tracks_handles (Demo.opened "ux0:a.zip").
Proof.
  destruct (zip_open_archive_tracked false (Some "ux0:a.zip") 1%N Demo.start
              (Demo.opened "ux0:a.zip") start_tracked)
    as [[Hp _]|(path & h & Hrest)].
  - vm_compute. reflexivity.
  - discriminate Hp.
  - apply Hrest.
Qed.

Lemma zip_close_archive_releases_handle_witness :
  let s := Demo.opened "ux0:a.zip" in
  zip_close_archive false nullptr s = Ret tt s ∧
  ∃ s', zip_close_archive false 1%N s = Ret tt s' ∧
        heap s' = delete 1%N (heap s) ∧
        (∀ p, p ∈ vector.elements (g_open_archives s')
              ↔ p ∈ vector.elements (g_open_archives s) ∧ p ≠ 1%N) ∧
        next_addr s' = next_addr s ∧ temp_counter s' = temp_counter s ∧
        fs s' = fs s ∧ registry_tracks_handles s'.
Proof.
  intros s.
  apply (zip_close_archive_releases_handle false 1%N (Demo.handle_at s 1%N) s).
  - exact opened_tracked.
  - vm_compute. reflexivity.
Defined.

Lemma zip_open_archive_registers_handle_witness :
  let s := Demo.start in
  let s' := Demo.opened "ux0:a.zip" in
  let zip_path := Some "ux0:a.zip" in
  let p := 1%N in
  (p = nullptr ∧ s' = s)
  ∨ (∃ path h,
       zip_path = Some path ∧ zip_is_archive (Some path) ≠ 0 ∧
       is_Some (unzOpen path) ∧
       p = next_addr s ∧ p ≠ nullptr ∧ heap s !! p = None ∧
       heap s' = <[p := h]> (heap s) ∧
       is_open h = true ∧ archive_path h = path ∧
       Forall entry_well_formed (entries h) ∧
       vector.elements (g_open_archives s')
       = vector.elements (g_open_archives s) ++ [p] ∧
       temp_counter s' = temp_counter s ∧ fs s' = fs s ∧
       registry_tracks_handles s').
Proof.
  intros s s' zip_path p.
  apply (zip_open_archive_registers_handle false zip_path p s s').
  - exact start_tracked.
  - vm_compute. reflexivity.
Defined.

Lemma zip_open_then_close_restores_witness :
  let s := Demo.start in
  ∃ s2, zip_close_archive false 1%N (Demo.opened "ux0:a.zip") = Ret tt s2 ∧
        heap s2 = heap s ∧
        (∀ q, q ∈ vector.elements (g_open_archives s2)
              ↔ q ∈ vector.elements (g_open_archives s)) ∧
        temp_counter s2 = temp_counter s ∧ fs s2 = fs s ∧
        registry_tracks_handles s2.
Proof.
  intros s.
  apply (zip_open_then_close_restores false (Some "ux0:a.zip") 1%N s
           (Demo.opened "ux0:a.zip")).
  - exact start_tracked.
  - vm_compute. reflexivity.
Defined.

Lemma extraction_leaves_other_handles_alone_witness :
  let s := Demo.opened "ux0:a.zip" in
  let filename := Some "data/game.d64" in
  (∀ data size r s',
     zip_extract_file false 1%N filename data size s = Ret r s' →
     others_untouched 1%N s s' ∧ registry_tracks_handles s')
  ∧ (∀ temp_path buffer_size r s',
       zip_extract_file_to_temp_c false 1%N filename temp_path buffer_size s
       = Ret r s' →
       others_untouched 1%N s s' ∧ registry_tracks_handles s').
Proof.
  intros s filename.
  apply (extraction_leaves_other_handles_alone false 1%N filename s).
  exact opened_tracked.
Defined.

Lemma found_rom_exists_witness :
  let s := Demo.opened "ux0:a.zip" in
  s = s ∧ zip_file_exists false 1%N (Some "data/game.d64") s = Ret 1 s.
Proof.
  intros s.
  apply (found_rom_exists false 1%N None EmptyString "data/game.d64" s s).
  vm_compute. reflexivity.
Defined.

Example zip_file_exists_cases :
  let s := Demo.opened "ux0:a.zip" in
  zip_file_exists false 1%N (Some "data/game.crt") s = Ret 1 s ∧
  zip_file_exists false 1%N (Some "data/") s = Ret 0 s ∧
  zip_file_exists false 1%N (Some "DATA/GAME.CRT") s = Ret 0 s ∧
  zip_file_exists false 1%N (Some "game.crt") s = Ret 0 s ∧
  zip_file_exists false 1%N None s = Ret 0 s ∧
  zip_file_exists false nullptr (Some "data/game.crt") s = Ret 0 s ∧
  zip_file_exists false 2%N (Some "data/game.crt") s = Fault UseAfterFree s.
Proof. split_and!; vm_compute; reflexivity. Qed.

Lemma handle_is_dangling_after_close_witness :
  let s' := Demo.closed in
  heap s' !! 1%N = None ∧
  zip_close_archive false 1%N s' = Fault UseAfterFree s' ∧
  zip_file_exists false 1%N (Some "data/game.d64") s' = Fault UseAfterFree s' ∧
  zip_extract_file false 1%N (Some "data/game.d64") (Some None) (Some 0) s'
  = Fault UseAfterFree s' ∧
  zip_find_rom_in_archive false 1%N None EmptyString s' = Fault UseAfterFree s'.
Proof.
  intros s'.
  apply (handle_is_dangling_after_close false 1%N
           (Demo.handle_at (Demo.opened "ux0:a.zip") 1%N)
           (Some "data/game.d64") (Some None) (Some 0) None EmptyString
           (Demo.opened "ux0:a.zip") s').
  - discriminate.
  - vm_compute. reflexivity.
  - vm_compute. reflexivity.
  - vm_compute. reflexivity.
Defined.

Lemma zip_extract_rom_to_temp_c_closes_its_handle_witness :
  let s := Demo.start in
  let s' := Demo.after (zip_extract_rom_to_temp_c false (Some "ux0:a.zip") None
                          "caller's" 38 s) in
  heap s' = heap s ∧
  (∀ q, q ∈ vector.elements (g_open_archives s')
        ↔ q ∈ vector.elements (g_open_archives s)) ∧
  registry_tracks_handles s'.
Proof.
  intros s s'.
  apply (zip_extract_rom_to_temp_c_closes_its_handle false (Some "ux0:a.zip") None
           "caller's" 38 s (1, "ux0:temp/vicevita_zip/temp_1_game.d64") s').
  - exact start_tracked.
  - vm_compute. reflexivity.
Defined.

(** A buffer of 37 bytes has no room for the terminator of the path of
    37 characters. *)
Lemma zip_extract_rom_to_temp_c_fails_after_writing_witness :
  let s := Demo.start in
  let zip_path := Some "ux0:a.zip" in
  let p := "ux0:temp/vicevita_zip/temp_1_game.d64" in
  let s' := Demo.after (zip_extract_rom_to_temp false zip_path None EmptyString s) in
  zip_extract_rom_to_temp_c false zip_path None "caller's" 37 s
  = Ret (0, "caller's") s' ∧
  ∃ path s1 h rom bytes,
    zip_path = Some path ∧
    zip_open_archive false zip_path s = Ret (next_addr s) s1 ∧
    heap s1 !! next_addr s = Some h ∧
    find_rom_loop (entries h) None = Some rom ∧
    temp_counter s' = temp_counter s + 1 ∧
    p = scratch_path (temp_counter s') rom ∧
    file_written (fs s) p bytes (fs s') ∧
    heap s' = heap s.
Proof.
  intros s zip_path p s'.
  apply (zip_extract_rom_to_temp_c_fails_after_writing false zip_path None
           "caller's" p 37 s s').
  - exact start_tracked.
  - vm_compute. reflexivity.
  - vm_compute. discriminate.
Defined.

(* ------------------------------------------------------------------ *)
(** ** Scratch files on the demonstration disk *)
(* ------------------------------------------------------------------ *)

(** [data/game.d64] and then [data/game.crt] extracted from
    [ux0:a.zip]. *)
Lemma scratch_paths_never_collide_witness :
  let s1 := Demo.after Demo.first_extraction in
  let s2 := Demo.after (zip_extract_file_to_temp_internal false 1%N
                          (Some "data/game.crt") EmptyString s1) in
  let p := "ux0:temp/vicevita_zip/temp_1_game.d64" in
  let p' := "ux0:temp/vicevita_zip/temp_2_game.crt" in
  temp_counter s1 < temp_counter s2 ∧
  counter_field p = to_string (temp_counter s1) ∧
  counter_field p' = to_string (temp_counter s2) ∧
  counter_field p ≠ counter_field p' ∧
  p ≠ p'.
Proof.
  intros s1 s2 p p'.
  apply (scratch_paths_never_collide false 1%N 1%N
           (Some "data/game.d64") (Some "data/game.crt") EmptyString EmptyString
           p p' (Demo.opened "ux0:a.zip") s1 s1 s2).
  - vm_compute. reflexivity.
  - vm_compute. discriminate.
  - vm_compute. reflexivity.
Defined.

Example counter_fields_read_back :
  counter_field "ux0:temp/vicevita_zip/temp_1_game.d64" = "1" ∧
  counter_field "ux0:temp/vicevita_zip/temp_2_game.crt" = "2" ∧
  counter_field (scratch_path 1234 "dir/my_game.d64") = "1234".
Proof. split_and!; vm_compute; reflexivity. Qed.

(** On a storage that creates no file the extraction to memory succeeds,
    the counter moves on, and the open fails. *)
Lemma zip_extract_file_to_temp_internal_failure_witness :
  let s := Demo.on_read_only_card in
  let temp_path := "caller's" in
  let p := "ux0:temp/vicevita_zip/temp_1_game.d64" in
  let filename := Some "data/game.d64" in
  let s' := Demo.after (zip_extract_file_to_temp_internal false 1%N filename temp_path s) in
  (p = temp_path ∧ temp_counter s' = temp_counter s ∧ fs s' = fs s ∧
   ∃ d z s1, zip_extract_file_internal false 1%N filename
               (Some None) (Some 0) s = Ret (false, d, z) s1)
  ∨ (∃ name f1 fd f2,
       filename = Some name ∧
       temp_counter s' = temp_counter s + 1 ∧
       p = scratch_path (temp_counter s') name ∧
       (sceIoMkdir (fs s) TEMP_DIR sce.mode_0777).2 = f1 ∧
       sceIoOpen f1 p open_flags sce.mode_0777 = (fd, f2) ∧
       ((fd < 0 ∧ fs s' = f2)
        ∨ (0 ≤ fd ∧
           ∃ bytes written f3,
             sceIoWrite f2 fd bytes (Z.of_nat (length bytes)) = (written, f3) ∧
             written ≠ Z.of_nat (length bytes) ∧
             fs s' = (sceIoClose f3 fd).2))).
Proof.
  intros s temp_path p filename s'.
  apply (zip_extract_file_to_temp_internal_failure false 1%N filename temp_path p s s').
  vm_compute. reflexivity.
Defined.

Lemma scratch_file_holds_the_extracted_bytes_witness :
  let s := Demo.opened "ux0:a.zip" in
  let s' := Demo.after Demo.first_extraction in
  let filename := Some "data/game.d64" in
  ∃ bytes s1,
    zip_extract_file false 1%N filename (Some None) (Some 0) s
    = Ret (1, Some (Some (Some <$> bytes)), Some (Z.of_nat (length bytes))) s1 ∧
    heap s' = heap s1 ∧
    file_written (fs s) "ux0:temp/vicevita_zip/temp_1_game.d64" bytes (fs s').
Proof.
  intros s s' filename.
  apply (scratch_file_holds_the_extracted_bytes false 1%N filename "caller's"
           "ux0:temp/vicevita_zip/temp_1_game.d64" 38 s s').
  vm_compute. reflexivity.
Defined.

Example zip_extract_file_to_temp_internal_failures :
  (∃ s', zip_extract_file_to_temp_internal false 1%N (Some "data/game.d64") "caller's"
           Demo.on_read_only_card
         = Ret (false, "ux0:temp/vicevita_zip/temp_1_game.d64") s' ∧
         temp_counter s' = 1 ∧ MemFs.files (fs s') = ∅)
  ∧ zip_extract_file_to_temp_internal false 1%N (Some "data/none.d64") "caller's"
      (Demo.opened "ux0:a.zip")
    = Ret (false, "caller's") (Demo.opened "ux0:a.zip").
Proof. split; [eexists; split_and!|]; vm_compute; reflexivity. Qed.

(* ------------------------------------------------------------------ *)
(** ** Catalogues on the demonstration disks *)
(* ------------------------------------------------------------------ *)

(** The archive [ux0:blank.zip] has no entry. *)
Lemma zip_open_archive_unlistable_witness :
  let s : Demo.process := Demo.start in
  ∃ s', zip_open_archive (Minizip0 := Demo.blank_codec) false (Some "ux0:blank.zip") s
        = Ret (next_addr s) s' ∧
        (entries <$> heap s' !! next_addr s) = Some [] ∧
        zip_file_exists false (next_addr s) (Some "game.d64") s' = Ret 0 s' ∧
        zip_find_rom_in_archive false (next_addr s) None EmptyString s'
        = Ret (false, EmptyString) s'.
Proof.
  intros s.
  apply (zip_open_archive_unlistable (Minizip0 := Demo.blank_codec) false
           "ux0:blank.zip" (Fixture.mk_session [] 0) "game.d64" None EmptyString s).
  - vm_compute. discriminate.
  - reflexivity.
  - vm_compute. discriminate.
  - discriminate.
Defined.

(** The only entry of [ux0:d.zip] has an empty name. *)
Lemma zip_open_archive_faults_on_unusable_name_witness :
  let uf0 := Demo.at_entry "ux0:d.zip" 0 in
  let s := Demo.start in
  ((∃ f s', zip_open_archive false (Some "ux0:d.zip") s = Fault f s') ↔
   ∃ u info buf,
     u ∈ positions uf0 ∧
     unzGetCurrentFileInfo u MAX_FILENAME_LENGTH = (unz.UNZ_OK, info, buf) ∧
     unusable_name buf) ∧
  (∀ f s', zip_open_archive false (Some "ux0:d.zip") s = Fault f s' →
           f = OutOfBounds) ∧
  ((∃ s', zip_open_archive false (Some "ux0:d.zip") s = Ret (next_addr s) s')
   ∨ ∃ f s', zip_open_archive false (Some "ux0:d.zip") s = Fault f s').
Proof.
  intros uf0 s.
  apply (zip_open_archive_faults_on_unusable_name false "ux0:d.zip" uf0 uf0 s).
  - vm_compute. discriminate.
  - reflexivity.
  - reflexivity.
  - discriminate.
Defined.

(** The only entry of [ux0:long.zip] has a name of 512 characters, and the
    codec leaves no terminator in the buffer. *)
Example zip_open_archive_long_entry_name :
  ∃ s', zip_open_archive (Minizip0 := Demo.blank_codec) false (Some "ux0:long.zip")
          Demo.start
        = Fault OutOfBounds s'.
Proof. eexists. vm_compute. reflexivity. Qed.

Lemma zip_is_archive_ends_in_zip_witness :
  let filename := Some "ux0:c.ZIP" in
  (zip_is_archive filename = 1 ∨ zip_is_archive filename = 0) ∧
  (zip_is_archive filename = 1 ↔
   ∃ name, filename = Some name ∧ ends_with_nocase name ".zip").
Proof.
  intros filename.
  apply (zip_is_archive_ends_in_zip filename).
  intros name [= <-]. reflexivity.
Defined.

(** The archive [ux0:b.zip], whose second entry cannot be read. *)
Lemma zip_open_archive_catalogue_witness :
  let uf0 := Demo.at_entry "ux0:b.zip" 0 in
  let s := Demo.start in
  match collect (entry_at <$> filter (λ u, metadata_readable u = true) (positions uf0)) with
  | Done es =>
      ∃ s', zip_open_archive false (Some "ux0:b.zip") s = Ret (next_addr s) s' ∧
            (entries <$> heap s' !! next_addr s) = Some es
  | Crash f => ∃ s', zip_open_archive false (Some "ux0:b.zip") s = Fault f s'
  end.
Proof.
  intros uf0 s.
  apply (zip_open_archive_catalogue false "ux0:b.zip" uf0 uf0 s).
  - vm_compute. discriminate.
  - reflexivity.
  - reflexivity.
  - discriminate.
Defined.

(* ------------------------------------------------------------------ *)
(** ** Bulk cleanup with three handles open *)
(* ------------------------------------------------------------------ *)

(** C2.  With the handles 1, 2 and 3 open and tracked, the loop of lines
    363-367 closes handle 1, which moves 2 and 3 one slot down; the second
    pass reads slot 1 and closes handle 3; the third pass reads slot 2,
    which still holds the address of handle 3, by now deleted.  Handle 2 is
    never visited: it is still live and open, with its codec session, when
    the read of the deleted handle faults, and also if that read is let
    through, in which case line 368 empties the registry with handle 2 left
    open. *)
Theorem zip_cleanup_temp_files_misses_second_of_three (stale_reads : bool) :
  let s := Demo.three_open stale_reads in
  vector.elements (g_open_archives s) = [1; 2; 3]%N ∧
  (is_open <$> heap s !! 1%N) = Some true ∧
  (is_open <$> heap s !! 2%N) = Some true ∧
  (is_open <$> heap s !! 3%N) = Some true ∧
  match zip_cleanup_temp_files stale_reads s with
  | Ret _ s' =>
      stale_reads = true ∧
      vector.elements (g_open_archives s') = [] ∧
      heap s' !! 1%N = None ∧ heap s' !! 3%N = None ∧
      heap s' !! 2%N = heap s !! 2%N ∧
      (is_open <$> heap s' !! 2%N) = Some true
  | Fault f s' =>
      stale_reads = false ∧ f = UseAfterFree ∧
      heap s' !! 1%N = None ∧ heap s' !! 3%N = None ∧
      vector.storage (g_open_archives s') !! 2%nat = Some 3%N ∧
      heap s' !! 2%N = heap s !! 2%N ∧
      (is_open <$> heap s' !! 2%N) = Some true
  end.
Proof. destruct stale_reads; vm_compute; split_and!; reflexivity. Qed.

(** With two handles open the same loop closes both. *)
Example zip_cleanup_temp_files_two_open (stale_reads : bool) :
  ∃ s', zip_cleanup_temp_files stale_reads (Demo.two_open stale_reads) = Ret tt s' ∧
        heap s' = ∅ ∧ vector.elements (g_open_archives s') = [].
Proof. destruct stale_reads; eexists; vm_compute; split_and!; reflexivity. Qed.

(** A second cleanup, with nothing tracked, changes nothing. *)
Example zip_cleanup_temp_files_again (stale_reads : bool) :
  let s := Demo.after (zip_cleanup_temp_files stale_reads (Demo.two_open stale_reads)) in
  ∃ s', zip_cleanup_temp_files stale_reads s = Ret tt s' ∧
        heap s' = heap s ∧ vector.elements (g_open_archives s') = [].
Proof. destruct stale_reads; eexists; vm_compute; split_and!; reflexivity. Qed.

(* ------------------------------------------------------------------ *)
(** ** Bulk cleanup, for any number of handles, on the demonstration disk *)
(* ------------------------------------------------------------------ *)

Lemma two_open_tracked : registry_tracks_handles (Demo.two_open false).
Proof.
  destruct (zip_open_archive_tracked false (Some "ux0:b.zip") 2%N
              (Demo.opened "ux0:a.zip") (Demo.two_open false) opened_tracked)
    as [[Hp _]|(path & h & Hrest)].
  - vm_compute. reflexivity.
  - discriminate Hp.
  - apply Hrest.
Qed.

Lemma three_open_tracked : registry_tracks_handles (Demo.three_open false).
Proof.
  destruct (zip_open_archive_tracked false (Some "ux0:c.ZIP") 3%N
              (Demo.two_open false) (Demo.three_open false) two_open_tracked)
    as [[Hp _]|(path & h & Hrest)].
  - vm_compute. reflexivity.
  - discriminate Hp.
  - apply Hrest.
Qed.

Lemma zip_cleanup_temp_files_closes_up_to_two_witness :
  let s := Demo.two_open false in
  ∃ s', zip_cleanup_temp_files false s = Ret tt s' ∧
        heap s' = ∅ ∧ vector.elements (g_open_archives s') = [] ∧
        temp_counter s' = temp_counter s ∧ fs s' = fs s ∧
        registry_tracks_handles s'.
Proof.
  intros s.
  apply (zip_cleanup_temp_files_closes_up_to_two false s).
  - exact two_open_tracked.
  - vm_compute. lia.
Defined.

Lemma zip_cleanup_temp_files_leaks_from_three_witness :
  let s := Demo.three_open false in
  ∃ s', zip_cleanup_temp_files false s = Fault UseAfterFree s' ∧
        (false = true → vector.elements (g_open_archives s') = []) ∧
        (∀ i p, vector.elements (g_open_archives s) !! (2 * i)%nat = Some p →
                heap s' !! p = None) ∧
        (∀ p, last (vector.elements (g_open_archives s)) = Some p →
              heap s' !! p = None) ∧
        (∀ i p, vector.elements (g_open_archives s) !! (2 * i + 1)%nat = Some p →
                (2 * i + 2 < length (vector.elements (g_open_archives s)))%nat →
                ∃ h, heap s' !! p = Some h ∧ heap s !! p = Some h ∧
                     is_open h = true) ∧
        temp_counter s' = temp_counter s ∧ fs s' = fs s.
Proof.
  intros s.
  apply (zip_cleanup_temp_files_leaks_from_three false s).
  - exact three_open_tracked.
  - vm_compute. lia.
Defined.
